(** * Keynesian Beauty Contest: the turn referee, the move parser and the arena

    A shallow embedding of the turn-orchestration core of the repository
    ([game/referees.py], [game/arenas.py], [models/moves.py],
    [models/records.py], [game/players.py]) together with the properties the
    specification states about it.

    Conventions of the embedding:
    - a Python [float] is an IEEE-754 binary64 value, written as a
      [spec_float] of the standard library with [prec = 53], [emax = 1024];
      arithmetic is the correctly rounded arithmetic of [SpecFloat];
    - a Python [str] is the list of its code points;
    - [Optional[T]] is [option T];
    - a [dict] read in insertion order is an association list with unique
      keys; the name-indexed [player_map] is a [gmap];
    - [Player] objects are shared between the arena and the referee: the
      list of players is the store, and a reference to a player is its
      position in that list;
    - a call that may raise returns a [result]; code that talks to a
      language model runs in a small monad that threads the log of events. *)

From Stdlib Require Import ZArith Lia Bool.
From Stdlib Require Import Floats.SpecFloat.
From stdpp Require Import base numbers option list gmap strings.

Set Default Proof Using "Type".
Local Open Scope Z_scope.

(* ===================================================================== *)
(** * Python floats: binary64 *)
(* ===================================================================== *)

Module PyFloat.

Definition prec : Z := 53.
Definition emax : Z := 1024.

Definition float : Type := spec_float.

Definition add : float -> float -> float := SFadd prec emax.
Definition sub : float -> float -> float := SFsub prec emax.
Definition mul : float -> float -> float := SFmul prec emax.
Definition div : float -> float -> float := SFdiv prec emax.
Definition abs : float -> float := SFabs.

  (** [x < y], [x > y], [x <= y], [x == y]; every comparison with a NaN
      is false. *)
Definition ltb (x y : float) : bool := SFltb x y.
Definition gtb (x y : float) : bool :=
    match SFcompare x y with Some Gt => true | _ => false end.
Definition leb (x y : float) : bool := SFleb x y.
Definition eqb (x y : float) : bool := SFeqb x y.

Definition is_nan (x : float) : bool :=
    match x with S754_nan => true | _ => false end.

  (** A value a Python float can hold: mantissa and exponent in canonical
      form. *)
Definition valid (x : float) : bool := valid_binary prec emax x.

  (** [float(n)] for a Python integer [n]: correctly rounded. *)
Definition of_Z (n : Z) : float := binary_normalize prec emax n 0 false.
Definition of_nat (n : nat) : float := of_Z (Z.of_nat n).

Definition zero : float := S754_zero false.
Definition nan : float := S754_nan.
Definition hundred : float := Eval vm_compute in of_Z 100.

  (** [bool(x)]: a float is falsy exactly when it compares equal to zero. *)
Definition truthy (x : float) : bool := negb (eqb x zero).

  (** The builtins [max(a, b)] and [min(a, b)] keep the first argument
      unless the second is strictly greater (resp. smaller). *)
Definition max (a b : float) : float := if gtb b a then b else a.
Definition min (a b : float) : float := if ltb b a then b else a.

  (** [sum(xs)]: left to right from the integer [0], each addition
      rounded. Interpreters that compensate the rounding errors of a
      float sum may differ from this in the last place; on sums that are
      exact, as in the examples below, they agree. *)
Definition sum (xs : list float) : float := foldl add zero xs.

  (** [x in [lo, hi]] as the comparison [lo <= x <= hi]. *)
Definition between (lo hi x : float) : bool := leb lo x && leb x hi.

End PyFloat.

Abbreviation float := PyFloat.float.

Declare Scope pyfloat_scope.
Delimit Scope pyfloat_scope with F.
Infix "+" := PyFloat.add : pyfloat_scope.
Infix "-" := PyFloat.sub : pyfloat_scope.
Infix "*" := PyFloat.mul : pyfloat_scope.
Infix "/" := PyFloat.div : pyfloat_scope.

(* ===================================================================== *)
(** * Python strings: lists of code points *)
(* ===================================================================== *)

Module PyStr.

Definition pystr : Type := list N.

Definition of_string (s : string) : pystr :=
    (fun a => N.of_nat (Ascii.nat_of_ascii a)) <$> String.list_ascii_of_string s.

Definition eqb (a b : pystr) : bool := bool_decide (a = b).

  (** [s.find(c)] for a one-character [c]: index of the first occurrence,
      [-1] when there is none. *)
Fixpoint find_from (c : N) (s : pystr) (i : Z) : Z :=
    match s with
    | [] => -1
    | x :: s' => if N.eqb x c then i else find_from c s' (i + 1)
    end.
Definition find (c : N) (s : pystr) : Z := find_from c s 0.

  (** [s.rfind(c)]: index of the last occurrence, [-1] when there is none. *)
Fixpoint rfind_from (c : N) (s : pystr) (i : Z) (last : Z) : Z :=
    match s with
    | [] => last
    | x :: s' => rfind_from c s' (i + 1) (if N.eqb x c then i else last)
    end.
Definition rfind (c : N) (s : pystr) : Z := rfind_from c s 0 (-1).

  (** [s[a:b]] for [0 <= a]. *)
Definition slice (s : pystr) (a b : Z) : pystr :=
    take (Z.to_nat (b - a)) (drop (Z.to_nat a) s).

  (** [s.replace(old, new)] where [old] and [new] are single characters. *)
Definition replace (old new : N) (s : pystr) : pystr :=
    (fun x => if N.eqb x old then new else x) <$> s.

End PyStr.

Abbreviation pystr := PyStr.pystr.
Abbreviation str := PyStr.of_string.
Arguments PyStr.of_string : simpl never.

(* ===================================================================== *)
(** * Exceptions and results *)
(* ===================================================================== *)

(** The exception classes that occur: the ones the code raises itself, the
    ones of the decoders and of the model validation, and the errors of a
    remote model call (any other [Exception], told apart by a code). *)
Inductive exn : Type :=
| ValueError (msg : string)
| TypeError
| KeyError
| ValidationError
| DecodeError
| RemoteError (code : N).

Inductive result (A : Type) : Type :=
| Ok (a : A)
| Raise (e : exn).
Arguments Ok {A} a.
Arguments Raise {A} e.

Definition is_ok {A} (r : result A) : bool :=
  match r with Ok _ => true | Raise _ => false end.

Definition rbind {A B} (r : result A) (k : A -> result B) : result B :=
  match r with Ok a => k a | Raise e => Raise e end.

(* ===================================================================== *)
(** * Decoded Python values *)
(* ===================================================================== *)

(** What [json.loads] and [ast.literal_eval] can return on a [{...}] span. *)
Local Unset Elimination Schemes.
Inductive pyobj : Type :=
| PyNone
| PyBool (b : bool)
| PyInt (z : Z)
| PyFloatV (f : float)
| PyStrV (s : pystr)
| PyList (l : list pyobj)
| PyTuple (l : list pyobj)
| PySet (l : list pyobj)
| PyDict (items : list (pyobj * pyobj)).
Local Set Elimination Schemes.

(** [d.get(key)] for a string key; a dict holds a key at most once. *)
Fixpoint dict_get (key : pystr) (items : list (pyobj * pyobj)) : option pyobj :=
  match items with
  | [] => None
  | (PyStrV k, v) :: rest => if PyStr.eqb k key then Some v else dict_get key rest
  | _ :: rest => dict_get key rest
  end.

(** [isinstance(x, dict)] *)
Definition is_dict (x : pyobj) : bool :=
  match x with PyDict _ => true | _ => false end.

(* ===================================================================== *)
(** * game/players.py *)
(* ===================================================================== *)

Module LLM.
Record t : Type := mk { model_name : pystr; temperature : float }.
End LLM.

Module Player.

(** The fields of a [Player] the turn logic reads or writes. The opponent
    list and the per-player history only feed the prompt builder, which is
    an external collaborator, and are left out. *)
Record t : Type := mk {
  name : pystr;
  llm : LLM.t;
  score : float;
  prior_score : float;
  series : list float;
  is_dead : bool;
  is_winner : bool
}.

Definition MAX_TOKENS : Z := 600.

(** [Player.__init__], after the model handle has been resolved. *)
Definition init (name : pystr) (llm : LLM.t) : t :=
  mk name llm PyFloat.zero PyFloat.zero [PyFloat.zero] false false.

Definition set_score (v : float) (p : t) : t :=
  mk (name p) (llm p) v (prior_score p) (series p) (is_dead p) (is_winner p).
Definition set_prior_score (v : float) (p : t) : t :=
  mk (name p) (llm p) (score p) v (series p) (is_dead p) (is_winner p).
Definition set_series (v : list float) (p : t) : t :=
  mk (name p) (llm p) (score p) (prior_score p) v (is_dead p) (is_winner p).
Definition set_is_winner (v : bool) (p : t) : t :=
  mk (name p) (llm p) (score p) (prior_score p) (series p) (is_dead p) v.

End Player.

(* ===================================================================== *)
(** * Remote calls, the event log and the external collaborators *)
(* ===================================================================== *)

(** One call of [llm.send(system_prompt, user_prompt, max_tokens)], with
    the name of the player whose model is asked. *)
Module Call.
Record t : Type := mk {
  agent : pystr;
  llm : LLM.t;
  system_prompt : pystr;
  user_prompt : pystr;
  max_tokens : Z
}.
End Call.

(** The log keeps every remote call and every call of [parse_response],
    in the order they are made. *)
Inductive event : Type :=
| Sent (c : Call.t)
| Parsed (text : pystr).

(** What the core consumes without depending on how it is made: the two
    decoders of the Python library, the field validation of the model
    library (before the validators of [Move] run), the prompt builder, the
    configured starter, and the remote models. A remote model may answer
    differently each time: its reply is a function of everything logged
    so far. *)
Class Externals : Type := {
  json_loads : pystr -> result pyobj;
  literal_eval : pystr -> result pyobj;
  validate_str : pyobj -> option pystr;
  validate_float : pyobj -> option float;
  validate_mapping : pyobj -> option (list (pyobj * pyobj));
  instructions : Player.t -> pystr;
  prompt : Player.t -> Z -> pystr;
  starter : list event -> list Player.t -> nat;
  send : list event -> Call.t -> result pystr
}.

(** Computations that log events and may raise. *)
Definition M (A : Type) : Type := list event -> result A * list event.

Definition ret {A} (a : A) : M A := fun log => (Ok a, log).
Definition raise {A} (e : exn) : M A := fun log => (Raise e, log).
Definition lift {A} (r : result A) : M A := fun log => (r, log).
Definition bind {A B} (c : M A) (k : A -> M B) : M B :=
  fun log =>
    match c log with
    | (Ok a, log') => k a log'
    | (Raise e, log') => (Raise e, log')
    end.
Definition emit (ev : event) : M unit := fun log => (Ok tt, log ++ [ev]).

(** [try: body except Exception as e: handler(e)] *)
Definition try_except {A} (body : M A) (handler : exn -> M A) : M A :=
  fun log =>
    match body log with
    | (Ok a, log') => (Ok a, log')
    | (Raise e, log') => handler e log'
    end.

(** The same for code that only computes. *)
Definition rtry {A} (body : result A) (handler : exn -> result A) : result A :=
  match body with Ok a => Ok a | Raise e => handler e end.

Notation "'let*' x ':=' c1 'in' c2" := (bind c1 (fun x => c2))
  (at level 10, x name, c1 at level 100, c2 at level 200, only parsing).


(* ===================================================================== *)
(** * models/moves.py *)
(* ===================================================================== *)

Module Move.

Record t : Type := mk {
  strategy : pystr;
  guess : float;
  inner_thoughts : list (pyobj * pyobj);
  public_message : pystr
}.

(** [Move.clamp_guess]: the field validator of [guess]. It runs after the
    library's own validation, so [value] is a float and [float(value)] is
    [value]. *)
Definition clamp_guess (value : float) : float :=
  let numeric := value in
  if PyFloat.ltb numeric PyFloat.zero then PyFloat.zero
  else if PyFloat.gtb numeric PyFloat.hundred then PyFloat.hundred
  else numeric.

Definition is_str (x : pyobj) : bool :=
  match x with PyStrV _ => true | _ => false end.

(** A field with a default: absent, or present and validated. *)
Definition optional {A} (validate : pyobj -> option A) (default : A)
    (v : option pyobj) : option A :=
  match v with
  | None => Some default
  | Some x => validate x
  end.

(** The constructor of [Move] called on the unpacked [response_dict], as
    [parse_response] does. Unpacking needs a mapping with string keys;
    the fields are read by alias, [secret strategy] and [guess] are
    required, any further key is ignored, and the validator of [guess] is
    applied to the validated number. *)
Definition create `{Externals} (response_dict : pyobj) : result t :=
  match response_dict with
  | PyDict items =>
      if forallb (fun kv => is_str (fst kv)) items then
        match dict_get (str "secret strategy") items ≫= validate_str,
              dict_get (str "guess") items ≫= validate_float,
              optional validate_mapping [] (dict_get (str "inner_thoughts") items),
              optional validate_str [] (dict_get (str "public message") items)
        with
        | Some strategy, Some value, Some inner, Some message =>
            Ok (mk strategy (clamp_guess value) inner message)
        | _, _, _, _ => Raise ValidationError
        end
      else Raise TypeError
  | _ => Raise TypeError
  end.

End Move.

(* ===================================================================== *)
(** * models/records.py *)
(* ===================================================================== *)

(** What [make_move] returns: the reply of the model with the prompts and
    parameters that produced it. *)
Module Reply.
Record t : Type := mk {
  response : pystr;
  system_prompt : pystr;
  user_prompt : pystr;
  model_name : pystr;
  temperature : option float
}.
End Reply.

(** The value stored as [raw_response]: a text, or, in the outermost
    handler of [do_turn_for_player], whatever the variable [response] holds
    at that point. *)
Inductive raw : Type :=
| RawText (s : pystr)
| RawReply (r : Reply.t).

Module TurnRecord.

Record t : Type := mk {
  name : pystr;
  turn : Z;
  is_invalid_move : bool;
  system_prompt : pystr;
  user_prompt : pystr;
  model_name : pystr;
  temperature : option float;
  repair_attempted : bool;
  repaired_response : pystr;
  prior_score : option float;
  post_score : option float;
  inner_thoughts : list (pyobj * pyobj);
  inner_prediction : option pyobj;
  inner_why : option pyobj;
  guess : option float;
  applied_guess : option float;
  target_value : option float;
  distance_from_target : option float;
  score_delta : option float;
  move : option Move.t;
  raw_response : raw
}.

(** [TurnRecord.__init__] *)
Definition init (name : pystr) (turn : Z) (move : option Move.t)
    (is_invalid_move : bool) (raw_response : raw) : t :=
  {| name := name; turn := turn; is_invalid_move := is_invalid_move;
     system_prompt := []; user_prompt := []; model_name := [];
     temperature := None; repair_attempted := false; repaired_response := [];
     prior_score := None; post_score := None; inner_thoughts := [];
     inner_prediction := None; inner_why := None; guess := None;
     applied_guess := None; target_value := None;
     distance_from_target := None; score_delta := None;
     move := move; raw_response := raw_response |}.

(** Assignments to the fields of an existing record. *)
Definition set_provenance (sp up mn : pystr) (temp : option float) (r : t) : t :=
  let 'mk a b c _ _ _ _ h i j k l m n o p q u v w x := r in
  mk a b c sp up mn temp h i j k l m n o p q u v w x.
Definition set_repair (attempted : bool) (repaired : pystr) (r : t) : t :=
  let 'mk a b c d e f g _ _ j k l m n o p q u v w x := r in
  mk a b c d e f g attempted repaired j k l m n o p q u v w x.
Definition set_prior_score (ps : option float) (r : t) : t :=
  let 'mk a b c d e f g h i _ k l m n o p q u v w x := r in
  mk a b c d e f g h i ps k l m n o p q u v w x.
Definition set_inner (it : list (pyobj * pyobj)) (pred why : option pyobj) (r : t) : t :=
  let 'mk a b c d e f g h i j k _ _ _ o p q u v w x := r in
  mk a b c d e f g h i j k it pred why o p q u v w x.
Definition set_guess (g ag : option float) (r : t) : t :=
  let 'mk a b c d e f g0 h i j k l m n _ _ q u v w x := r in
  mk a b c d e f g0 h i j k l m n g ag q u v w x.
Definition set_scoring (ag tv dist delta post : option float) (r : t) : t :=
  let 'mk a b c d e f g h i j _ l m n o _ _ _ _ w x := r in
  mk a b c d e f g h i j post l m n o ag tv dist delta w x.

End TurnRecord.

(* ===================================================================== *)
(** * Dictionaries in insertion order *)
(* ===================================================================== *)

(** [d[k] = v]: an existing key keeps its place, a new key goes last. *)
Fixpoint dict_set {A} (k : pystr) (v : A) (d : list (pystr * A)) : list (pystr * A) :=
  match d with
  | [] => [(k, v)]
  | (k', v') :: d' =>
      if PyStr.eqb k' k then (k', v) :: d' else (k', v') :: dict_set k v d'
  end.

Fixpoint unique_keys {A} (d : list (pystr * A)) : bool :=
  match d with
  | [] => true
  | (k, _) :: d' => forallb (fun kv => negb (PyStr.eqb (fst kv) k)) d' && unique_keys d'
  end.

(* ===================================================================== *)
(** * game/referees.py *)
(* ===================================================================== *)

Module Referee.

Definition TARGET_MULTIPLIER : float := S754_finite false 6305039478318694 (-53).

Record t : Type := mk {
  players : list Player.t;
  turn : Z;
  records : list (pystr * TurnRecord.t);
  player_map : gmap pystr nat
}.

(** [{player.name: player for player in players}]: a later player of the
    same name replaces an earlier one. The value is the position of the
    player in [players]. *)
Fixpoint build_player_map (i : nat) (ps : list Player.t) (m : gmap pystr nat)
    : gmap pystr nat :=
  match ps with
  | [] => m
  | p :: ps' => build_player_map (S i) ps' (<[Player.name p := i]> m)
  end.

(** [Referee.__init__] *)
Definition init (players : list Player.t) (turn : Z) : t :=
  mk players turn [] (build_player_map 0 players ∅).

Section Pipeline.

Context `{Externals}.

(** ** [parse_response] *)

(** The characters the pattern class [\s] matches in a [str]. *)
Definition is_space (c : N) : bool :=
  ((9 <=? c) && (c <=? 13) || (28 <=? c) && (c <=? 32) || (c =? 133) || (c =? 160)
   || (c =? 5760) || (8192 <=? c) && (c <=? 8202) || (c =? 8232) || (c =? 8233)
   || (c =? 8239) || (c =? 8287) || (c =? 12288))%N.

Definition is_comma (c : N) : bool := (c =? 44)%N.
Definition is_closer (c : N) : bool := ((c =? 125) || (c =? 93))%N.

(** Does the text start with [\s*(\}|\])]? If so, how many blanks come
    before the bracket. *)
Fixpoint blanks_before_closer (s : pystr) : option nat :=
  match s with
  | [] => None
  | c :: s' =>
      if is_closer c then Some 0%nat
      else if is_space c then S <$> blanks_before_closer s'
      else None
  end.

(** [re.sub(r",\s*(\}|\])", r"\1", s)]: from left to right, a comma that
    is followed by blanks and a closing bracket is dropped together with
    the blanks; the bracket stays. [skip] counts the blanks still to be
    dropped. *)
Fixpoint strip_trailing_commas (skip : nat) (s : pystr) : pystr :=
  match s with
  | [] => []
  | c :: s' =>
      match skip with
      | S n => strip_trailing_commas n s'
      | O =>
          if is_comma c then
            match blanks_before_closer s' with
            | Some n => strip_trailing_commas n s'
            | None => c :: strip_trailing_commas 0 s'
            end
          else c :: strip_trailing_commas 0 s'
      end
  end.

(** Curly quotation marks to straight ones, then trailing commas out. *)
Definition cleanup (snippet : pystr) : pystr :=
  let cleaned := snippet in
  let cleaned :=
    PyStr.replace 8217 39 (PyStr.replace 8216 39
      (PyStr.replace 8221 34 (PyStr.replace 8220 34 cleaned))) in
  strip_trailing_commas 0 cleaned.

(** The span from the first [{] to the last [}]. *)
Definition extract (response : pystr) : result pystr :=
  let first := PyStr.find 123 response in
  let last := PyStr.rfind 125 response in
  if (first =? -1) || (last =? -1) || (last <=? first)
  then Raise (ValueError "No JSON object found in response")
  else Ok (PyStr.slice response first (last + 1)).

(** The three decoders tried in turn on the span. *)
Definition decode (snippet : pystr) : result pyobj :=
  rtry (json_loads snippet) (fun _ =>
    rtry
      (rbind (literal_eval snippet) (fun python_obj =>
         if is_dict python_obj then Ok python_obj
         else Raise (ValueError "literal_eval did not return a dict")))
      (fun _ =>
         let cleaned := cleanup snippet in
         rtry (json_loads cleaned) (fun e =>
           Raise (ValueError "Failed to parse JSON from response")))).

Definition parse_response (response : pystr) : result Move.t :=
  rbind (extract response) (fun snippet =>
  rbind (decode snippet) (fun response_dict =>
  Move.create response_dict)).

(** A call of [parse_response], logged. *)
Definition call_parse_response (response : pystr) : M Move.t :=
  let* _ := emit (Parsed response) in lift (parse_response response).

(** ** Talking to a model *)

Definition llm_send (player : Player.t) (system_prompt user_prompt : pystr)
    (max_tokens : Z) : M pystr :=
  fun log =>
    let c := Call.mk (Player.name player) (Player.llm player)
               system_prompt user_prompt max_tokens in
    (send log c, log ++ [Sent c]).

(** [Player.make_move] *)
Definition make_move (player : Player.t) (turn : Z) : M Reply.t :=
  let system_prompt := instructions player in
  let user_prompt := prompt player turn in
  let* response := llm_send player system_prompt user_prompt Player.MAX_TOKENS in
  ret (Reply.mk response system_prompt user_prompt
         (LLM.model_name (Player.llm player))
         (Some (LLM.temperature (Player.llm player)))).

(** ** [repair_response] *)

Definition repair_user (original_response : pystr) : pystr :=
  str "
Your previous response could not be parsed as valid JSON for this Keynes Beauty Contest turn.
Here is what you returned:

" ++ original_response ++ str "

Return ONLY one JSON object with exactly these keys: 'secret strategy', 'inner_thoughts', 'guess', 'public message'.
- 'guess' must be a number between 0 and 100.
- 'inner_thoughts' must contain 'prediction' and 'why'.
Do NOT add explanatory text before or after the JSON object.
".

Definition helper_prompt (original_response : pystr) : pystr :=
  str "
Another player produced an output that could not be parsed as JSON.
Please reformat the following text into a single valid JSON object with the keys:
'secret strategy', 'inner_thoughts' (with 'prediction' and 'why'), 'guess', 'public message'.
" ++ original_response ++ str "

Return ONLY the JSON object.".

(** The budget of a repair call: [MAX_TOKENS // 4]. *)
Definition repair_budget : Z := Player.MAX_TOKENS `div` 4.

(** The fallback loop over [self.players]; [e] is the error of the
    player's own model, raised again when no helper answers. *)
Fixpoint ask_helpers (player : Player.t) (original_response : pystr) (e : exn)
    (helpers : list Player.t) : M pystr :=
  match helpers with
  | [] => raise e
  | helper :: rest =>
      if PyStr.eqb (Player.name helper) (Player.name player)
      then ask_helpers player original_response e rest
      else
        try_except
          (llm_send helper (instructions helper) (helper_prompt original_response)
             repair_budget)
          (fun _ => ask_helpers player original_response e rest)
  end.

Definition repair_response (self : t) (player : Player.t)
    (original_response : pystr) : M pystr :=
  try_except
    (llm_send player (instructions player) (repair_user original_response)
       repair_budget)
    (fun e => ask_helpers player original_response e (players self)).

(** ** [do_turn_for_player] *)

(** The record of a move that was read from [text]. *)
Definition accepted (self : t) (player : Player.t) (reply : Reply.t)
    (move : Move.t) (text : pystr) : TurnRecord.t :=
  let rec := TurnRecord.init (Player.name player) (turn self) (Some move) false
               (RawText text) in
  let rec := TurnRecord.set_provenance (Reply.system_prompt reply)
               (Reply.user_prompt reply) (Reply.model_name reply)
               (Reply.temperature reply) rec in
  let rec := TurnRecord.set_prior_score (Some (Player.prior_score player)) rec in
  let it := Move.inner_thoughts move in
  let rec := TurnRecord.set_inner it (dict_get (str "prediction") it)
               (dict_get (str "why") it) rec in
  TurnRecord.set_guess (Some (Move.guess move)) (Some (Move.guess move)) rec.

(** The record of a move read from the repaired text. *)
Definition accepted_after_repair (self : t) (player : Player.t) (reply : Reply.t)
    (move : Move.t) (repaired : pystr) : TurnRecord.t :=
  let rec := TurnRecord.init (Player.name player) (turn self) (Some move) false
               (RawText repaired) in
  let rec := TurnRecord.set_provenance (Reply.system_prompt reply)
               (Reply.user_prompt reply) (Reply.model_name reply)
               (Reply.temperature reply) rec in
  let rec := TurnRecord.set_repair true repaired rec in
  let rec := TurnRecord.set_prior_score (Some (Player.prior_score player)) rec in
  let it := Move.inner_thoughts move in
  let rec := TurnRecord.set_inner it (dict_get (str "prediction") it)
               (dict_get (str "why") it) rec in
  TurnRecord.set_guess (Some (Move.guess move)) (Some (Move.guess move)) rec.

(** The record of a reply no move could be read from. *)
Definition rejected (self : t) (player : Player.t) (reply : Reply.t) : TurnRecord.t :=
  let rec := TurnRecord.init (Player.name player) (turn self) None true
               (RawText (Reply.response reply)) in
  TurnRecord.set_provenance (Reply.system_prompt reply)
    (Reply.user_prompt reply) (Reply.model_name reply)
    (Reply.temperature reply) rec.

(** The record written by the outermost handler; [response] is what the
    variable of that name holds when the handler runs. *)
Definition failed (self : t) (player : Player.t) (response : raw) : TurnRecord.t :=
  TurnRecord.init (Player.name player) (turn self) None true response.

(** What follows the model call inside the outer [try]: parse, and on any
    error repair and parse again. *)
Definition resolve (self : t) (player : Player.t) (response : Reply.t) : M TurnRecord.t :=
  let resp_text := Reply.response response in
  try_except
    (let* move := call_parse_response resp_text in
     ret (accepted self player response move resp_text))
    (fun parse_e =>
       try_except
         (let* repaired := repair_response self player resp_text in
          let* move := call_parse_response repaired in
          ret (accepted_after_repair self player response move repaired))
         (fun repair_e => ret (rejected self player response))).

(** [Referee.do_turn_for_player]. The outer [try] covers the model call
    and everything after it; its handler stores the variable [response],
    which is the empty string until the model call has returned and the
    reply afterwards. *)
Definition do_turn_for_player (self : t) (player : Player.t) : M TurnRecord.t :=
  try_except
    (let* response := make_move player (turn self) in
     try_except (resolve self player response)
       (fun e => ret (failed self player (RawReply response))))
    (fun e => ret (failed self player (RawText []))).

End Pipeline.

(** ** [handle_turn] *)

(** The records that count: [not rec.is_invalid_move and rec.applied_guess
    is not None]. *)
Definition is_valid (rec : TurnRecord.t) : bool :=
  negb (TurnRecord.is_invalid_move rec) &&
  match TurnRecord.applied_guess rec with Some _ => true | None => false end.

Definition valid_records (self : t) : list TurnRecord.t :=
  List.filter is_valid (snd <$> records self).

(** [TARGET_MULTIPLIER * (sum(guesses) / len(guesses))] *)
Definition target_of_guesses (guesses : list float) : float :=
  let avg_guess := (PyFloat.sum guesses / PyFloat.of_nat (length guesses))%F in
  (TARGET_MULTIPLIER * avg_guess)%F.

Definition compute_target (self : t) : option float :=
  match valid_records self with
  | [] => None
  | valid =>
      let guesses := omap TurnRecord.applied_guess valid in
      Some (target_of_guesses guesses)
  end.

(** [record.applied_guess or 0.0] *)
Definition guess_or_zero (g : option float) : float :=
  match g with
  | Some x => if PyFloat.truthy x then x else PyFloat.zero
  | None => PyFloat.zero
  end.

(** [max(0.0, min(100.0, guess))] *)
Definition bound_guess (guess : float) : float :=
  PyFloat.max PyFloat.zero (PyFloat.min PyFloat.hundred guess).

(** [max(0.0, 100.0 - distance)] *)
Definition delta_of_distance (distance : float) : float :=
  PyFloat.max PyFloat.zero (PyFloat.hundred - distance)%F.

(** One pass of the loop body of [handle_turn] on a record and the player
    it belongs to. *)
Definition score_record (target : option float) (player : Player.t)
    (record : TurnRecord.t) : Player.t * TurnRecord.t :=
  match TurnRecord.is_invalid_move record, TurnRecord.applied_guess record, target with
  | false, Some applied, Some tgt =>
      let guess := bound_guess applied in
      let distance := PyFloat.abs (guess - tgt)%F in
      let score_delta := delta_of_distance distance in
      let player' := Player.set_score (Player.score player + score_delta)%F player in
      (player',
       TurnRecord.set_scoring (Some guess) (Some tgt) (Some distance)
         (Some score_delta) (Some (Player.score player')) record)
  | _, _, _ =>
      let distance :=
        match target with
        | None => None
        | Some tgt =>
            Some (PyFloat.abs (guess_or_zero (TurnRecord.applied_guess record) - tgt)%F)
        end in
      (player,
       TurnRecord.set_scoring (TurnRecord.applied_guess record) target distance
         (Some PyFloat.zero) (Some (Player.score player)) record)
  end.

(** [for name, record in self.records.items(): ...]. The lookup
    [self.player_map[name]] raises [KeyError] on a missing name. *)
Fixpoint handle_turn_loop (pm : gmap pystr nat) (target : option float)
    (items : list (pystr * TurnRecord.t)) (players : list Player.t)
    : result (list Player.t * list (pystr * TurnRecord.t)) :=
  match items with
  | [] => Ok (players, [])
  | (name, record) :: rest =>
      match pm !! name with
      | None => Raise KeyError
      | Some i =>
          match players !! i with
          | None => Raise KeyError
          | Some player =>
              let '(player', record') := score_record target player record in
              rbind (handle_turn_loop pm target rest (<[i := player']> players))
                (fun '(ps, recs) => Ok (ps, (name, record') :: recs))
          end
      end
  end.

(** [Referee.handle_turn]. The records are afterwards handed to the move
    log; that sink is external, it does not touch the records, and its
    failures are swallowed. *)
Definition handle_turn (self : t) : result t :=
  let target := compute_target self in
  rbind (handle_turn_loop (player_map self) target (records self) (players self))
    (fun '(ps, recs) => Ok (mk ps (turn self) recs (player_map self))).

(** The player a record key designates. *)
Definition player_of (self : t) (name : pystr) : option (nat * Player.t) :=
  match player_map self !! name with
  | Some i => match players self !! i with Some p => Some (i, p) | None => None end
  | None => None
  end.

(** The state [do_turn] leaves for [handle_turn]: the record keys are
    distinct and each one is the name of the player it designates. *)
Definition resolves (self : t) (name : pystr) : bool :=
  match player_of self name with
  | Some (_, p) => PyStr.eqb (Player.name p) name
  | None => false
  end.

Definition wf (self : t) : bool :=
  unique_keys (records self) && forallb (fun kv => resolves self (fst kv)) (records self).

(** The applied guesses of the valid records, in record order. *)
Definition valid_guesses (self : t) : list float :=
  omap TurnRecord.applied_guess (valid_records self).


Section Turn.

Context `{Externals}.

(** [Referee.player_with_name]: a missing name is a [KeyError] of the
    lookup; a player object is always truthy. *)
Definition player_with_name (self : t) (name : pystr) : result (nat * Player.t) :=
  match player_of self name with
  | Some ip => Ok ip
  | None => Raise KeyError
  end.

(** The pipelines of all players. The worker pool runs them side by side
    and hands the records back in the order of [players]; a pipeline reads
    nothing that another one writes, so running them one after the other
    gives the same records. *)
Fixpoint map_players (self : t) (ps : list Player.t) : M (list TurnRecord.t) :=
  match ps with
  | [] => ret []
  | p :: ps' =>
      let* record := do_turn_for_player self p in
      let* rest := map_players self ps' in
      ret (record :: rest)
  end.

(** The loop over the results: [self.records[record.name] = record]. *)
Fixpoint store_records (self : t) (recs : list TurnRecord.t) : result t :=
  match recs with
  | [] => Ok self
  | record :: rest =>
      rbind (player_with_name self (TurnRecord.name record)) (fun _ =>
        store_records
          (mk (players self) (turn self)
              (dict_set (TurnRecord.name record) record (records self))
              (player_map self))
          rest)
  end.

(** [Referee.do_turn]. A pool of zero workers cannot be created. The
    progress callback only informs an observer. *)
Definition do_turn (self : t) : M t :=
  match players self with
  | [] => raise (ValueError "max_workers must be greater than 0")
  | _ =>
      let* recs := map_players self (players self) in
      let* self' := lift (store_records self recs) in
      lift (handle_turn self')
  end.

End Turn.

End Referee.

(* ===================================================================== *)
(** * Vocabulary of the statements about the pipeline *)
(* ===================================================================== *)

Section RepairVocabulary.

Context `{Externals}.

(** The call [repair_response] makes to the player's own model. *)
Definition own_call (player : Player.t) (original : pystr) : Call.t :=
  Call.mk (Player.name player) (Player.llm player) (instructions player)
    (Referee.repair_user original) Referee.repair_budget.

(** The call it makes to the model of a helper. *)
Definition helper_call (original : pystr) (helper : Player.t) : Call.t :=
  Call.mk (Player.name helper) (Player.llm helper) (instructions helper)
    (Referee.helper_prompt original) Referee.repair_budget.

(** The other players, in the order of the referee's list. *)
Definition others (self : Referee.t) (player : Player.t) : list Player.t :=
  List.filter (fun h => negb (PyStr.eqb (Player.name h) (Player.name player)))
    (Referee.players self).

(** The text the model call of [make_move] returned; empty when the call
    raised. *)
Definition received (self : Referee.t) (player : Player.t) (log : list event) : pystr :=
  match Referee.make_move player (Referee.turn self) log with
  | (Ok reply, _) => Reply.response reply
  | (Raise _, _) => []
  end.

(** A failure nothing recovers: the model call raises; or the reply does
    not parse and then either the repair raises or what it returns does
    not parse. *)
Definition unrecovered (self : Referee.t) (player : Player.t) (log : list event) : bool :=
  match Referee.make_move player (Referee.turn self) log with
  | (Raise _, _) => true
  | (Ok reply, log1) =>
      let text := Reply.response reply in
      if is_ok (Referee.parse_response text) then false
      else
        match Referee.repair_response self player text (log1 ++ [Parsed text]) with
        | (Raise _, _) => true
        | (Ok repaired, _) => negb (is_ok (Referee.parse_response repaired))
        end
  end.

End RepairVocabulary.

(** A decoder result that is a mapping. *)
Definition is_mapping (r : result pyobj) : bool :=
  match r with Ok (PyDict _) => true | _ => false end.

(** The curly quotation marks. *)
Definition is_smart_quote (c : N) : bool :=
  ((c =? 8220) || (c =? 8221) || (c =? 8216) || (c =? 8217))%N.

(** The remote calls in a log. *)
Definition calls_in (log : list event) : list Call.t :=
  omap (fun ev => match ev with Sent c => Some c | Parsed _ => None end) log.


(** A character the cosmetic repair has no business with: no comma, no
    blank, no quotation mark of either kind. *)
Definition is_plain (c : N) : bool :=
  negb (Referee.is_comma c || Referee.is_space c || is_smart_quote c
        || (c =? 34)%N || (c =? 39)%N).

(** The calls of [parse_response] in a log. *)
Definition parses_in (log : list event) : list pystr :=
  omap (fun ev => match ev with Parsed text => Some text | Sent _ => None end) log.

(** The call [make_move] makes to the player's model. *)
Definition move_call `{Externals} (player : Player.t) (turn : Z) : Call.t :=
  Call.mk (Player.name player) (Player.llm player) (instructions player)
    (prompt player turn) Player.MAX_TOKENS.

(** Two states of a player that differ in the score at most. *)
Definition only_score_differs (p p' : Player.t) : Prop :=
  p' = Player.set_score (Player.score p') p.

(** Two states of a record that differ at most in what [handle_turn]
    writes: the applied guess, the target, the distance, the score delta
    and the score after the turn. *)
Definition only_scoring_differs (r r' : TurnRecord.t) : Prop :=
  r' = TurnRecord.set_scoring (TurnRecord.applied_guess r') (TurnRecord.target_value r')
         (TurnRecord.distance_from_target r') (TurnRecord.score_delta r')
         (TurnRecord.post_score r') r.
(* ===================================================================== *)
(** * game/arenas.py *)
(* ===================================================================== *)

(** [max(xs)] over floats: the first item, replaced by each later item
    that is strictly greater; [ValueError] on no item. *)
Definition max_of (xs : list float) : result float :=
  match xs with
  | [] => Raise (ValueError "max() arg is an empty sequence")
  | x :: xs' => Ok (foldl PyFloat.max x xs')
  end.

Module Arena.

Record t : Type := mk {
  players : list Player.t;
  turn : Z;
  is_game_over : bool
}.

Section Game.

Context `{Externals}.

(** [apply_starter_policy]: the configured starter, one of the players,
    is moved to the front. What it does besides, to the opponent lists
    and to the settings of the user interface, is outside the model. *)
Definition apply_starter_policy (self : t) : M t :=
  fun log =>
    let i := starter log (players self) in
    match players self !! i with
    | Some s => (Ok (mk (s :: delete i (players self)) (turn self) (is_game_over self)), log)
    | None => (Ok self, log)
    end.

(** [Arena.__init__] *)
Definition init (players : list Player.t) : M t :=
  apply_starter_policy (mk players 1 false).

(** [handle_game_over]. Saving the game afterwards is external; its
    failures are logged and swallowed. *)
Definition handle_game_over (self : t) : result t :=
  rbind (max_of (Player.score <$> players self)) (fun winning_score =>
    Ok (mk ((fun player =>
               if PyFloat.eqb (Player.score player) winning_score
               then Player.set_is_winner true player
               else player) <$> players self)
           (turn self) true)).

Definition prepare_for_turn (self : t) : M t :=
  let* self := apply_starter_policy self in
  ret (mk ((fun player => Player.set_prior_score (Player.score player) player)
             <$> players self)
          (turn self) (is_game_over self)).

Definition process_turn_outcome (self : t) : result t :=
  let players' :=
    (fun player => Player.set_series (Player.series player ++ [Player.score player]) player)
      <$> players self in
  if turn self =? 10 then handle_game_over (mk players' (turn self) (is_game_over self))
  else if negb (is_game_over self) then Ok (mk players' (turn self + 1) (is_game_over self))
  else Ok (mk players' (turn self) (is_game_over self)).

(** [Arena.do_turn]; the value returned to the caller is [is_game_over]
    of the resulting arena. *)
Definition do_turn (self : t) : M t :=
  let* self := prepare_for_turn self in
  let ref := Referee.init (players self) (turn self) in
  let* ref := Referee.do_turn ref in
  lift (process_turn_outcome (mk (Referee.players ref) (turn self) (is_game_over self))).

(** [n] turns in a row. *)
Fixpoint play (n : nat) (self : t) : M t :=
  match n with
  | O => ret self
  | S n' => let* self := do_turn self in play n' self
  end.

End Game.

(** [Arena.table]: the columns of the score chart, one per player name.
    A column is the player's series, padded with NaN for the turns still
    to come and cut to eleven entries; the data frame is then built on an
    index of eleven rows. *)
Definition table (self : t) : list (pystr * list float) :=
  let padding := replicate (Z.to_nat (11 - turn self)) PyFloat.nan in
  foldl (fun d player =>
           let series := Player.series player ++ padding in
           dict_set (Player.name player) (take 11 series) d)
    [] (players self).

End Arena.

(* ===================================================================== *)
(** * Vocabulary of the statements about a game *)
(* ===================================================================== *)

(** A player as [Player.__init__] leaves it. *)
Definition fresh (p : Player.t) : Prop :=
  p = Player.init (Player.name p) (Player.llm p).

(** A player before and after one [Arena.do_turn]: name, model and
    [is_dead] are as before, the prior score is the score the player had,
    the score the player has now is appended to the series, and a winner
    stays one. *)
Definition after_turn (p p' : Player.t) : Prop :=
  Player.name p' = Player.name p /\
  Player.llm p' = Player.llm p /\
  Player.is_dead p' = Player.is_dead p /\
  Player.prior_score p' = Player.score p /\
  Player.series p' = Player.series p ++ [Player.score p'] /\
  (Player.is_winner p = true -> Player.is_winner p' = true).

(** A game of [n] turns on a line-up. *)
Definition game `{Externals} (line_up : list Player.t) (n : nat) : M Arena.t :=
  let* arena := Arena.init line_up in Arena.play n arena.

(* ===================================================================== *)
(** * A reference instance of the external collaborators *)
(* ===================================================================== *)

(** Executable stand-ins used to run the core on concrete replies. The
    decoders follow the grammar of JSON and of Python literals on a
    fragment: objects, arrays, sets, strings without escapes, decimal
    numbers without exponent, the constants. On that fragment they answer
    as the library does; a text outside of it is reported as a decoding
    error. The general statements below never depend on this instance. *)
Module Fragment.

Definition is_digit (c : N) : bool := ((48 <=? c) && (c <=? 57))%N.

Fixpoint skip (blank : N -> bool) (s : pystr) : pystr :=
  match s with
  | c :: s' => if blank c then skip blank s' else s
  | [] => []
  end.

Fixpoint span (keep : N -> bool) (s : pystr) : pystr * pystr :=
  match s with
  | c :: s' =>
      if keep c then let '(a, b) := span keep s' in (c :: a, b) else ([], s)
  | [] => ([], [])
  end.

(** The characters of a string up to the closing quote [q]. *)
Fixpoint string_body (q : N) (s : pystr) : option (pystr * pystr) :=
  match s with
  | [] => None
  | c :: s' =>
      if (c =? q)%N then Some ([], s')
      else if ((c =? 92) || (c <? 32))%N then None
      else '(body, rest) ← string_body q s'; Some (c :: body, rest)
  end.

Definition digits_value (ds : pystr) : Z :=
  foldl (fun acc d => 10 * acc + (Z.of_N d - 48)) 0 ds.

(** The double nearest to [n / 10^k]. *)
Definition decimal (negative : bool) (n : Z) (k : nat) : float :=
  match n with
  | Zpos m =>
      PyFloat.div (S754_finite negative m 0)
                  (S754_finite false (Z.to_pos (10 ^ Z.of_nat k)) 0)
  | _ => S754_zero negative
  end.

(** [-?digits(.digits)?] read as a Python number. *)
Definition number (s : pystr) : option (pyobj * pystr) :=
  let '(negative, s1) :=
    match s with 45%N :: s' => (true, s') | _ => (false, s) end in
  let '(int_part, s2) := span is_digit s1 in
  match int_part with
  | [] => None
  | 48%N :: _ :: _ => None
  | _ =>
      match s2 with
      | 46%N :: s3 =>
          let '(frac, s4) := span is_digit s3 in
          match frac with
          | [] => None
          | _ => Some (PyFloatV (decimal negative (digits_value (int_part ++ frac))
                                   (length frac)), s4)
          end
      | _ =>
          let n := digits_value int_part in
          Some (PyInt (if negative then - n else n), s2)
      end
  end.

Fixpoint strip_prefix (p s : pystr) : option pystr :=
  match p, s with
  | [], _ => Some s
  | a :: p', b :: s' => if (a =? b)%N then strip_prefix p' s' else None
  | _, [] => None
  end.

(** The first constant of [table] the text starts with. *)
Fixpoint constant (table : list (string * pyobj)) (s : pystr) : option (pyobj * pystr) :=
  match table with
  | [] => None
  | (word, v) :: table' =>
      match strip_prefix (str word) s with
      | Some rest => Some (v, rest)
      | None => constant table' s
      end
  end.

Definition key_eqb (a b : pyobj) : bool :=
  match a, b with
  | PyStrV x, PyStrV y => PyStr.eqb x y
  | PyInt x, PyInt y => x =? y
  | _, _ => false
  end.

(** [d[k] = v] while a display is read. *)
Fixpoint item_set (k v : pyobj) (items : list (pyobj * pyobj)) : list (pyobj * pyobj) :=
  match items with
  | [] => [(k, v)]
  | (k', v') :: rest =>
      if key_eqb k' k then (k', v) :: rest else (k', v') :: item_set k v rest
  end.

(** ** JSON *)

Definition json_blank (c : N) : bool :=
  ((c =? 32) || (c =? 9) || (c =? 10) || (c =? 13))%N.

Definition json_constants : list (string * pyobj) :=
  [("true", PyBool true); ("false", PyBool false); ("null", PyNone);
   ("NaN", PyFloatV S754_nan); ("Infinity", PyFloatV (S754_infinity false));
   ("-Infinity", PyFloatV (S754_infinity true))].

Inductive json_mode : Type :=
| JValue
| JMembers (acc : list (pyobj * pyobj))
| JElements (acc : list pyobj).

Fixpoint json_value (fuel : nat) (m : json_mode) (s : pystr) : option (pyobj * pystr) :=
  match fuel with
  | O => None
  | S fuel =>
      match m with
      | JValue =>
          match skip json_blank s with
          | 123%N :: s1 =>
              match skip json_blank s1 with
              | 125%N :: s2 => Some (PyDict [], s2)
              | s2 => json_value fuel (JMembers []) s2
              end
          | 91%N :: s1 =>
              match skip json_blank s1 with
              | 93%N :: s2 => Some (PyList [], s2)
              | s2 => json_value fuel (JElements []) s2
              end
          | 34%N :: s1 => '(body, rest) ← string_body 34 s1; Some (PyStrV body, rest)
          | s1 =>
              match constant json_constants s1 with
              | Some r => Some r
              | None => number s1
              end
          end
      | JMembers acc =>
          match skip json_blank s with
          | 34%N :: s1 =>
              '(k, s2) ← string_body 34 s1;
              match skip json_blank s2 with
              | 58%N :: s3 =>
                  '(v, s4) ← json_value fuel JValue s3;
                  let acc := item_set (PyStrV k) v acc in
                  match skip json_blank s4 with
                  | 44%N :: s5 => json_value fuel (JMembers acc) s5
                  | 125%N :: s5 => Some (PyDict acc, s5)
                  | _ => None
                  end
              | _ => None
              end
          | _ => None
          end
      | JElements acc =>
          '(v, s1) ← json_value fuel JValue s;
          match skip json_blank s1 with
          | 44%N :: s2 => json_value fuel (JElements (acc ++ [v])) s2
          | 93%N :: s2 => Some (PyList (acc ++ [v]), s2)
          | _ => None
          end
      end
  end.

Definition json_loads (s : pystr) : result pyobj :=
  match json_value (2 * length s + 2) JValue s with
  | Some (v, rest) =>
      match skip json_blank rest with
      | [] => Ok v
      | _ => Raise DecodeError
      end
  | None => Raise DecodeError
  end.

(** ** Python literals *)

Definition py_blank (c : N) : bool :=
  ((c =? 32) || (c =? 9) || (c =? 10) || (c =? 13) || (c =? 12))%N.

Definition py_constants : list (string * pyobj) :=
  [("True", PyBool true); ("False", PyBool false); ("None", PyNone)].

Definition hashable (x : pyobj) : bool :=
  match x with PyList _ | PySet _ | PyDict _ => false | _ => true end.

Definition member_add (v : pyobj) (acc : list pyobj) : list pyobj :=
  if existsb (key_eqb v) acc then acc else acc ++ [v].

(** Where the reader stands: before a value; after the opening brace of a
    display that is not empty; before the next key of a dict, element of
    a set or element of a list. *)
Inductive py_mode : Type :=
| PValue
| PBrace
| PItems (acc : list (pyobj * pyobj))
| PMembers (acc : list pyobj)
| PElements (acc : list pyobj).

Fixpoint py_value (fuel : nat) (m : py_mode) (s : pystr) : option (pyobj * pystr) :=
  match fuel with
  | O => None
  | S fuel =>
      match m with
      | PValue =>
          match skip py_blank s with
          | 123%N :: s1 =>
              match skip py_blank s1 with
              | 125%N :: s2 => Some (PyDict [], s2)
              | s2 => py_value fuel PBrace s2
              end
          | 91%N :: s1 => py_value fuel (PElements []) s1
          | 39%N :: s1 => '(body, rest) ← string_body 39 s1; Some (PyStrV body, rest)
          | 34%N :: s1 => '(body, rest) ← string_body 34 s1; Some (PyStrV body, rest)
          | s1 =>
              match constant py_constants s1 with
              | Some r => Some r
              | None => number s1
              end
          end
      | PBrace =>
          '(first, s1) ← py_value fuel PValue s;
          if hashable first then
            match skip py_blank s1 with
            | 58%N :: s2 =>
                '(v, s3) ← py_value fuel PValue s2;
                match skip py_blank s3 with
                | 44%N :: s4 => py_value fuel (PItems [(first, v)]) s4
                | 125%N :: s4 => Some (PyDict [(first, v)], s4)
                | _ => None
                end
            | 44%N :: s2 => py_value fuel (PMembers [first]) s2
            | 125%N :: s2 => Some (PySet [first], s2)
            | _ => None
            end
          else None
      | PItems acc =>
          match skip py_blank s with
          | 125%N :: s1 => Some (PyDict acc, s1)
          | s1 =>
              '(k, s2) ← py_value fuel PValue s1;
              if hashable k then
                match skip py_blank s2 with
                | 58%N :: s3 =>
                    '(v, s4) ← py_value fuel PValue s3;
                    let acc := item_set k v acc in
                    match skip py_blank s4 with
                    | 44%N :: s5 => py_value fuel (PItems acc) s5
                    | 125%N :: s5 => Some (PyDict acc, s5)
                    | _ => None
                    end
                | _ => None
                end
              else None
          end
      | PMembers acc =>
          match skip py_blank s with
          | 125%N :: s1 => Some (PySet acc, s1)
          | s1 =>
              '(v, s2) ← py_value fuel PValue s1;
              if hashable v then
                match skip py_blank s2 with
                | 44%N :: s3 => py_value fuel (PMembers (member_add v acc)) s3
                | 125%N :: s3 => Some (PySet (member_add v acc), s3)
                | _ => None
                end
              else None
          end
      | PElements acc =>
          match skip py_blank s with
          | 93%N :: s1 => Some (PyList acc, s1)
          | s1 =>
              '(v, s2) ← py_value fuel PValue s1;
              match skip py_blank s2 with
              | 44%N :: s3 => py_value fuel (PElements (acc ++ [v])) s3
              | 93%N :: s3 => Some (PyList (acc ++ [v]), s3)
              | _ => None
              end
          end
      end
  end.

Definition literal_eval (s : pystr) : result pyobj :=
  match py_value (2 * length s + 2) PValue s with
  | Some (v, rest) =>
      match skip py_blank rest with
      | [] => Ok v
      | _ => Raise DecodeError
      end
  | None => Raise DecodeError
  end.

(** ** Field validation, lenient as the model library is by default *)

Definition validate_str (x : pyobj) : option pystr :=
  match x with PyStrV s => Some s | _ => None end.

Definition validate_float (x : pyobj) : option float :=
  match x with
  | PyFloatV v => Some v
  | PyInt n => Some (PyFloat.of_Z n)
  | PyBool b => Some (PyFloat.of_Z (if b then 1 else 0))
  | PyStrV s =>
      match number s with
      | Some (PyInt n, []) => Some (PyFloat.of_Z n)
      | Some (PyFloatV v, []) => Some v
      | _ => None
      end
  | _ => None
  end.

Definition validate_mapping (x : pyobj) : option (list (pyobj * pyobj)) :=
  match x with
  | PyDict items => if forallb (fun kv => Move.is_str (fst kv)) items then Some items else None
  | _ => None
  end.

(** ** Prompts, starter and scripted models *)

Definition instructions (p : Player.t) : pystr :=
  str "You are competing in a repeated Keynes Beauty Contest. Your name is "
  ++ Player.name p.

Definition prompt (p : Player.t) (turn : Z) : pystr :=
  str "Make your guess, " ++ Player.name p.

(** The default policy: the player called Vanilla, else the first one. *)
Fixpoint index_of (name : pystr) (ps : list Player.t) : option nat :=
  match ps with
  | [] => None
  | p :: ps' =>
      if PyStr.eqb (Player.name p) name then Some 0%nat else S <$> index_of name ps'
  end.
Definition starter (log : list event) (ps : list Player.t) : nat :=
  default 0%nat (index_of (str "Vanilla") ps).

Definition sent_so_far (log : list event) : nat :=
  length (List.filter (fun ev => match ev with Sent _ => true | _ => false end) log).

(** Models that answer the [k]-th call with the [k]-th entry of a script,
    and fail once the script is used up. *)
Definition scripted (script : list (result pystr)) (log : list event) (c : Call.t)
    : result pystr :=
  default (Raise (RemoteError 0)) (script !! sent_so_far log).

Definition externals (script : list (result pystr)) : Externals :=
  Build_Externals json_loads literal_eval validate_str validate_float
    validate_mapping instructions prompt starter (scripted script).

End Fragment.


(* ===================================================================== *)
(** * interfaces/llms.py: choosing the class for a model name *)
(* ===================================================================== *)

(** [d.get(k)] on a dictionary in insertion order. *)
Fixpoint dict_find {A} (k : pystr) (d : list (pystr * A)) : option A :=
  match d with
  | [] => None
  | (k', v) :: d' => if PyStr.eqb k' k then Some v else dict_find k d'
  end.

Module Llms.

(** The subclasses of [LLM], in the order the module defines them. *)
Inductive cls : Type := GPT | StrategicGPT | Claude | Grok | Gemini | GroqAPI.

Definition subclasses : list cls := [GPT; StrategicGPT; Claude; Grok; Gemini; GroqAPI].

Definition model_names (llm : cls) : list pystr :=
  match llm with
  | GPT => [str "gpt-5"; str "gpt-5-nano"; str "gpt-5-mini"]
  | StrategicGPT => [str "gpt-5-strategic"]
  | Claude => [str "claude-sonnet-4-5"; str "claude-haiku-4-5"]
  | Grok => [str "grok-4"; str "grok-4-fast"]
  | Gemini => [str "gemini-2.5-flash"; str "gemini-2.5-pro"]
  | GroqAPI => [str "openai/gpt-oss-120b"]
  end.

(** An instance of one of the classes, as [LLM.__init__] fills it; the
    client handle is left out. *)
Record t : Type := mk {
  kind : cls;
  model_name : pystr;
  temperature : float
}.

(** [s.startswith(prefix)] *)
Fixpoint startswith (s prefix : pystr) : bool :=
  match prefix, s with
  | [], _ => true
  | p :: prefix', c :: s' => N.eqb c p && startswith s' prefix'
  | _ :: _, [] => false
  end.

(** [LLM.model_map]: every model name of every subclass, a later class
    taking over a name an earlier one has. *)
Definition model_map : list (pystr * cls) :=
  foldl (fun mapping llm =>
           foldl (fun mapping model_name => dict_set model_name llm mapping)
             mapping (model_names llm))
    [] subclasses.

(** [LLM.all_model_names] *)
Definition all_model_names : list pystr := fst <$> model_map.

(** One of the two loops of [for_model_name]: among the registered names
    that pass [test], in the order of the mapping, keep the class of the
    one that is strictly longer than everything before it. *)
Definition scan (test : pystr -> bool) (mapping : list (pystr * cls))
    (best : option cls * Z) : option cls * Z :=
  foldl (fun '(best_match, best_len) '(registered_name, registered_class) =>
           if test registered_name then
             if Z.of_nat (length registered_name) >? best_len
             then (Some registered_class, Z.of_nat (length registered_name))
             else (best_match, best_len)
           else (best_match, best_len))
    best mapping.

Section Instantiate.

(** Setting up the client of a class is the business of the vendor's
    library; it may raise. *)
Variable setup_client : cls -> result unit.

(** [llm(model_name, temperature)] *)
Definition instantiate (llm : cls) (model_name : pystr) (temperature : float)
    : result t :=
  rbind (setup_client llm) (fun _ => Ok (mk llm model_name temperature)).

(** The body of [for_model_name] on a given mapping: the class registered
    under the very name; else the class of the longest registered name
    the requested name starts with; else the class of the longest
    registered name that starts with the requested name; else a
    [ValueError], whose message goes on with the name. *)
Definition for_model_name_in (mapping : list (pystr * cls))
    (model_name : pystr) (temperature : float) : result t :=
  match dict_find model_name mapping with
  | Some llm => instantiate llm model_name temperature
  | None =>
      let '(best_match, best_len) :=
        scan (fun registered_name => startswith model_name registered_name)
          mapping (None, -1) in
      match best_match with
      | Some llm => instantiate llm model_name temperature
      | None =>
          let '(best_match, best_len) :=
            scan (fun registered_name => startswith registered_name model_name)
              mapping (best_match, best_len) in
          match best_match with
          | Some llm => instantiate llm model_name temperature
          | None => Raise (ValueError "Unknown model name")
          end
      end
  end.

(** [LLM.for_model_name] *)
Definition for_model_name (model_name : pystr) (temperature : float) : result t :=
  for_model_name_in model_map model_name temperature.

(** The choice of the model in [Player.__init__]: the requested model,
    and [gpt-5-mini] when that one cannot be had. *)
Definition for_player (model_name : pystr) (temp_used : float) : result t :=
  rtry (for_model_name model_name temp_used)
    (fun e => for_model_name (str "gpt-5-mini") temp_used).

End Instantiate.

End Llms.

(** A registered name, its class and its position in a mapping. *)
Definition registered_at (mapping : list (pystr * Llms.cls)) (i : nat)
    (name : pystr) (llm : Llms.cls) : Prop :=
  mapping !! i = Some (name, llm).

(** Among the registered names that pass [test], the one at [i] is the
    longest, and the first of that length. *)
Definition longest_at (test : pystr -> bool) (mapping : list (pystr * Llms.cls))
    (i : nat) (name : pystr) (llm : Llms.cls) : Prop :=
  registered_at mapping i name llm /\ test name = true /\
  forall j name' llm', registered_at mapping j name' llm' -> test name' = true ->
    (length name' <= length name)%nat /\
    (length name' = length name -> (i <= j)%nat).

(* ===================================================================== *)
(** * models/games.py: the line of a game in the CSV fallback *)
(* ===================================================================== *)

(** [xs[:n]] and [xs[n:]] for an integer [n] of either sign. *)
Definition upto {A} (n : Z) (xs : list A) : list A :=
  if n <? 0 then take (Z.to_nat (Z.of_nat (length xs) + n)) xs else take (Z.to_nat n) xs.
Definition from {A} (n : Z) (xs : list A) : list A :=
  if n <? 0 then drop (Z.to_nat (Z.of_nat (length xs) + n)) xs else drop (Z.to_nat n) xs.

Module Games.

Definition quote : N := 34.
Definition comma : N := 44.
Definition newline : N := 10.

(** [s.replace(q, q + q)], [q] being the double quote: every quote is
    doubled. *)
Fixpoint escape (s : pystr) : pystr :=
  match s with
  | [] => []
  | c :: s' => if N.eqb c quote then quote :: quote :: escape s' else c :: escape s'
  end.

(** [s.replace(q + q, q)]: from left to right, two quotes that follow
    each other become one. *)
Fixpoint unescape (s : pystr) : pystr :=
  match s with
  | [] => []
  | c :: s' =>
      match s' with
      | c' :: s'' =>
          if N.eqb c quote && N.eqb c' quote then quote :: unescape s''
          else c :: unescape s'
      | [] => [c]
      end
  end.

(** [s.strip()] *)
Fixpoint lstrip (s : pystr) : pystr :=
  match s with
  | c :: s' => if Referee.is_space c then lstrip s' else s
  | [] => []
  end.
Definition rstrip (s : pystr) : pystr := reverse (lstrip (reverse s)).
Definition strip (s : pystr) : pystr := rstrip (lstrip s).

(** [s.split(sep, 1)] for a separator of one character. *)
Fixpoint split_once (sep : N) (s : pystr) : list pystr :=
  match s with
  | [] => [[]]
  | c :: s' =>
      if N.eqb c sep then [[]; s']
      else
        match split_once sep s' with
        | first :: rest => (c :: first) :: rest
        | [] => [[c]]
        end
  end.

(** [s[1:-1]] *)
Definition inner (s : pystr) : pystr := take (length s - 2) (drop 1 s).

(** The line [Game.save] appends to the file for a game: the date, a
    comma, and the results, a JSON text, between quotes with its own
    quotes doubled. *)
Definition csv_line (run_date results : pystr) : pystr :=
  let results_escaped := escape results in
  run_date ++ [comma] ++ [quote] ++ results_escaped ++ [quote] ++ [newline].

(** What the loop of [Game.latest] makes of a line of the file before it
    decodes the results: nothing for a blank line or a line without a
    comma, else the date and the text of the results. *)
Definition parse_line (line : pystr) : option (pystr * pystr) :=
  match strip line with
  | [] => None
  | stripped =>
      match split_once comma stripped with
      | [run_date_str; results_json] =>
          let results_json :=
            if bool_decide (head results_json = Some quote) &&
               bool_decide (last results_json = Some quote)
            then unescape (inner results_json)
            else results_json in
          Some (run_date_str, results_json)
      | _ => None
      end
  end.

(** ** The file *)

Definition carriage : N := 13.

(** A text file read in text mode: a carriage return, alone or in front
    of a newline, reads as a newline. *)
Fixpoint universal (s : pystr) : pystr :=
  match s with
  | [] => []
  | c :: s' =>
      if N.eqb c carriage then
        newline ::
          match s' with
          | c' :: s'' => if N.eqb c' newline then universal s'' else universal s'
          | [] => []
          end
      else c :: universal s'
  end.

(** The lines the text hands out when iterated: each one with the
    newline that ends it; the last one may have none. *)
Fixpoint lines_from (current : pystr) (s : pystr) : list pystr :=
  match s with
  | [] => match current with [] => [] | _ => [current] end
  | c :: s' =>
      if N.eqb c newline then (current ++ [c]) :: lines_from [] s'
      else lines_from (current ++ [c]) s'
  end.
Definition readlines (content : pystr) : list pystr :=
  lines_from [] (universal content).

Definition header_line : pystr := str "run_date,results
".

(** [Game.save] without a database: the text of the file afterwards. A
    file that does not exist yet ([None]) is created and begins with the
    header. *)
Definition save (file : option pystr) (run_date results : pystr) : pystr :=
  let write_header := negb (bool_decide (is_Some file)) in
  default [] file ++ (if write_header then header_line else []) ++
    csv_line run_date results.

Section Reading.

(** Decoding the results and the date of a line into a game is the
    business of the JSON and model libraries; [None] stands for an
    exception, on which the line is passed over. *)
Context {G : Type} (decode : pystr -> pystr -> option G).

(** [Game.latest] without a database. *)
Definition latest (file : option pystr) (k : Z) : list G :=
  match file with
  | None => []
  | Some content =>
      let rows :=
        omap (fun '(i, line) =>
                if (i =? 0)%nat && Llms.startswith line (str "run_date") then None
                else
                  '(run_date_str, results_json) ← parse_line line;
                  decode run_date_str results_json)
          (imap pair (readlines content)) in
      let rows := reverse rows in
      upto k rows
  end.

End Reading.

(** [Game.count] without a database. *)
Definition count (file : option pystr) : Z :=
  match file with
  | None => 0
  | Some content =>
      let lines := List.filter (fun l => negb (bool_decide (strip l = [])))
                     (readlines content) in
      match lines with
      | first :: _ =>
          if Llms.startswith first (str "run_date")
          then Z.max 0 (Z.of_nat (length lines) - 1)
          else Z.of_nat (length lines)
      | [] => Z.of_nat (length lines)
      end
  end.

(** The file after a series of games has been saved, none being there
    before. *)
Definition saved (games : list (pystr * pystr)) : option pystr :=
  foldl (fun file '(run_date, results) => Some (save file run_date results))
    None games.

End Games.

(* ===================================================================== *)
(** * models/storage.py: the rows of the move log *)
(* ===================================================================== *)

Module MoveLogger.

(** [sep.join(fields)], the separator being a comma. *)
Fixpoint join (fields : list pystr) : pystr :=
  match fields with
  | [] => []
  | [f] => f
  | f :: rest => f ++ [Games.comma] ++ join rest
  end.

(** What the loop of [load_df] does to a row [r] read under a header: a
    row that is too long has its surplus fields merged into the last
    column, a row that is too short is padded with empty fields. *)
Definition fit (header r : list pystr) : list pystr :=
  let n := Z.of_nat (length header) in
  let r := if (Z.of_nat (length r) >? n)
           then upto (n - 1) r ++ [join (from (n - 1) r)] else r in
  let r := if (Z.of_nat (length r) <? n)
           then r ++ replicate (Z.to_nat (n - Z.of_nat (length r))) [] else r in
  r.

(** [dict(zip(header, r))] *)
Definition zip_dict (header r : list pystr) : list (pystr * pystr) :=
  foldl (fun d '(k, v) => dict_set k v d) [] (zip header r).

(** The list [rows] that [load_df] builds from the rows of the reader. *)
Definition rows (header : list pystr) (reader : list (list pystr))
    : list (list (pystr * pystr)) :=
  (fun r => zip_dict header (fit header r)) <$> reader.

End MoveLogger.

(** A game the CSV fallback can take: a date without comma that does not
    begin with a blank, and no line break in the date or in the results. *)
Definition writable (game : pystr * pystr) : Prop :=
  let '(run_date, results) := game in
  (Games.comma ∉ run_date) /\
  (forall c, head run_date = Some c -> Referee.is_space c = false) /\
  (Games.newline ∉ run_date) /\ (Games.carriage ∉ run_date) /\
  (Games.newline ∉ results) /\ (Games.carriage ∉ results).

(** A line as the file hands it out: a text without line break, and the
    newline that ends it. *)
Definition is_line (line : list N) : Prop :=
  exists body, line = body ++ [Games.newline] /\ (Games.newline ∉ body).

(** What the loop of [Game.latest] does to a line that is not the first
    one of the file. *)
Definition saved_row {G : Type} (decode : pystr -> pystr -> option G)
    (line : pystr) : option G :=
  '(run_date_str, results_json) ← Games.parse_line line;
  decode run_date_str results_json.

(* ===================================================================== *)
(** * Concrete turns *)
(* ===================================================================== *)

Module Examples.

Definition f (n : Z) : float := PyFloat.of_Z n.

Definition mini : LLM.t := LLM.mk (str "gpt-5-mini") (PyFloat.div (f 7) (f 10)).

(** The default line-up of [Arena.default]. *)
Definition vanilla : Player.t := Player.init (str "Vanilla") mini.
Definition strategic : Player.t := Player.init (str "Strategic") mini.
Definition agressor : Player.t := Player.init (str "Agressor") mini.
Definition trio : list Player.t := [vanilla; strategic; agressor].

(** A record as [do_turn_for_player] leaves it after a parsed move with
    guess [g], and one for a move that could not be read. *)
Definition guessed (name : string) (g : float) : pystr * TurnRecord.t :=
  (str name,
   TurnRecord.set_guess (Some g) (Some g)
     (TurnRecord.init (str name) 1
        (Some (Move.mk (str "x") g [] [])) false (RawText (str "{...}")))).
Definition unreadable (name : string) : pystr * TurnRecord.t :=
  (str name, TurnRecord.init (str name) 1 None true (RawText (str "no idea"))).

Definition with_records (recs : list (pystr * TurnRecord.t)) : Referee.t :=
  let r := Referee.init trio 1 in
  Referee.mk (Referee.players r) (Referee.turn r) recs (Referee.player_map r).

Definition turn_20_40_60 : Referee.t :=
  with_records [guessed "Vanilla" (f 20); guessed "Strategic" (f 40);
                guessed "Agressor" (f 60)].

Definition turn_30_50_40 : Referee.t :=
  with_records [guessed "Vanilla" (f 30); guessed "Strategic" (f 50);
                guessed "Agressor" (f 40)].

Definition turn_one_unreadable : Referee.t :=
  with_records [guessed "Vanilla" (f 50); unreadable "Strategic";
                guessed "Agressor" (f 50)].

Definition turn_all_unreadable : Referee.t :=
  with_records [unreadable "Vanilla"; unreadable "Strategic"; unreadable "Agressor"].

(** Replies of a model. A backquote in the source text stands for a
    double quote, [<] and [>] for the curly double quotes. *)
Definition dq (s : string) : pystr := PyStr.replace 96 34 (str s).
Definition curly (s : string) : pystr :=
  PyStr.replace 62 8221 (PyStr.replace 60 8220 (str s)).

Definition chatter : pystr := str "I would rather not say.".
Definition json_reply : pystr := dq "{`secret strategy`: `x`, `guess`: 50}".
Definition single_quoted : pystr := str "{'secret strategy': 'x', 'guess': 50}".
Definition smart_quoted : pystr := curly "{<secret strategy>: <x>, <guess>: 50,}".
Definition nan_reply : pystr := dq "{`secret strategy`: `x`, `guess`: NaN}".

Definition json_reply_90 : pystr := dq "{`secret strategy`: `y`, `guess`: 90}".

(** Ten turns in which Vanilla and Strategic guess 50 and Agressor 90. *)
Definition ten_turns : list (result pystr) :=
  mjoin (replicate 10 [Ok json_reply; Ok json_reply; Ok json_reply_90]).

Definition move_x_50 : Move.t := Move.mk (str "x") (f 50) [] [].

(** The referee of turn 1 for the default line-up. *)
Definition referee : Referee.t := Referee.init trio 1.

End Examples.

(** Further inputs. *)
Module Cases.

(** A reply with prose around the object. *)
Definition preamble : pystr := str "Here is my move: ".
Definition postscript : pystr := str " Good luck to all.".

(** A turn in which one of the moves carries a NaN as its guess. *)
Definition turn_with_nan : Referee.t :=
  Examples.with_records
    [Examples.guessed "Vanilla" (Examples.f 50);
     Examples.guessed "Strategic" PyFloat.nan;
     Examples.guessed "Agressor" (Examples.f 50)].

(** A line-up in which two players go by the same name. *)
Definition namesakes : list Player.t :=
  [Examples.vanilla; Examples.strategic; Examples.vanilla].

(** Clients that can always be set up, and clients that only [GPT] has. *)
Definition any_client (llm : Llms.cls) : result unit := Ok tt.
Definition gpt_client_only (llm : Llms.cls) : result unit :=
  match llm with Llms.GPT => Ok tt | _ => Raise (RemoteError 401) end.

Definition alias_k2 : pystr := str "gpt-5-strategic-k2".

(** A game as [Game.save] writes it: the date and the results as JSON. *)
Definition run_date : pystr := str "2025-01-31T12:00:00".
Definition later_date : pystr := str "2025-02-01T09:30:00".
Definition results_json : pystr :=
  Examples.dq "[{`name`: `Vanilla`, `llm`: `gpt-5-mini`, `score`: 940.5, `rank`: 0}]".

(** A header of three columns, a row that is too long and one that is
    too short. *)
Definition header3 : list pystr := [str "turn"; str "player"; str "raw_response"].
Definition long_row : list pystr := [str "1"; str "Vanilla"; str "I guess"; str " 50"].
Definition short_row : list pystr := [str "1"].

End Cases.

(* ===================================================================== *)
(** * Comparison of binary64 values *)
(* ===================================================================== *)

Section FloatOrder.

Lemma SFcompare_antisym (x y : float) :
  SFcompare y x = CompOpp <$> SFcompare x y.
Proof.
  destruct x as [[]|[]| |[] mx ex], y as [[]|[]| |[] my ey]; simpl; try reflexivity.
  - rewrite (Z.compare_antisym ex ey).
    destruct (ex ?= ey); simpl; try reflexivity.
    rewrite (Pos.compare_cont_antisym mx my Eq). simpl.
    by rewrite ?CompOpp_involutive.
  - rewrite (Z.compare_antisym ex ey).
    destruct (ex ?= ey); simpl; try reflexivity.
    by rewrite (Pos.compare_cont_antisym mx my Eq).
Qed.

Lemma SFcompare_refl (x : float) :
  PyFloat.is_nan x = false -> SFcompare x x = Some Eq.
Proof.
  destruct x as [[]|[]| |[] m e]; simpl; try done; intros _.
  - rewrite Z.compare_refl. f_equal.
    change (Pos.compare_cont Eq m m) with (m ?= m)%positive.
    by rewrite Pos.compare_refl.
  - rewrite Z.compare_refl. f_equal.
    change (Pos.compare_cont Eq m m) with (m ?= m)%positive.
    by rewrite Pos.compare_refl.
Qed.

Lemma gtb_ltb (x y : float) : PyFloat.gtb x y = PyFloat.ltb y x.
Proof.
  unfold PyFloat.gtb, PyFloat.ltb, SFltb. rewrite (SFcompare_antisym x y).
  destruct (SFcompare x y) as [[]|]; reflexivity.
Qed.

Lemma leb_not_gtb (x y : float) :
  PyFloat.leb x y = true -> PyFloat.gtb x y = false.
Proof.
  unfold PyFloat.leb, SFleb, PyFloat.gtb.
  destruct (SFcompare x y) as [[]|]; done.
Qed.

Lemma leb_not_ltb (x y : float) :
  PyFloat.leb x y = true -> PyFloat.ltb y x = false.
Proof. intros H. rewrite <- gtb_ltb. by apply leb_not_gtb. Qed.

Lemma leb_cases (x y : float) :
  PyFloat.leb x y = true -> PyFloat.ltb x y = true \/ PyFloat.eqb x y = true.
Proof.
  unfold PyFloat.leb, SFleb, PyFloat.ltb, SFltb, PyFloat.eqb, SFeqb.
  destruct (SFcompare x y) as [[]|]; auto.
Qed.

Lemma eqb_sym (x y : float) : PyFloat.eqb x y = PyFloat.eqb y x.
Proof.
  unfold PyFloat.eqb, SFeqb. rewrite (SFcompare_antisym x y).
  destruct (SFcompare x y) as [[]|]; reflexivity.
Qed.

Lemma eqb_refl (x : float) : PyFloat.is_nan x = false -> PyFloat.eqb x x = true.
Proof. intros H. unfold PyFloat.eqb, SFeqb. by rewrite SFcompare_refl. Qed.

Lemma leb_not_nan_l (x y : float) : PyFloat.leb x y = true -> PyFloat.is_nan x = false.
Proof. by destruct x as [[]|[]| |[] ? ?], y as [[]|[]| |[] ? ?]. Qed.

Lemma leb_not_nan_r (x y : float) : PyFloat.leb x y = true -> PyFloat.is_nan y = false.
Proof. by destruct x as [[]|[]| |[] ? ?], y as [[]|[]| |[] ? ?]. Qed.

(** Ordering is carried along the comparisons [max] makes. NaN on any
    side makes a premise false or the conclusion immediate. *)
Lemma gtb_chain_below (x a y : float) :
  PyFloat.gtb a x = true -> PyFloat.gtb a y = false -> PyFloat.gtb x y = false.
Proof.
  unfold PyFloat.gtb.
  destruct x as [[]|[]| |[] mx ex], a as [[]|[]| |[] ma ea], y as [[]|[]| |[] my ey];
    simpl; try done;
    destruct (Z.compare_spec ea ex), (Z.compare_spec ea ey), (Z.compare_spec ex ey);
    simpl; try done; try lia; subst;
    fold (Pos.compare ma mx); fold (Pos.compare ma my); fold (Pos.compare mx my);
    destruct (Pos.compare_spec ma mx), (Pos.compare_spec ma my), (Pos.compare_spec mx my);
    simpl; try done; try lia.
Qed.

Lemma gtb_chain_through (x a y : float) :
  PyFloat.is_nan a = false ->
  PyFloat.gtb x a = false -> PyFloat.gtb a y = false -> PyFloat.gtb x y = false.
Proof.
  unfold PyFloat.gtb.
  destruct x as [[]|[]| |[] mx ex], a as [[]|[]| |[] ma ea], y as [[]|[]| |[] my ey];
    simpl; try done; intros _;
    destruct (Z.compare_spec ex ea), (Z.compare_spec ea ey), (Z.compare_spec ex ey);
    simpl; try done; try lia; subst;
    fold (Pos.compare mx ma); fold (Pos.compare ma my); fold (Pos.compare mx my);
    destruct (Pos.compare_spec mx ma), (Pos.compare_spec ma my), (Pos.compare_spec mx my);
    simpl; try done; try lia.
Qed.

Lemma gtb_nan_r (x y : float) : PyFloat.is_nan y = true -> PyFloat.gtb x y = false.
Proof. by destruct x as [[]|[]| |[] ? ?], y as [[]|[]| |[] ? ?]. Qed.

Lemma gtb_irrefl (x : float) : PyFloat.gtb x x = false.
Proof.
  unfold PyFloat.gtb. destruct (PyFloat.is_nan x) eqn:Hnan.
  - by destruct x.
  - by rewrite SFcompare_refl.
Qed.

(** The result of [max(0.0, x)] is never below zero, whatever [x] is. *)
Lemma max_zero_nonneg (x : float) :
  PyFloat.leb PyFloat.zero (PyFloat.max PyFloat.zero x) = true.
Proof.
  unfold PyFloat.max. rewrite gtb_ltb.
  destruct (PyFloat.ltb PyFloat.zero x) eqn:H; [|reflexivity].
  unfold PyFloat.ltb, SFltb in H. unfold PyFloat.leb, SFleb.
  destruct (SFcompare PyFloat.zero x) as [[]|]; done.
Qed.

(** Inside [[0, 100]] the defensive bounding of [handle_turn] returns a
    value equal to its argument. *)
Lemma bound_guess_in_range (g : float) :
  PyFloat.between PyFloat.zero PyFloat.hundred g = true ->
  PyFloat.eqb (Referee.bound_guess g) g = true.
Proof.
  unfold PyFloat.between. intros [H0 H100]%andb_true_iff.
  pose proof (leb_not_nan_l _ _ H100) as Hnan.
  unfold Referee.bound_guess, PyFloat.min.
  destruct (leb_cases _ _ H100) as [Hlt|Heq].
  - rewrite Hlt. unfold PyFloat.max. rewrite gtb_ltb.
    destruct (leb_cases _ _ H0) as [Hlt0|Heq0].
    + rewrite Hlt0. by apply eqb_refl.
    + destruct (PyFloat.ltb PyFloat.zero g); [by apply eqb_refl | done].
  - assert (PyFloat.ltb g PyFloat.hundred = false) as ->.
    { unfold PyFloat.ltb, SFltb. unfold PyFloat.eqb, SFeqb in Heq.
      destruct (SFcompare g PyFloat.hundred) as [[]|]; done. }
    rewrite eqb_sym in Heq. exact Heq.
Qed.

End FloatOrder.

(* ===================================================================== *)
(** * Rounding to binary64 and the order of floats *)
(* ===================================================================== *)

Section Rounding.

Local Open Scope Z_scope.

Local Abbreviation prec := PyFloat.prec.
Local Abbreviation emax := PyFloat.emax.
Local Abbreviation dg := Zdigits2.
Local Abbreviation fx := (fexp PyFloat.prec PyFloat.emax).

Lemma digits2_pos_size (p : positive) : digits2_pos p = Pos.size p.
Proof. induction p; simpl; congruence. Qed.

Lemma dg_log2 (p : positive) : dg (Zpos p) = Z.log2 (Zpos p) + 1.
Proof.
  unfold dg. simpl. rewrite digits2_pos_size.
  destruct p; simpl; lia.
Qed.

Lemma dg_bounds (m : Z) : 0 < m -> 2 ^ (dg m - 1) <= m < 2 ^ dg m.
Proof.
  intros Hm. destruct m as [|p|p]; try lia.
  rewrite dg_log2. replace (Z.log2 (Z.pos p) + 1 - 1) with (Z.log2 (Z.pos p)) by lia.
  replace (Z.log2 (Z.pos p) + 1) with (Z.succ (Z.log2 (Z.pos p))) by lia.
  apply Z.log2_spec. lia.
Qed.

Lemma dg_nonneg (m : Z) : 0 <= dg m.
Proof. destruct m; simpl; lia. Qed.

Lemma dg_pos (m : Z) : 0 < m -> 0 < dg m.
Proof. destruct m; simpl; lia. Qed.

Lemma dg_mono (a b : Z) : 0 <= a <= b -> dg a <= dg b.
Proof.
  intros [Ha Hab]. destruct a as [|p|p]; try lia.
  - apply dg_nonneg.
  - destruct b as [|q|q]; try lia.
    rewrite !dg_log2. pose proof (Z.log2_le_mono (Z.pos p) (Z.pos q)). lia.
Qed.

Lemma dg_shift (m k : Z) : 0 < m -> 0 <= k -> dg (m * 2 ^ k) = dg m + k.
Proof.
  intros Hm Hk.
  assert (0 < m * 2 ^ k) by (apply Z.mul_pos_pos; [lia|apply Z.pow_pos_nonneg; lia]).
  destruct m as [|p|p]; try lia.
  destruct (Z.pos p * 2 ^ k) as [|q|q] eqn:Hq; try lia.
  rewrite !dg_log2, <- Hq, Z.log2_mul_pow2 by lia. lia.
Qed.

Lemma dg_below (m d : Z) : 0 <= m < 2 ^ d -> 0 <= d -> dg m <= d.
Proof.
  intros [Hm Hlt] Hd. destruct m as [|p|p]; try lia.
  - simpl. lia.
  - rewrite dg_log2. apply Z.log2_lt_pow2 in Hlt; lia.
Qed.

Lemma fx_eq (e : Z) : fx e = Z.max (e - 53) (-1074).
Proof. reflexivity. Qed.



(** ** Shifting right *)

Lemma pow2_xI (k : positive) : 2 ^ Z.pos k~1 = 2 * (2 ^ Z.pos k * 2 ^ Z.pos k).
Proof.
  rewrite (Pos2Z.inj_xI k). rewrite Z.pow_add_r by lia.
  rewrite Z.pow_twice_r, Z.pow_1_r. ring.
Qed.

Lemma pow2_xO (k : positive) : 2 ^ Z.pos k~0 = 2 ^ Z.pos k * 2 ^ Z.pos k.
Proof. rewrite (Pos2Z.inj_xO k). apply Z.pow_twice_r. Qed.

Lemma shr_1_m (mrs : shr_record) :
  0 <= shr_m mrs -> shr_m (shr_1 mrs) = shr_m mrs / 2.
Proof.
  destruct mrs as [m r s]. cbn [shr_m shr_1]. intros Hm.
  destruct m as [|[p|p|]|p]; cbn [shr_m]; try lia.
  - reflexivity.
  - apply (Z.div_unique _ 2 _ 1); lia.
  - apply (Z.div_unique _ 2 _ 0); lia.
  - reflexivity.
Qed.

Lemma iter_shr_1_m (k : positive) :
  forall mrs, 0 <= shr_m mrs ->
    shr_m (SpecFloat.iter_pos shr_1 k mrs) = shr_m mrs / 2 ^ Z.pos k.
Proof.
  induction k as [k IH|k IH|]; intros mrs Hm; simpl SpecFloat.iter_pos.
  - assert (H1 : 0 <= shr_m (shr_1 mrs)).
    { rewrite shr_1_m by done. apply Z.div_pos; lia. }
    assert (H2 : 0 <= shr_m (SpecFloat.iter_pos shr_1 k (shr_1 mrs))).
    { rewrite IH by done. apply Z.div_pos; [done|]. apply Z.pow_pos_nonneg; lia. }
    rewrite IH, IH, shr_1_m by done.
    rewrite !Z.div_div by (try apply Z.pow_pos_nonneg; lia).
    f_equal. rewrite pow2_xI. ring.
  - assert (H2 : 0 <= shr_m (SpecFloat.iter_pos shr_1 k mrs)).
    { rewrite IH by done. apply Z.div_pos; [done|]. apply Z.pow_pos_nonneg; lia. }
    rewrite IH, IH by done.
    rewrite !Z.div_div by (try apply Z.pow_pos_nonneg; lia).
    f_equal. by rewrite pow2_xO.
  - by apply shr_1_m.
Qed.

Lemma shr_record_of_loc_m (m : Z) (l : location) : shr_m (shr_record_of_loc m l) = m.
Proof. by destruct l as [|[]]. Qed.

Lemma loc_of_shr_record_of_loc (m : Z) (l : location) :
  loc_of_shr_record (shr_record_of_loc m l) = l.
Proof. by destruct l as [|[]]. Qed.

(** [shr_fexp] divides the mantissa by a power of two and raises the
    exponent by as much, up to the exponent the format asks for. *)
Lemma shr_fexp_spec (m e : Z) (l : location) :
  0 <= m ->
  let k := Z.max 0 (fx (dg m + e) - e) in
  shr_m (fst (shr_fexp prec emax m e l)) = m / 2 ^ k /\
  snd (shr_fexp prec emax m e l) = e + k /\
  (k = 0 -> loc_of_shr_record (fst (shr_fexp prec emax m e l)) = l).
Proof.
  intros Hm k. unfold shr_fexp, shr. fold (fx (dg m + e)).
  destruct (fx (dg m + e) - e) as [|p|p] eqn:Hk; subst k; simpl fst; simpl snd.
  - rewrite shr_record_of_loc_m, loc_of_shr_record_of_loc. simpl.
    rewrite Z.div_1_r. split; [done|]. split; [lia|done].
  - rewrite iter_shr_1_m by (rewrite shr_record_of_loc_m; done).
    rewrite shr_record_of_loc_m.
    replace (Z.max 0 (Z.pos p)) with (Z.pos p) by lia.
    split; [done|]. split; [done|lia].
  - rewrite shr_record_of_loc_m, loc_of_shr_record_of_loc.
    replace (Z.max 0 (Z.neg p)) with 0 by lia. simpl.
    rewrite Z.div_1_r. split; [done|]. split; [lia|done].
Qed.

Lemma round_nearest_even_bounds (m : Z) (l : location) :
  m <= round_nearest_even m l <= m + 1.
Proof.
  destruct l as [|[]]; simpl; try lia. destruct (Z.even m); lia.
Qed.



(** ** Rounding a positive mantissa *)

Lemma shl_align_spec (m : positive) (e e' : Z) :
  let k := Z.max 0 (e - e') in
  Z.pos (fst (shl_align m e e')) = Z.pos m * 2 ^ k /\
  snd (shl_align m e e') = e - k.
Proof.
  intros k. unfold shl_align.
  destruct (e' - e) as [|d|d] eqn:Hd; simpl fst; simpl snd.
  - replace k with 0 by lia. rewrite Z.pow_0_r. lia.
  - replace k with 0 by lia. rewrite Z.pow_0_r. lia.
  - replace k with (Z.pos d) by lia.
    change (Pos.iter xO m d) with (shift_pos d m).
    rewrite shift_pos_correct, Z.pow_pos_fold. lia.
Qed.

(** The two passes of [binary_round_aux]: shift to the exponent of the
    format, round to an integer [m2], shift once more if the rounding has
    added a digit. *)
Lemma binary_round_aux_spec (sx : bool) (m0 e0 : Z) (l : location) :
  0 <= m0 ->
  let k1 := Z.max 0 (fx (dg m0 + e0) - e0) in
  let m1 := m0 / 2 ^ k1 in
  let e1 := e0 + k1 in
  exists m2,
    m1 <= m2 <= m1 + 1 /\
    (k1 = 0 -> l = loc_Exact -> m2 = m1) /\
    let k3 := Z.max 0 (fx (dg m2 + e1) - e1) in
    binary_round_aux prec emax sx m0 e0 l =
      match m2 / 2 ^ k3 with
      | Z0 => S754_zero sx
      | Zpos m =>
          if e1 + k3 <=? emax - prec then S754_finite sx m (e1 + k3)
          else S754_infinity sx
      | Zneg _ => S754_nan
      end.
Proof.
  intros Hm0 k1 m1 e1.
  destruct (shr_fexp_spec m0 e0 l Hm0) as (Hm1 & He1 & Hl1).
  fold k1 in Hm1, He1, Hl1.
  unfold binary_round_aux.
  destruct (shr_fexp prec emax m0 e0 l) as [mrs' e'].
  simpl in Hm1, He1, Hl1. subst e'. fold e1.
  set (m2 := round_nearest_even (shr_m mrs') (loc_of_shr_record mrs')).
  assert (Hm2 : m1 <= m2 <= m1 + 1).
  { subst m2 m1. rewrite <- Hm1. apply round_nearest_even_bounds. }
  assert (H0m1 : 0 <= m1).
  { subst m1. apply Z.div_pos; [done|]. apply Z.pow_pos_nonneg; lia. }
  exists m2. split; [done|]. split.
  { intros Hk Hl. subst m2. rewrite (Hl1 Hk), Hl. simpl. by rewrite Hm1. }
  destruct (shr_fexp_spec m2 e1 loc_Exact) as (Hm3 & He3 & _); [lia|].
  destruct (shr_fexp prec emax m2 e1 loc_Exact) as [mrs'' e''].
  simpl in Hm3, He3. by rewrite Hm3, He3.
Qed.

Lemma div_pow2_pos (m k : Z) : 0 < m -> 0 <= k <= dg m - 1 -> 1 <= m / 2 ^ k.
Proof.
  intros Hm Hk. apply Z.div_le_lower_bound; [apply Z.pow_pos_nonneg; lia|].
  rewrite Z.mul_1_r.
  transitivity (2 ^ (dg m - 1)); [apply Z.pow_le_mono_r; lia|].
  by apply dg_bounds.
Qed.

Lemma div_pow2_lt (m k d : Z) :
  0 < m -> 0 <= k -> 0 <= d -> dg m <= k + d -> m / 2 ^ k < 2 ^ d.
Proof.
  intros Hm Hk Hd Hdg. apply Z.div_lt_upper_bound; [apply Z.pow_pos_nonneg; lia|].
  rewrite <- Z.pow_add_r by lia.
  apply Z.lt_le_trans with (2 ^ dg m); [by apply dg_bounds|].
  apply Z.pow_le_mono_r; lia.
Qed.

End Rounding.
Section RoundingOrder.

Local Open Scope Z_scope.
Local Abbreviation prec := PyFloat.prec.
Local Abbreviation emax := PyFloat.emax.
Local Abbreviation dg := Zdigits2.
Local Abbreviation fx := (fexp PyFloat.prec PyFloat.emax).

(** Rounding a value that is not below a canonical [mx * 2^ex] gives a
    result that is not below it either. *)
Lemma round_ge (n mx : positive) (e ex : Z) :
  canonical_mantissa prec emax mx ex = true ->
  e <= ex ->
  Z.pos mx * 2 ^ (ex - e) <= Z.pos n ->
  match binary_round prec emax false n e with
  | S754_finite false m3 e3 => ex < e3 \/ (e3 = ex /\ (mx <= m3)%positive)
  | S754_infinity false => True
  | _ => False
  end.
Proof.
  intros Hcan Hle Hn.
  apply Z.eqb_eq in Hcan.
  change (fx (dg (Z.pos mx) + ex) = ex) in Hcan. rewrite fx_eq in Hcan.
  pose proof (dg_pos (Z.pos mx) eq_refl) as Hdmx.
  assert (Hdg : dg (Z.pos mx) + (ex - e) <= dg (Z.pos n)).
  { rewrite <- dg_shift by lia. apply dg_mono.
    split; [|done]. apply Z.mul_nonneg_nonneg; [lia|]. apply Z.pow_nonneg. lia. }
  unfold binary_round.
  change (fexp prec emax (Z.pos (digits2_pos n) + e)) with (fx (dg (Z.pos n) + e)).
  set (f := fx (dg (Z.pos n) + e)).
  assert (Hf : ex <= f /\ -1074 <= f /\ f = Z.max (dg (Z.pos n) + e - 53) (-1074)).
  { subst f. rewrite fx_eq in *. lia. }
  destruct (shl_align_spec n e f) as [Hmz Hez].
  destruct (shl_align n e f) as [mz ez]. simpl in Hmz, Hez.
  replace (Z.max 0 (e - f)) with 0 in Hmz, Hez by lia.
  rewrite Z.pow_0_r in Hmz.
  assert (mz = n) as -> by lia. assert (ez = e) as -> by lia. clear Hmz Hez.
  destruct (binary_round_aux_spec false (Z.pos n) e loc_Exact) as (m2 & Hm2 & _ & Hres);
    [lia|].
  fold f in Hm2, Hres.
  replace (Z.max 0 (f - e)) with (f - e) in Hm2, Hres by lia.
  replace (e + (f - e)) with f in Hres by lia.
  set (m1 := Z.pos n / 2 ^ (f - e)) in *.
  assert (Hm1 : 1 <= m1 /\ (f = ex -> Z.pos mx <= m1)).
  { split.
    - apply div_pow2_pos; lia.
    - intros ->. apply Z.div_le_lower_bound; [apply Z.pow_pos_nonneg; lia|]. lia. }
  set (k3 := Z.max 0 (fx (dg m2 + f) - f)) in *.
  assert (Hk3 : 0 <= k3 /\ (k3 = 0 \/ k3 <= dg m2 - 1)).
  { subst k3. rewrite fx_eq. lia. }
  assert (Hm3 : 1 <= m2 / 2 ^ k3 /\ (k3 = 0 -> m2 / 2 ^ k3 = m2)).
  { split.
    - destruct Hk3 as [? [->|?]].
      + rewrite Z.pow_0_r, Z.div_1_r. lia.
      + apply div_pow2_pos; lia.
    - intros ->. by rewrite Z.pow_0_r, Z.div_1_r. }
  rewrite Hres.
  destruct (m2 / 2 ^ k3) as [|m3|m3] eqn:Hq; [lia| |lia].
  destruct (f + k3 <=? emax - prec); [|done].
  destruct (decide (k3 = 0 /\ f = ex)) as [[Hk Hfe]|Hno].
  - right. split; [lia|]. destruct Hm3 as [_ Hm3]. specialize (Hm3 Hk). lia.
  - left. lia.
Qed.



(** Rounding a positive value below a canonical [mx * 2^ex] of the format
    gives at most that; the result carries the sign it was given. *)
Lemma round_le (n mx : positive) (e ex : Z) :
  bounded prec emax mx ex = true ->
  e <= ex ->
  Z.pos n < Z.pos mx * 2 ^ (ex - e) ->
  match binary_round prec emax true n e with
  | S754_zero true => True
  | S754_finite true m3 e3 => e3 < ex \/ (e3 = ex /\ (m3 <= mx)%positive)
  | _ => False
  end.
Proof.
  intros [Hcan Hmax]%andb_true_iff Hle Hn.
  apply Z.eqb_eq in Hcan. apply Z.leb_le in Hmax.
  change (fx (dg (Z.pos mx) + ex) = ex) in Hcan. rewrite fx_eq in Hcan.
  change (ex <= 1024 - 53) in Hmax.
  pose proof (dg_pos (Z.pos mx) eq_refl) as Hdmx.
  assert (Hdg : dg (Z.pos n) <= dg (Z.pos mx) + (ex - e)).
  { rewrite <- dg_shift by lia. apply dg_mono. lia. }
  pose proof (dg_pos (Z.pos n) eq_refl) as Hdn.
  unfold binary_round.
  change (fexp prec emax (Z.pos (digits2_pos n) + e)) with (fx (dg (Z.pos n) + e)).
  set (f := fx (dg (Z.pos n) + e)).
  assert (Hf : f <= ex /\ -1074 <= f /\ f = Z.max (dg (Z.pos n) + e - 53) (-1074)).
  { subst f. rewrite fx_eq. lia. }
  destruct (shl_align_spec n e f) as [Hmz Hez].
  destruct (shl_align n e f) as [mz ez]. simpl in Hmz, Hez.
  destruct (binary_round_aux_spec true (Z.pos mz) ez loc_Exact) as (m2 & Hm2 & Hexact & Hres);
    [lia|].
  rewrite Hres. clear Hres.
  assert (Hfmax : forall k, f + k <= ex -> (f + k <=? emax - prec) = true).
  { intros k Hk. apply Z.leb_le. change (f + k <= 1024 - 53). lia. }
  destruct (Z.lt_ge_cases f e) as [Hfe|Hfe].
  - (* the mantissa is shifted left and nothing is lost *)
    replace (Z.max 0 (e - f)) with (e - f) in Hmz, Hez by lia.
    assert (ez = f) as -> by lia. clear Hez.
    assert (Hdmz : dg (Z.pos mz) + f = dg (Z.pos n) + e).
    { rewrite Hmz, dg_shift by lia. lia. }
    rewrite Hdmz in Hm2, Hexact |- *. fold f in Hm2, Hexact |- *.
    replace (Z.max 0 (f - f)) with 0 in Hm2, Hexact |- * by lia.
    rewrite Z.pow_0_r, Z.div_1_r in Hm2, Hexact.
    rewrite (Hexact eq_refl eq_refl). rewrite Z.add_0_r, Hdmz. fold f.
    replace (Z.max 0 (f - f)) with 0 by lia.
    rewrite Z.pow_0_r, Z.div_1_r, Z.add_0_r.
    specialize (Hfmax 0). rewrite Z.add_0_r in Hfmax. rewrite Hfmax by lia.
    left. lia.
  - (* the mantissa is shifted right by [f - e] *)
    replace (Z.max 0 (e - f)) with 0 in Hmz, Hez by lia.
    rewrite Z.pow_0_r in Hmz.
    assert (mz = n) as -> by lia. assert (ez = e) as -> by lia. clear Hmz Hez.
    fold f in Hm2 |- *.
    replace (Z.max 0 (f - e)) with (f - e) in Hm2 |- * by lia.
    replace (e + (f - e)) with f by lia.
    set (m1 := Z.pos n / 2 ^ (f - e)) in *.
    assert (Hm1 : 0 <= m1 < 2 ^ 53 /\ (f = ex -> m1 < Z.pos mx)).
    { split; [split|].
      - apply Z.div_pos; [lia|]. apply Z.pow_pos_nonneg; lia.
      - apply div_pow2_lt; lia.
      - intros ->. apply Z.div_lt_upper_bound; [apply Z.pow_pos_nonneg; lia|]. lia. }
    assert (Hdm2 : dg m2 <= 54 /\ (f = ex -> dg m2 <= dg (Z.pos mx))).
    { split.
      - apply dg_below; [|lia]. change (2 ^ 54) with (2 * 2 ^ 53). lia.
      - intros Hfex. apply dg_mono. lia. }
    set (k3 := Z.max 0 (fx (dg m2 + f) - f)).
    assert (Hk3 : (k3 = 0 \/ (k3 = 1 /\ dg m2 = 54 /\ f < ex)) /\ (f = ex -> k3 = 0)).
    { subst k3. rewrite fx_eq. lia. }
    destruct Hk3 as [[Hk3|(Hk3 & Hd54 & Hlt)] Hk3ex].
    + rewrite Hk3, Z.pow_0_r, Z.div_1_r, Z.add_0_r.
      destruct m2 as [|m2|m2]; [done| |lia].
      specialize (Hfmax 0). rewrite Z.add_0_r in Hfmax. rewrite Hfmax by lia.
      destruct (decide (f = ex)) as [Heq|Hne]; [|left; lia].
      right. split; [done|]. destruct Hm1 as [_ Hm1]. specialize (Hm1 Heq). lia.
    + rewrite Hk3.
      assert (Hm2eq : m2 = 2 ^ 53).
      { assert (0 < m2) by (destruct m2; simpl in Hd54; lia).
        pose proof (dg_bounds m2 H) as Hb. rewrite Hd54 in Hb.
        change (2 ^ (54 - 1)) with (2 ^ 53) in Hb. lia. }
      rewrite Hm2eq. change (2 ^ 53 / 2 ^ 1) with (Z.pos (2 ^ 52)).
      rewrite (Hfmax 1) by lia.
      destruct (decide (f + 1 = ex)) as [Heq|Hne]; [|left; lia].
      right. split; [done|].
      assert (Hd53 : dg (Z.pos mx) = 53) by lia.
      pose proof (dg_bounds (Z.pos mx) eq_refl) as Hb. rewrite Hd53 in Hb.
      change (2 ^ (53 - 1)) with (Z.pos (2 ^ 52)) in Hb. lia.
Qed.

(** A positive mantissa given the sign [false] never rounds to something
    negative. *)
Lemma round_false_sign (n : positive) (e : Z) :
  match binary_round prec emax false n e with
  | S754_zero false | S754_finite false _ _ | S754_infinity false => True
  | _ => False
  end.
Proof.
  unfold binary_round.
  destruct (shl_align n e _) as [mz ez].
  destruct (binary_round_aux_spec false (Z.pos mz) ez loc_Exact) as (m2 & Hm2 & _ & Hres);
    [lia|].
  rewrite Hres. clear Hres.
  set (m1 := Z.pos mz / 2 ^ Z.max 0 (fx (dg (Z.pos mz) + ez) - ez)) in *.
  assert (H1 : 0 <= m1).
  { apply Z.div_pos; [lia|]. apply Z.pow_pos_nonneg; lia. }
  set (k3 := Z.max 0 _).
  assert (H3 : 0 <= m2 / 2 ^ k3).
  { apply Z.div_pos; [lia|]. apply Z.pow_pos_nonneg; lia. }
  destruct (m2 / 2 ^ k3); [done| |lia].
  by destruct (_ <=? _).
Qed.

End RoundingOrder.
Section AddMonotone.

Local Open Scope Z_scope.
Local Abbreviation prec := PyFloat.prec.
Local Abbreviation emax := PyFloat.emax.

Lemma ltb_irrefl (x : float) : PyFloat.ltb x x = false.
Proof.
  unfold PyFloat.ltb, SFltb. destruct (PyFloat.is_nan x) eqn:Hnan.
  - by destruct x.
  - by rewrite SFcompare_refl.
Qed.

(** Adding a finite positive value to a finite value of the format. *)
Lemma add_finite_not_below (sx : bool) (mx my : positive) (ex ey : Z) :
  bounded prec emax mx ex = true ->
  PyFloat.ltb (PyFloat.add (S754_finite sx mx ex) (S754_finite false my ey))
              (S754_finite sx mx ex) = false.
Proof.
  intros Hb.
  pose proof Hb as [Hcan _]%andb_true_iff.
  unfold PyFloat.add, SFadd.
  set (ez := Z.min ex ey).
  destruct (shl_align_spec mx ex ez) as [HX _].
  destruct (shl_align_spec my ey ez) as [HY _].
  set (X := fst (shl_align mx ex ez)) in *.
  set (Y := fst (shl_align my ey ez)) in *.
  replace (Z.max 0 (ex - ez)) with (ex - ez) in HX by lia.
  assert (Hez : ez <= ex) by lia.
  unfold binary_normalize, PyFloat.ltb, SFltb.
  destruct sx; simpl cond_Zopp.
  - (* a negative value *)
    destruct (- Z.pos X + Z.pos Y) as [|p|p] eqn:Hsum.
    + reflexivity.
    + pose proof (round_false_sign p ez) as Hs.
      destruct (binary_round prec emax false p ez) as [[]|[]| |[] m3 e3]; done.
    + assert (Hlt : Z.pos p < Z.pos mx * 2 ^ (ex - ez)) by lia.
      pose proof (round_le p mx ez ex Hb Hez Hlt) as Hr.
      destruct (binary_round prec emax true p ez) as [[]|[]| |[] m3 e3];
        try done.
      clear Hlt. destruct Hr as [Hlt|[-> Hm]]; simpl.
      * by rewrite (proj2 (Z.compare_lt_iff e3 ex) Hlt).
      * rewrite Z.compare_refl.
        change (Pos.compare_cont Eq m3 mx) with (m3 ?= mx)%positive.
        destruct (m3 ?= mx)%positive eqn:Hc; try reflexivity.
        assert (mx < m3)%positive by (by apply Pos.compare_gt_iff). lia.
  - (* a positive value *)
    change (Z.pos X + Z.pos Y) with (Z.pos (X + Y)).
    assert (Hge : Z.pos mx * 2 ^ (ex - ez) <= Z.pos (X + Y)) by lia.
    pose proof (round_ge (X + Y) mx ez ex Hcan Hez Hge) as Hr.
    destruct (binary_round prec emax false (X + Y) ez) as [[]|[]| |[] m3 e3];
      try done.
    destruct Hr as [Hlt|[-> Hm]]; simpl.
    * by rewrite (proj2 (Z.compare_gt_iff e3 ex) Hlt).
    * rewrite Z.compare_refl.
      change (Pos.compare_cont Eq m3 mx) with (m3 ?= mx)%positive.
      destruct (m3 ?= mx)%positive eqn:Hc; try reflexivity.
      assert (m3 < mx)%positive by (by apply Pos.compare_lt_iff). lia.
Qed.

(** Float addition of something that is not negative never gives less:
    [s + d < s] is false for every value [s] of the format and every
    [d] with [0 <= d]. *)
Lemma add_nonneg_not_below (s d : float) :
  PyFloat.valid s = true ->
  PyFloat.leb PyFloat.zero d = true ->
  PyFloat.ltb (PyFloat.add s d) s = false.
Proof.
  intros Hs Hd.
  destruct d as [sd|[]| |[] md ed]; try discriminate Hd.
  - (* a zero *)
    destruct s as [[]|[]| |ss ms es]; destruct sd; try reflexivity;
      apply (ltb_irrefl (S754_finite ss ms es)).
  - (* plus infinity *)
    by destruct s as [[]|[]| |[] ms es].
  - (* finite and positive *)
    destruct s as [[]|[]| |ss ms es]; try reflexivity.
    by apply add_finite_not_below.
Qed.

End AddMonotone.
Section RoundingValid.

Local Open Scope Z_scope.
Local Abbreviation prec := PyFloat.prec.
Local Abbreviation emax := PyFloat.emax.
Local Abbreviation dg := Zdigits2.
Local Abbreviation fx := (fexp PyFloat.prec PyFloat.emax).

Lemma dg_unique (m d : Z) : 0 < d -> 2 ^ (d - 1) <= m < 2 ^ d -> dg m = d.
Proof.
  intros Hd [Hlo Hhi].
  assert (0 < m).
  { eapply Z.lt_le_trans; [|exact Hlo]. apply Z.pow_pos_nonneg; lia. }
  destruct m as [|p|p]; try lia.
  rewrite dg_log2. rewrite (Z.log2_unique (Z.pos p) (d - 1)); [lia|lia|].
  by replace (Z.succ (d - 1)) with d by lia.
Qed.

(** What [binary_round] returns is a value of the format. *)
Lemma binary_round_valid (sx : bool) (n : positive) (e : Z) :
  PyFloat.valid (binary_round prec emax sx n e) = true.
Proof.
  unfold binary_round.
  change (fexp prec emax (Z.pos (digits2_pos n) + e)) with (fx (dg (Z.pos n) + e)).
  set (f := fx (dg (Z.pos n) + e)).
  destruct (shl_align_spec n e f) as [Hmz Hez].
  destruct (shl_align n e f) as [mz ez]. simpl in Hmz, Hez.
  pose proof (dg_pos (Z.pos n) eq_refl) as Hdn.
  assert (Hf : f = Z.max (dg (Z.pos n) + e - 53) (-1074)) by (subst f; by rewrite fx_eq).
  assert (Hdmz : dg (Z.pos mz) + ez = dg (Z.pos n) + e).
  { rewrite Hmz, dg_shift by lia. lia. }
  destruct (binary_round_aux_spec sx (Z.pos mz) ez loc_Exact) as (m2 & Hm2 & _ & Hres);
    [lia|].
  rewrite Hres. clear Hres.
  rewrite Hdmz in Hm2 |- *. fold f in Hm2 |- *.
  assert (Hk1 : Z.max 0 (f - ez) = f - ez) by lia.
  rewrite Hk1 in Hm2 |- *. replace (ez + (f - ez)) with f by lia.
  set (m1 := Z.pos mz / 2 ^ (f - ez)) in *.
  pose proof (dg_pos (Z.pos mz) eq_refl) as Hdmz0.
  assert (Hm1 : 0 <= m1 /\ (f = -1074 -> m1 < 2 ^ 52 \/ m1 < 2 ^ 53 /\ dg (Z.pos mz) + ez = -1021) /\
                (-1074 < f -> 2 ^ 52 <= m1 < 2 ^ 53)).
  { split; [|split].
    - apply Z.div_pos; [lia|]. apply Z.pow_pos_nonneg; lia.
    - intros Hsub.
      destruct (decide (dg (Z.pos mz) + ez = -1021)) as [Heq|Hne].
      + right. split; [|done]. apply div_pow2_lt; lia.
      + left. apply div_pow2_lt; lia.
    - intros Hnorm. split.
      + apply Z.div_le_lower_bound; [apply Z.pow_pos_nonneg; lia|].
        rewrite <- Z.pow_add_r by lia.
        transitivity (2 ^ (dg (Z.pos mz) - 1)); [|by apply dg_bounds].
        apply Z.pow_le_mono_r; lia.
      + apply div_pow2_lt; lia. }
  destruct Hm1 as (Hm1a & Hm1b & Hm1c).
  set (k3 := Z.max 0 (fx (dg m2 + f) - f)).
  assert (Hcase :
    (m2 / 2 ^ k3 = 0) \/
    (exists d, 0 < d <= 53 /\ k3 = 0 /\ 2 ^ (d - 1) <= m2 < 2 ^ d /\
               (d = 53 \/ f = -1074)) \/
    (k3 = 1 /\ m2 = 2 ^ 53 /\ -1074 <= f)).
  { destruct (Z.eq_dec m2 0) as [->|Hnz].
    { left. apply Z.div_0_l. apply Z.pow_nonzero; lia. }
    assert (Hm2pos : 0 < m2) by lia.
    pose proof (dg_bounds m2 Hm2pos) as Hb2. pose proof (dg_pos m2 Hm2pos) as Hd2.
    destruct (Z.eq_dec m2 (2 ^ 53)) as [Heq|Hne].
    - assert (Hd54 : dg m2 = 54) by (rewrite Heq; reflexivity).
      right. right. subst k3. rewrite fx_eq, Hd54. lia.
    - right. left.
      assert (Hlt53 : m2 < 2 ^ 53).
      { destruct (decide (-1074 < f)) as [Hn|Hs]; [specialize (Hm1c Hn); lia|].
        assert (f = -1074) by lia. destruct (Hm1b H) as [Hlt|[Hlt _]]; lia. }
      assert (Hd53 : dg m2 <= 53) by (apply dg_below; lia).
      exists (dg m2). subst k3. rewrite fx_eq.
      destruct (decide (-1074 < f)) as [Hn|Hs].
      + specialize (Hm1c Hn).
        assert (dg m2 = 53) by (apply dg_unique; [lia|]; change (2 ^ (53 - 1)) with (2 ^ 52); lia).
        lia.
      + lia. }
  destruct Hcase as [->|[(d & Hd & -> & Hb & Hdf)|(-> & -> & Hfge)]]; [done| |].
  - rewrite Z.pow_0_r, Z.div_1_r, Z.add_0_r.
    destruct m2 as [|p|p]; [done| |lia].
    destruct (f <=? emax - prec) eqn:Hov; [|done].
    unfold PyFloat.valid, valid_binary, bounded, canonical_mantissa.
    rewrite Hov, andb_true_r. apply Z.eqb_eq.
    change (fx (dg (Z.pos p) + f) = f).
    rewrite (dg_unique (Z.pos p) d) by lia. rewrite fx_eq. lia.
  - change (2 ^ 53 / 2 ^ 1) with (Z.pos (2 ^ 52)).
    destruct (f + 1 <=? emax - prec) eqn:Hov; [|done].
    unfold PyFloat.valid, valid_binary, bounded, canonical_mantissa.
    rewrite Hov, andb_true_r. apply Z.eqb_eq.
    change (fx (53 + (f + 1)) = f + 1). rewrite fx_eq. lia.
Qed.

Lemma binary_normalize_valid (m e : Z) (szero : bool) :
  PyFloat.valid (binary_normalize prec emax m e szero) = true.
Proof. destruct m; [done| |]; apply binary_round_valid. Qed.

(** Sums and differences of values of the format are values of the
    format. *)
Lemma add_valid (x y : float) :
  PyFloat.valid x = true -> PyFloat.valid y = true -> PyFloat.valid (PyFloat.add x y) = true.
Proof.
  intros Hx Hy.
  destruct x as [[]|[]| |sx mx ex], y as [[]|[]| |sy my ey]; try done;
    apply binary_normalize_valid.
Qed.

Lemma sub_valid (x y : float) :
  PyFloat.valid x = true -> PyFloat.valid y = true -> PyFloat.valid (PyFloat.sub x y) = true.
Proof.
  intros Hx Hy.
  destruct x as [[]|[]| |sx mx ex], y as [[]|[]| |sy my ey]; try done;
    apply binary_normalize_valid.
Qed.

End RoundingValid.

(* ===================================================================== *)
(** * Properties of the scoring step *)
(* ===================================================================== *)

Section Scoring.

Import Referee.

Lemma pystr_eqb_eq (a b : pystr) : PyStr.eqb a b = true <-> a = b.
Proof. unfold PyStr.eqb. apply bool_decide_eq_true. Qed.

Lemma unique_keys_cons {A} k (v : A) d :
  unique_keys ((k, v) :: d) = true ->
  (forall kv, kv ∈ d -> kv.1 <> k) /\ unique_keys d = true.
Proof.
  simpl. intros [Hall Hrest]%andb_true_iff. split; [|done].
  intros kv Hin Heq. rewrite forallb_forall in Hall.
  apply list_elem_of_In, Hall in Hin.
  apply negb_true_iff in Hin.
  assert (PyStr.eqb kv.1 k = true) by by apply pystr_eqb_eq.
  congruence.
Qed.

Lemma score_record_name target p rec :
  Player.name (score_record target p rec).1 = Player.name p.
Proof.
  unfold score_record.
  destruct (TurnRecord.is_invalid_move rec), (TurnRecord.applied_guess rec), target;
    reflexivity.
Qed.

(** What the loop of [handle_turn] computes when every key designates a
    player of that name and no key occurs twice: it does not raise, every
    record is scored against the player it designates as that player was
    on entry, and a player no key designates is left alone. *)
Lemma handle_turn_loop_spec pm target items :
  forall players,
  unique_keys items = true ->
  (forall kv, kv ∈ items ->
     exists i p, pm !! kv.1 = Some i /\ players !! i = Some p /\ Player.name p = kv.1) ->
  exists ps recs,
    handle_turn_loop pm target items players = Ok (ps, recs) /\
    length ps = length players /\
    (forall k name rec, items !! k = Some (name, rec) ->
       exists i p, pm !! name = Some i /\ players !! i = Some p /\
         ps !! i = Some (score_record target p rec).1 /\
         recs !! k = Some (name, (score_record target p rec).2)) /\
    (forall j, (forall kv, kv ∈ items -> pm !! kv.1 <> Some j) ->
       ps !! j = players !! j) /\
    length recs = length items.
Proof.
  induction items as [|[name record] rest IH]; intros players Huniq Hres.
  - exists players, []. simpl. repeat split; try done.
  - apply unique_keys_cons in Huniq as [Hfresh Huniq].
    destruct (Hres (name, record)) as (i & p & Hi & Hp & Hname); [left|].
    simpl in Hi, Hname.
    set (p' := (score_record target p record).1).
    set (record' := (score_record target p record).2).
    assert (Hother : forall kv, kv ∈ rest -> pm !! kv.1 <> Some i).
    { intros kv Hin Hkv.
      destruct (Hres kv) as (i2 & p2 & Hi2 & Hp2 & Hn2); [by right|].
      assert (i2 = i) by congruence. subst i2.
      assert (p2 = p) by congruence. subst p2.
      apply (Hfresh kv Hin). congruence. }
    destruct (IH (<[i := p']> players) Huniq) as (ps & recs & Hrun & Hlen & Hrec & Hkeep & Hlr).
    { intros kv Hin.
      destruct (Hres kv) as (i2 & p2 & Hi2 & Hp2 & Hn2); [by right|].
      exists i2, p2. repeat split; try done.
      rewrite list_lookup_insert_ne; [done|].
      intros ->. by apply (Hother kv Hin). }
    exists ps, ((name, record') :: recs).
    split.
    { simpl. rewrite Hi, Hp.
      destruct (score_record target p record) as [q r] eqn:Hsr.
      subst p' record'. simpl in *. rewrite Hrun. reflexivity. }
    split; [by rewrite Hlen, length_insert|].
    split.
    { intros k name0 rec0 Hk. destruct k as [|k]; simpl in Hk.
      - injection Hk as <- <-. exists i, p. repeat split; try done.
        rewrite (Hkeep i Hother).
        apply list_lookup_insert_eq. by eapply lookup_lt_Some.
      - destruct (Hrec k name0 rec0 Hk) as (i2 & p2 & Hi2 & Hp2 & Hps & Hrecs).
        exists i2, p2. repeat split; try done.
        rewrite list_lookup_insert_ne in Hp2; [done|].
        intros ->. apply (Hother (name0, rec0)); [|done].
        apply list_elem_of_lookup. by exists k. }
    split; [|by simpl; rewrite Hlr].
    intros j Hj. rewrite Hkeep.
    + apply list_lookup_insert_ne. intros ->. apply (Hj (name, record)); [left|done].
    + intros kv Hin. apply Hj. by right.
Qed.

Lemma wf_elim (self : t) :
  wf self = true ->
  unique_keys (records self) = true /\
  forall kv, kv ∈ records self ->
    exists i p, player_map self !! kv.1 = Some i /\ players self !! i = Some p /\
                Player.name p = kv.1.
Proof.
  unfold wf. intros [Hu Hall]%andb_true_iff. split; [done|].
  intros kv Hin. rewrite forallb_forall in Hall.
  apply list_elem_of_In, Hall in Hin.
  unfold resolves, player_of in Hin.
  destruct (player_map self !! kv.1) as [i|] eqn:Hi; [|done].
  destruct (players self !! i) as [p|] eqn:Hp; [|done].
  exists i, p. repeat split; try done. by apply pystr_eqb_eq.
Qed.

(** [handle_turn] on a well-formed referee: the general shape every
    scoring property is read from. *)
Lemma handle_turn_spec (self : t) :
  wf self = true ->
  exists self',
    handle_turn self = Ok self' /\
    turn self' = turn self /\ player_map self' = player_map self /\
    length (players self') = length (players self) /\
    length (records self') = length (records self) /\
    (forall k name rec, records self !! k = Some (name, rec) ->
       exists i p, player_of self name = Some (i, p) /\
         players self' !! i = Some (score_record (compute_target self) p rec).1 /\
         records self' !! k = Some (name, (score_record (compute_target self) p rec).2)) /\
    (forall j, (forall kv, kv ∈ records self -> player_map self !! kv.1 <> Some j) ->
       players self' !! j = players self !! j).
Proof.
  intros [Hu Hres]%wf_elim.
  destruct (handle_turn_loop_spec (player_map self) (compute_target self)
              (records self) (players self) Hu Hres)
    as (ps & recs & Hrun & Hlen & Hrec & Hkeep & Hlr).
  exists (mk ps (turn self) recs (player_map self)).
  unfold handle_turn. rewrite Hrun. simpl. repeat split; try done.
  intros k name rec Hk.
  destruct (Hrec k name rec Hk) as (i & p & Hi & Hp & Hps & Hrecs).
  exists i, p. unfold player_of. rewrite Hi, Hp. done.
Qed.

Lemma compute_target_nonempty (self : t) :
  valid_guesses self <> [] ->
  compute_target self = Some (target_of_guesses (valid_guesses self)).
Proof.
  unfold compute_target, valid_guesses.
  destruct (valid_records self); [done|reflexivity].
Qed.

Lemma valid_guesses_length (self : t) :
  length (valid_guesses self) = length (valid_records self).
Proof.
  unfold valid_guesses, valid_records.
  induction (snd <$> records self) as [|r l IH]; [done|].
  simpl. destruct (is_valid r) eqn:Hv; [|done].
  unfold is_valid in Hv. apply andb_true_iff in Hv as [_ Hv].
  simpl. destruct (TurnRecord.applied_guess r); [|done]. simpl. f_equal. exact IH.
Qed.

Lemma compute_target_empty (self : t) :
  valid_records self = [] -> compute_target self = None.
Proof. unfold compute_target. by intros ->. Qed.

End Scoring.

(* ===================================================================== *)
(** * The scoring claims *)
(* ===================================================================== *)

Section ScoringClaims.

Import Referee.

(** C1. On a turn with at least one valid record, [handle_turn] returns,
    the target is [TARGET_MULTIPLIER] (the double nearest to 7/10) times
    the mean of the valid applied guesses, and every valid record ends
    with: [target_value] the target; [applied_guess] bounded into
    [[0, 100]] once more; [distance_from_target] the absolute difference
    of that applied guess and the target; [score_delta] equal to
    [max(0, 100 - distance)]; the player's score raised by [score_delta];
    [post_score] the raised score. A guess already within [[0, 100]] is
    left equal by the bounding. On the guesses 20, 40, 60 the target is
    28.0; a guess 30.0 against 28.0 is at distance 2.0 and earns 98.0. *)
Theorem handle_turn_scores_valid_records (self : t)
    (Hwf : wf self = true) (Hne : valid_guesses self <> []) :
  let guesses := valid_guesses self in
  let target :=
    (TARGET_MULTIPLIER * (PyFloat.sum guesses / PyFloat.of_nat (length guesses)))%F in
  (exists self', handle_turn self = Ok self' /\
     forall k name rec,
       records self !! k = Some (name, rec) -> is_valid rec = true ->
       exists i p p' rec' applied distance score_delta,
         player_of self name = Some (i, p) /\
         TurnRecord.applied_guess rec = Some applied /\
         players self' !! i = Some p' /\
         records self' !! k = Some (name, rec') /\
         TurnRecord.target_value rec' = Some target /\
         TurnRecord.applied_guess rec' = Some (bound_guess applied) /\
         (PyFloat.between PyFloat.zero PyFloat.hundred applied = true ->
            PyFloat.eqb (bound_guess applied) applied = true) /\
         TurnRecord.distance_from_target rec' = Some distance /\
         distance = PyFloat.abs (bound_guess applied - target)%F /\
         TurnRecord.score_delta rec' = Some score_delta /\
         score_delta = PyFloat.max PyFloat.zero (PyFloat.hundred - distance)%F /\
         Player.score p' = (Player.score p + score_delta)%F /\
         TurnRecord.post_score rec' = Some (Player.score p')) /\
  TARGET_MULTIPLIER = (PyFloat.of_Z 7 / PyFloat.of_Z 10)%F /\
  valid_guesses Examples.turn_20_40_60 = PyFloat.of_Z <$> [20; 40; 60] /\
  compute_target Examples.turn_20_40_60 = Some (PyFloat.of_Z 28) /\
  PyFloat.abs (bound_guess (PyFloat.of_Z 30) - PyFloat.of_Z 28)%F = PyFloat.of_Z 2 /\
  delta_of_distance (PyFloat.of_Z 2) = PyFloat.of_Z 98.
Proof.
  intros guesses target.
  split; [|by vm_compute].
  destruct (handle_turn_spec self Hwf) as (self' & Hrun & _ & _ & _ & _ & Hrec & _).
  exists self'. split; [done|].
  intros k name rec Hk Hvalid.
  destruct (Hrec k name rec Hk) as (i & p & Hp & Hps & Hrecs).
  rewrite (compute_target_nonempty self Hne) in Hps, Hrecs.
  unfold is_valid in Hvalid. apply andb_true_iff in Hvalid as [Hinv Happ].
  apply negb_true_iff in Hinv.
  destruct (TurnRecord.applied_guess rec) as [applied|] eqn:Ha; [|done].
  unfold score_record in Hps, Hrecs. rewrite Hinv, Ha in Hps, Hrecs.
  simpl in Hps, Hrecs.
  eexists i, p, _, _, applied, _, _.
  split; [exact Hp|]. split; [reflexivity|].
  split; [exact Hps|]. split; [exact Hrecs|].
  destruct rec; simpl.
  repeat split; try reflexivity.
  apply bound_guess_in_range.
Qed.

Lemma handle_turn_scores_valid_records_witness :
  wf Examples.turn_30_50_40 = true /\
  valid_guesses Examples.turn_30_50_40 <> [] /\
  exists self', handle_turn Examples.turn_30_50_40 = Ok self' /\
    exists rec', records self' !! 0%nat = Some (str "Vanilla", rec') /\
      TurnRecord.target_value rec' = Some (PyFloat.of_Z 28) /\
      TurnRecord.distance_from_target rec' = Some (PyFloat.of_Z 2) /\
      TurnRecord.score_delta rec' = Some (PyFloat.of_Z 98) /\
      TurnRecord.post_score rec' = Some (PyFloat.of_Z 98).
Proof.
  split; [reflexivity|]. split; [discriminate|].
  destruct (handle_turn_scores_valid_records Examples.turn_30_50_40)
    as [(self' & Hrun & Hall) _]; [reflexivity|discriminate|].
  exists self'. split; [exact Hrun|].
  destruct (Hall 0%nat (str "Vanilla") (snd (Examples.guessed "Vanilla" (PyFloat.of_Z 30))))
    as (i & p & p' & rec' & applied & distance & delta & Hp & Ha & Hp' & Hrec' & Htv & Hag
        & _ & Hd & Hdv & Hs & Hsv & Hsc & Hpost); [reflexivity|reflexivity|].
  exists rec'. split; [exact Hrec'|].
  injection Ha as <-. injection Hp as <- <-.
  split; [rewrite Htv; reflexivity|].
  split; [rewrite Hd, Hdv; reflexivity|].
  split; [rewrite Hs, Hsv, Hdv; reflexivity|].
  rewrite Hpost, Hsc, Hsv, Hdv. reflexivity.
Defined.

(** C2, as stated, fails: with one unreadable move among readable ones
    the unreadable record does not end with a null distance. *)
Lemma invalid_record_distance_counterexample :
  valid_guesses Examples.turn_one_unreadable <> [] /\
  exists self' rec',
    handle_turn Examples.turn_one_unreadable = Ok self' /\
    records self' !! 1%nat = Some (str "Strategic", rec') /\
    TurnRecord.is_invalid_move rec' = true /\
    TurnRecord.applied_guess rec' = None /\
    TurnRecord.target_value rec' = Some (PyFloat.of_Z 35) /\
    TurnRecord.distance_from_target rec' = Some (PyFloat.of_Z 35) /\
    TurnRecord.distance_from_target rec' <> None.
Proof.
  split; [discriminate|].
  eexists _, _. split; [vm_compute; reflexivity|].
  split; [reflexivity|]. repeat split; try reflexivity. discriminate.
Qed.

(** C2, amended. On a turn with at least one valid record, every record
    that is invalid or has no applied guess ends with [target_value] the
    computed target, [distance_from_target] the distance between the
    target and its applied guess, a missing or zero guess counting as
    0.0, [score_delta] zero and [post_score] the score of its player,
    which the turn leaves as it was; its applied guess is not touched. *)
Theorem handle_turn_marks_invalid_records (self : t)
    (Hwf : wf self = true) (Hne : valid_guesses self <> []) :
  let target := target_of_guesses (valid_guesses self) in
  exists self', handle_turn self = Ok self' /\
    forall k name rec,
      records self !! k = Some (name, rec) -> is_valid rec = false ->
      exists i p rec',
        player_of self name = Some (i, p) /\
        players self' !! i = Some p /\
        records self' !! k = Some (name, rec') /\
        TurnRecord.is_invalid_move rec' = TurnRecord.is_invalid_move rec /\
        TurnRecord.applied_guess rec' = TurnRecord.applied_guess rec /\
        TurnRecord.target_value rec' = Some target /\
        TurnRecord.distance_from_target rec' =
          Some (PyFloat.abs (guess_or_zero (TurnRecord.applied_guess rec) - target)%F) /\
        TurnRecord.score_delta rec' = Some PyFloat.zero /\
        TurnRecord.post_score rec' = Some (Player.score p).
Proof.
  intros target.
  destruct (handle_turn_spec self Hwf) as (self' & Hrun & _ & _ & _ & _ & Hrec & _).
  exists self'. split; [done|].
  intros k name rec Hk Hinvalid.
  destruct (Hrec k name rec Hk) as (i & p & Hp & Hps & Hrecs).
  rewrite (compute_target_nonempty self Hne) in Hps, Hrecs.
  fold target in Hps, Hrecs.
  exists i, p, (score_record (Some target) p rec).2.
  split; [exact Hp|].
  unfold is_valid in Hinvalid. unfold score_record in *.
  destruct rec as [? ? inv ? ? ? ? ? ? ? ? ? ? ? ? [ag|] ? ? ? ? ?];
    simpl in *; destruct inv; simpl in *; try discriminate; repeat split; done.
Qed.

Lemma handle_turn_marks_invalid_records_witness :
  wf Examples.turn_one_unreadable = true /\
  valid_guesses Examples.turn_one_unreadable <> [] /\
  exists self', handle_turn Examples.turn_one_unreadable = Ok self' /\
    exists rec', records self' !! 1%nat = Some (str "Strategic", rec') /\
      TurnRecord.score_delta rec' = Some PyFloat.zero /\
      TurnRecord.post_score rec' = Some PyFloat.zero.
Proof.
  split; [reflexivity|]. split; [discriminate|].
  destruct (handle_turn_marks_invalid_records Examples.turn_one_unreadable)
    as (self' & Hrun & Hall); [reflexivity|discriminate|].
  exists self'. split; [exact Hrun|].
  destruct (Hall 1%nat (str "Strategic") (snd (Examples.unreadable "Strategic")))
    as (i & p & rec' & Hp & _ & Hrec' & _ & _ & _ & _ & Hs & Hpost);
    [reflexivity|reflexivity|].
  exists rec'. split; [exact Hrec'|]. split; [exact Hs|].
  injection Hp as <- <-. exact Hpost.
Defined.

(** C3. On a turn without a valid record, [handle_turn] returns, every
    record ends with no target, no distance, [score_delta] zero and
    [post_score] the score of its player, and the list of players is
    exactly what it was: no score has changed. *)
Theorem handle_turn_empty_valid_set (self : t)
    (Hwf : wf self = true) (Hempty : valid_records self = []) :
  exists self', handle_turn self = Ok self' /\
    players self' = players self /\
    forall k name rec,
      records self !! k = Some (name, rec) ->
      exists i p rec',
        player_of self name = Some (i, p) /\
        records self' !! k = Some (name, rec') /\
        TurnRecord.target_value rec' = None /\
        TurnRecord.distance_from_target rec' = None /\
        TurnRecord.score_delta rec' = Some PyFloat.zero /\
        TurnRecord.post_score rec' = Some (Player.score p).
Proof.
  destruct (handle_turn_spec self Hwf)
    as (self' & Hrun & _ & _ & Hlen & _ & Hrec & Hkeep).
  rewrite (compute_target_empty self Hempty) in Hrec.
  assert (Hnone : forall p rec, score_record None p rec =
            (p, TurnRecord.set_scoring (TurnRecord.applied_guess rec) None None
                  (Some PyFloat.zero) (Some (Player.score p)) rec)).
  { intros p rec. unfold score_record.
    by destruct (TurnRecord.is_invalid_move rec), (TurnRecord.applied_guess rec). }
  exists self'. split; [done|]. split.
  - apply list_eq. intros j.
    destruct (decide (Exists (fun kv => player_map self !! kv.1 = Some j) (records self)))
      as [(kv & Hin & Hj)%Exists_exists|Hno].
    + apply list_elem_of_lookup in Hin as [k Hk].
      destruct kv as [name rec].
      destruct (Hrec k name rec Hk) as (i & p & Hp & Hps & _).
      rewrite Hnone in Hps. simpl in *.
      unfold player_of in Hp. rewrite Hj in Hp.
      destruct (players self !! j) eqn:Hpj; [|done].
      injection Hp as <- <-. by rewrite Hps.
    + apply Hkeep. intros kv Hin Hj. apply Hno, Exists_exists. by exists kv.
  - intros k name rec Hk.
    destruct (Hrec k name rec Hk) as (i & p & Hp & _ & Hrecs).
    rewrite Hnone in Hrecs. simpl in Hrecs.
    eexists i, p, _. split; [exact Hp|]. split; [exact Hrecs|].
    by destruct rec.
Qed.

Lemma handle_turn_empty_valid_set_witness :
  wf Examples.turn_all_unreadable = true /\
  valid_records Examples.turn_all_unreadable = [] /\
  exists self', handle_turn Examples.turn_all_unreadable = Ok self' /\
    players self' = players Examples.turn_all_unreadable.
Proof.
  split; [reflexivity|]. split; [reflexivity|].
  destruct (handle_turn_empty_valid_set Examples.turn_all_unreadable)
    as (self' & Hrun & Hplayers & _); [reflexivity|reflexivity|].
  exists self'. split; [exact Hrun|exact Hplayers].
Defined.

End ScoringClaims.

(* ===================================================================== *)
(** * Properties of the per-player pipeline *)
(* ===================================================================== *)

Section PipelineFacts.

Context `{Externals}.
Import Referee.

(** The nested handlers of [do_turn_for_player], case by case. *)
Lemma do_turn_for_player_cases (self : t) (player : Player.t) (log : list event) :
  do_turn_for_player self player log =
  match make_move player (turn self) log with
  | (Raise e, log1) => (Ok (failed self player (RawText [])), log1)
  | (Ok reply, log1) =>
      let text := Reply.response reply in
      let log2 := log1 ++ [Parsed text] in
      match parse_response text with
      | Ok move => (Ok (accepted self player reply move text), log2)
      | Raise _ =>
          match repair_response self player text log2 with
          | (Raise _, log3) => (Ok (rejected self player reply), log3)
          | (Ok repaired, log3) =>
              match parse_response repaired with
              | Ok move =>
                  (Ok (accepted_after_repair self player reply move repaired),
                   log3 ++ [Parsed repaired])
              | Raise _ => (Ok (rejected self player reply), log3 ++ [Parsed repaired])
              end
          end
      end
  end.
Proof.
  unfold do_turn_for_player, try_except at 1, bind at 1.
  destruct (make_move player (turn self) log) as [[reply|e] log1]; [|reflexivity].
  unfold try_except at 1, resolve, try_except at 1, bind at 1, call_parse_response,
    bind at 1, emit, lift.
  destruct (parse_response (Reply.response reply)) as [move|e]; [reflexivity|].
  unfold try_except at 1, bind at 1.
  destruct (repair_response self player (Reply.response reply) _) as [[repaired|e'] log3];
    [|reflexivity].
  unfold bind at 1.
  destruct (parse_response repaired) as [move|e']; reflexivity.
Qed.

Lemma make_move_cases (player : Player.t) (n : Z) (log : list event) :
  let c := Call.mk (Player.name player) (Player.llm player) (instructions player)
             (prompt player n) Player.MAX_TOKENS in
  make_move player n log =
  match send log c with
  | Ok text =>
      (Ok (Reply.mk text (instructions player) (prompt player n)
             (LLM.model_name (Player.llm player))
             (Some (LLM.temperature (Player.llm player)))),
       log ++ [Sent c])
  | Raise e => (Raise e, log ++ [Sent c])
  end.
Proof.
  intros c. unfold make_move, bind, llm_send. fold c.
  destruct (send log c); reflexivity.
Qed.

(** Every record has the name of the player it was made for. *)
Lemma do_turn_for_player_total (self : t) (player : Player.t) (log : list event) :
  exists rec log',
    do_turn_for_player self player log = (Ok rec, log') /\
    TurnRecord.name rec = Player.name player /\
    TurnRecord.turn rec = turn self.
Proof.
  rewrite do_turn_for_player_cases.
  destruct (make_move player (turn self) log) as [[reply|e] log1]; [|by eexists _, _].
  simpl. destruct (parse_response (Reply.response reply)) as [move|e]; [by eexists _, _|].
  destruct (repair_response self player (Reply.response reply) _) as [[repaired|e'] log3];
    [|by eexists _, _].
  destruct (parse_response repaired) as [move|e']; by eexists _, _.
Qed.

Lemma map_players_total (self : t) (ps : list Player.t) :
  forall log, exists recs log',
    map_players self ps log = (Ok recs, log') /\
    TurnRecord.name <$> recs = Player.name <$> ps.
Proof.
  induction ps as [|p ps IH]; intros log.
  - by exists [], log.
  - destruct (do_turn_for_player_total self p log) as (rec & log1 & Hrec & Hname & _).
    destruct (IH log1) as (recs & log2 & Hrecs & Hnames).
    exists (rec :: recs), log2. split.
    + simpl. unfold bind at 1. rewrite Hrec. unfold bind at 1. by rewrite Hrecs.
    + rewrite !fmap_cons. by rewrite Hname, Hnames.
Qed.

(** The fallback loop: the helpers are asked in order; the loop stops at
    the first one whose call returns, and raises [e] when none does. *)
Lemma ask_helpers_spec (player : Player.t) (original : pystr) (e : exn)
    (ps : list Player.t) :
  forall log,
  let hs := List.filter (fun h => negb (PyStr.eqb (Player.name h) (Player.name player))) ps in
  let log_at j := log ++ (Sent <$> (helper_call original <$> take j hs)) in
  (ask_helpers player original e ps log = (Raise e, log_at (length hs)) /\
   forall j h, hs !! j = Some h ->
     is_ok (send (log_at j) (helper_call original h)) = false)
  \/
  (exists k h text,
     hs !! k = Some h /\
     send (log_at k) (helper_call original h) = Ok text /\
     ask_helpers player original e ps log = (Ok text, log_at (S k)) /\
     forall j h', (j < k)%nat -> hs !! j = Some h' ->
       is_ok (send (log_at j) (helper_call original h')) = false).
Proof.
  induction ps as [|p ps IH]; intros log; cbn [ask_helpers List.filter].
  - left. split; [by rewrite app_nil_r|]. intros j h Hj. done.
  - destruct (PyStr.eqb (Player.name p) (Player.name player)) eqn:Hsame; cbn [negb].
    + apply IH.
    + set (hs := List.filter _ ps) in *.
      assert (Hshift : forall j,
                log ++ (Sent <$> (helper_call original <$> take (S j) (p :: hs))) =
                (log ++ [Sent (helper_call original p)]) ++
                  (Sent <$> (helper_call original <$> take j hs))).
      { intros j. rewrite firstn_cons, !fmap_cons. by rewrite cons_middle, app_assoc. }
      assert (Hzero : log ++ (Sent <$> (helper_call original <$> take 0 (p :: hs))) = log).
      { by rewrite take_0, !fmap_nil, app_nil_r. }
      unfold try_except, llm_send. fold (helper_call original p).
      destruct (send log (helper_call original p)) as [text|e'] eqn:Hsend.
      * right. exists 0%nat, p, text.
        rewrite Hshift, Hzero, take_0, !fmap_nil, app_nil_r.
        split; [reflexivity|]. split; [exact Hsend|]. split; [reflexivity|].
        intros; lia.
      * destruct (IH (log ++ [Sent (helper_call original p)])) as [[Hrun Hall]|Hsome].
        -- left. split.
           ++ rewrite Hrun. cbn [length]. by rewrite Hshift.
           ++ intros [|j] h Hj.
              ** injection Hj as <-. by rewrite Hzero, Hsend.
              ** rewrite Hshift. by apply Hall.
        -- destruct Hsome as (k & h & text & Hk & Hok & Hrun & Hall).
           right. exists (S k), h, text.
           rewrite !Hshift.
           split; [exact Hk|]. split; [exact Hok|]. split; [exact Hrun|].
           intros [|j] h' Hlt Hj.
           ++ injection Hj as <-. by rewrite Hzero, Hsend.
           ++ rewrite Hshift. apply Hall; [lia|done].
Qed.


End PipelineFacts.

(* ===================================================================== *)
(** * The claims about the per-player pipeline *)
(* ===================================================================== *)

Section PipelineClaims.

Import Referee.

(** C6, as stated, fails for an exception of the first parse: when the
    repair recovers it, the record is a valid one. *)
Lemma parse_exception_recovered_counterexample :
  let E := Fragment.externals [Ok Examples.chatter; Ok Examples.json_reply] in
  is_ok (parse_response Examples.chatter) = false /\
  exists rec log',
    do_turn_for_player Examples.referee Examples.vanilla [] = (Ok rec, log') /\
    TurnRecord.is_invalid_move rec = false /\
    TurnRecord.move rec = Some Examples.move_x_50.
Proof.
  intros E. split; [vm_compute; reflexivity|].
  destruct (do_turn_for_player Examples.referee Examples.vanilla []) as [r log'] eqn:Hrun.
  vm_compute in Hrun. injection Hrun as <- <-.
  eexists _, _. split; [reflexivity|]. split; vm_compute; reflexivity.
Qed.

(** C6, amended. [do_turn_for_player] never raises: whatever the model,
    the parser and the repair do, it returns a record for its player.
    The record is an invalid move exactly when the failure is not
    recovered, that is when the model call raises, or the reply does not
    parse and the repair raises or returns a text that does not parse;
    it then carries no move and keeps the text the model returned (no
    text when the call itself raised). Hence the pipelines of a list of
    players all complete, one record per player, whatever happens in
    any of them. *)
Theorem do_turn_for_player_isolates_failures `{Externals}
    (self : t) (player : Player.t) (log : list event) :
  (exists rec log',
     do_turn_for_player self player log = (Ok rec, log') /\
     TurnRecord.name rec = Player.name player /\
     TurnRecord.is_invalid_move rec = unrecovered self player log /\
     (unrecovered self player log = true ->
        TurnRecord.move rec = None /\
        TurnRecord.raw_response rec = RawText (received self player log))) /\
  (forall ps, exists recs log',
     map_players self ps log = (Ok recs, log') /\
     TurnRecord.name <$> recs = Player.name <$> ps).
Proof.
  split; [|intros ps; apply map_players_total].
  rewrite do_turn_for_player_cases. unfold unrecovered, received.
  destruct (make_move player (turn self) log) as [[reply|e] log1];
    [|by eexists _, _].
  cbv zeta.
  destruct (parse_response (Reply.response reply)) as [move|e]; [by eexists _, _|].
  cbn [is_ok].
  destruct (repair_response self player (Reply.response reply) _) as [[repaired|e'] log3];
    [|by eexists _, _].
  destruct (parse_response repaired) as [move|e']; by eexists _, _.
Qed.

Lemma do_turn_for_player_isolates_failures_witness :
  let E := Fragment.externals [Raise (RemoteError 503)] in
  unrecovered Examples.referee Examples.strategic [] = true /\
  exists rec log',
    do_turn_for_player Examples.referee Examples.strategic [] = (Ok rec, log') /\
    TurnRecord.is_invalid_move rec = true /\
    TurnRecord.raw_response rec = RawText [].
Proof.
  intros E.
  assert (Hu : unrecovered Examples.referee Examples.strategic [] = true)
    by (vm_compute; reflexivity).
  split; [exact Hu|].
  destruct (do_turn_for_player_isolates_failures (H:=E) Examples.referee
              Examples.strategic [])
    as [(rec & log' & Hrun & _ & Hinv & Hraw) _].
  exists rec, log'. split; [exact Hrun|]. split; [by rewrite Hinv|].
  rewrite (proj2 (Hraw Hu)). vm_compute. reflexivity.
Defined.

(** C7. [repair_response] first asks the player's own model, with the
    corrective prompt and a budget of [MAX_TOKENS // 4 = 150]. If that
    call returns, its text is the result and no other call is made. If
    it raises [e], the other players are asked in the referee's order,
    each with the original text and the same budget: the result is the
    text of the first helper whose call returns, nobody being asked
    after it, or [e] raised again when every helper call raises. No
    text is parsed meanwhile. Back in [do_turn_for_player], a repaired
    text is parsed, once, and the record is settled by that parse with
    no further call. *)
Theorem repair_response_order `{Externals}
    (self : t) (player : Player.t) (original : pystr) (log : list event) :
  let own := own_call player original in
  let hs := others self player in
  let log_at j := (log ++ [Sent own]) ++ (Sent <$> (helper_call original <$> take j hs)) in
  Call.max_tokens own = Player.MAX_TOKENS `div` 4 /\
  Player.MAX_TOKENS `div` 4 = 150 /\
  match send log own with
  | Ok text => repair_response self player original log = (Ok text, log ++ [Sent own])
  | Raise e =>
      (repair_response self player original log = (Raise e, log_at (length hs)) /\
       forall j h, hs !! j = Some h ->
         is_ok (send (log_at j) (helper_call original h)) = false)
      \/
      (exists k h text,
         hs !! k = Some h /\
         send (log_at k) (helper_call original h) = Ok text /\
         repair_response self player original log = (Ok text, log_at (S k)) /\
         forall j h', (j < k)%nat -> hs !! j = Some h' ->
           is_ok (send (log_at j) (helper_call original h')) = false)
  end /\
  forall reply log1 repaired log3,
    is_ok (parse_response (Reply.response reply)) = false ->
    repair_response self player (Reply.response reply)
      (log1 ++ [Parsed (Reply.response reply)]) = (Ok repaired, log3) ->
    resolve self player reply log1 =
      (Ok match parse_response repaired with
          | Ok move => accepted_after_repair self player reply move repaired
          | Raise _ => rejected self player reply
          end,
       log3 ++ [Parsed repaired]).
Proof.
  intros own hs log_at.
  split; [reflexivity|]. split; [reflexivity|]. split.
  - unfold repair_response, try_except, llm_send. fold (own_call player original).
    fold own. destruct (send log own) as [text|e]; [reflexivity|].
    apply (ask_helpers_spec player original e (players self) (log ++ [Sent own])).
  - intros reply log1 repaired log3 Hparse Hrepair.
    unfold resolve, try_except at 1, bind at 1, call_parse_response, bind at 1, emit, lift.
    destruct (parse_response (Reply.response reply)) as [move|e]; [discriminate|].
    unfold try_except at 1, bind at 1. rewrite Hrepair.
    unfold bind at 1.
    destruct (parse_response repaired) as [move|e']; reflexivity.
Qed.

Lemma repair_response_order_witness :
  let E := Fragment.externals
             [Raise (RemoteError 500); Raise (RemoteError 429); Ok Examples.json_reply] in
  exists log',
    repair_response Examples.referee Examples.vanilla Examples.chatter [] =
      (Ok Examples.json_reply, log') /\
    log' = [Sent (own_call Examples.vanilla Examples.chatter);
            Sent (helper_call Examples.chatter Examples.strategic);
            Sent (helper_call Examples.chatter Examples.agressor)].
Proof.
  intros E.
  destruct (repair_response_order (H:=E) Examples.referee Examples.vanilla
              Examples.chatter [])
    as (_ & _ & Hrun & _).
  change (send [] (own_call Examples.vanilla Examples.chatter))
    with (@Raise pystr (RemoteError 500)) in Hrun.
  destruct Hrun as [[Hrun Hall]|(k & h & text & Hk & Hok & Hrun & Hall)].
  - exfalso.
    specialize (Hall 1%nat Examples.agressor eq_refl).
    vm_compute in Hall. discriminate Hall.
  - destruct k as [|[|k]].
    + exfalso. injection Hk as <-. vm_compute in Hok. discriminate Hok.
    + injection Hk as <-.
      assert (text = Examples.json_reply) as ->.
      { vm_compute in Hok. injection Hok as <-. reflexivity. }
      eexists. split; [exact Hrun|reflexivity].
    + exfalso. vm_compute in Hk. discriminate Hk.
Defined.

(** C8, on the code. When the first parse fails and the repaired text
    parses, the record has [repair_attempted] set and [repaired_response]
    the repaired text, but [raw_response] is the repaired text as well:
    the reply the model first gave is not on the record. *)
Theorem repaired_record_drops_original_reply :
  let E := Fragment.externals [Ok Examples.chatter; Ok Examples.json_reply] in
  is_ok (parse_response Examples.chatter) = false /\
  parse_response Examples.json_reply = Ok Examples.move_x_50 /\
  exists rec log',
    do_turn_for_player Examples.referee Examples.vanilla [] = (Ok rec, log') /\
    rec = accepted_after_repair Examples.referee Examples.vanilla
            (Reply.mk Examples.chatter (instructions Examples.vanilla)
               (prompt Examples.vanilla 1) (LLM.model_name Examples.mini)
               (Some (LLM.temperature Examples.mini)))
            Examples.move_x_50 Examples.json_reply /\
    TurnRecord.is_invalid_move rec = false /\
    TurnRecord.repair_attempted rec = true /\
    TurnRecord.repaired_response rec = Examples.json_reply /\
    TurnRecord.raw_response rec = RawText Examples.json_reply /\
    TurnRecord.raw_response rec <> RawText Examples.chatter.
Proof.
  intros E. split; [vm_compute; reflexivity|]. split; [vm_compute; reflexivity|].
  destruct (do_turn_for_player Examples.referee Examples.vanilla []) as [r log'] eqn:Hrun.
  vm_compute in Hrun. injection Hrun as <- <-.
  eexists _, _. split; [reflexivity|].
  split; [vm_compute; reflexivity|].
  repeat split; try (vm_compute; reflexivity).
  vm_compute. discriminate.
Qed.

(** The same in general: whatever the model and the decoders, the record
    built after a repair stores the repaired text in both places. *)
Lemma accepted_after_repair_texts `{Externals} (self : t) (player : Player.t)
    (reply : Reply.t) (move : Move.t) (repaired : pystr) :
  let rec := accepted_after_repair self player reply move repaired in
  TurnRecord.repair_attempted rec = true /\
  TurnRecord.repaired_response rec = repaired /\
  TurnRecord.raw_response rec = RawText repaired.
Proof. done. Qed.

End PipelineClaims.

(* ===================================================================== *)
(** * The parser and the move validator *)
(* ===================================================================== *)

Section ParseClaims.

Import Referee.

Lemma strip_trailing_commas_keeps (P : N -> Prop) (s : pystr) :
  forall skip, Forall P s -> Forall P (strip_trailing_commas skip s).
Proof.
  induction s as [|c s IH]; intros skip Hs; [done|].
  apply Forall_cons in Hs as [Hc Hs]. simpl.
  destruct skip as [|n]; [|by apply IH].
  destruct (is_comma c).
  - destruct (blanks_before_closer s); [by apply IH|].
    apply Forall_cons. split; [done|by apply IH].
  - apply Forall_cons. split; [done|by apply IH].
Qed.

(** No curly quotation mark survives the cosmetic repair. *)
Lemma cleanup_no_smart_quote (snippet : pystr) :
  Forall (fun c => is_smart_quote c = false) (cleanup snippet).
Proof.
  unfold cleanup. apply strip_trailing_commas_keeps.
  unfold PyStr.replace. rewrite <- !list_fmap_compose.
  apply Forall_fmap, Forall_forall. intros c _. unfold is_smart_quote, compose.
  destruct (N.eqb_spec c 8220) as [->|H1]; [reflexivity|].
  destruct (N.eqb_spec c 8221) as [->|H2]; [reflexivity|].
  destruct (N.eqb_spec c 8216) as [->|H3]; [reflexivity|].
  destruct (N.eqb_spec c 8217) as [->|H4]; [reflexivity|].
  by rewrite (proj2 (N.eqb_neq c 8220) H1), (proj2 (N.eqb_neq c 8221) H2),
       (proj2 (N.eqb_neq c 8216) H3), (proj2 (N.eqb_neq c 8217) H4).
Qed.

(** C4. The span is decoded by strict JSON first; if that raises, by the
    literal decoder, whose result counts only when it is a mapping; if
    that fails too, by strict JSON once more on the span with curly
    quotes made straight and trailing commas removed. It fails exactly
    when all three fail. With the reference decoders: the single-quoted
    reply is rejected by strict JSON and read by the literal decoder;
    the reply with curly quotes and a trailing comma is rejected by
    both, its repaired form is the plain JSON text, which strict JSON
    reads, and the player's turn is settled with the one model call of
    [make_move] and no repair. *)
Theorem decode_tries_three_decoders `{Externals} (snippet : pystr) :
  decode snippet =
    match json_loads snippet with
    | Ok d => Ok d
    | Raise _ =>
        match literal_eval snippet with
        | Ok (PyDict items) => Ok (PyDict items)
        | _ =>
            match json_loads (cleanup snippet) with
            | Ok d => Ok d
            | Raise _ => Raise (ValueError "Failed to parse JSON from response")
            end
        end
    end /\
  is_ok (decode snippet) =
    is_ok (json_loads snippet) || is_mapping (literal_eval snippet)
    || is_ok (json_loads (cleanup snippet)) /\
  Forall (fun c => is_smart_quote c = false) (cleanup snippet) /\
  (let E := Fragment.externals [Ok Examples.smart_quoted] in
   is_ok (@json_loads E Examples.single_quoted) = false /\
   is_mapping (@literal_eval E Examples.single_quoted) = true /\
   @parse_response E Examples.single_quoted = Ok Examples.move_x_50 /\
   is_ok (@json_loads E Examples.smart_quoted) = false /\
   is_ok (@literal_eval E Examples.smart_quoted) = false /\
   cleanup Examples.smart_quoted = Examples.json_reply /\
   @parse_response E Examples.smart_quoted = Ok Examples.move_x_50 /\
   exists rec log',
     @do_turn_for_player E Examples.referee Examples.vanilla [] = (Ok rec, log') /\
     TurnRecord.is_invalid_move rec = false /\
     TurnRecord.repair_attempted rec = false /\
     TurnRecord.move rec = Some Examples.move_x_50 /\
     length (calls_in log') = 1%nat).
Proof.
  assert (Hdecode : decode snippet =
    match json_loads snippet with
    | Ok d => Ok d
    | Raise _ =>
        match literal_eval snippet with
        | Ok (PyDict items) => Ok (PyDict items)
        | _ =>
            match json_loads (cleanup snippet) with
            | Ok d => Ok d
            | Raise _ => Raise (ValueError "Failed to parse JSON from response")
            end
        end
    end).
  { unfold decode, rtry, rbind.
    destruct (json_loads snippet) as [d|e]; [reflexivity|].
    destruct (literal_eval snippet) as [[]|e']; simpl; reflexivity. }
  split; [exact Hdecode|]. split.
  { rewrite Hdecode.
    destruct (json_loads snippet) as [d|e]; [reflexivity|].
    destruct (literal_eval snippet) as [[]|e']; simpl;
      destruct (json_loads (cleanup snippet)); reflexivity. }
  split; [apply cleanup_no_smart_quote|].
  intros E.
  repeat (split; [vm_compute; reflexivity|]).
  destruct (@do_turn_for_player E Examples.referee Examples.vanilla [])
    as [r log'] eqn:Hrun.
  vm_compute in Hrun. injection Hrun as <- <-.
  eexists _, _. split; [reflexivity|].
  repeat split; vm_compute; reflexivity.
Qed.

(** ** The validator of [guess] *)

Lemma compare_defined (x y : float) :
  PyFloat.is_nan x = false -> PyFloat.is_nan y = false -> SFcompare x y <> None.
Proof. by destruct x as [[]|[]| |[] ? ?], y as [[]|[]| |[] ? ?]. Qed.

Lemma clamp_guess_in_range (g : float) :
  PyFloat.between PyFloat.zero PyFloat.hundred g = true -> Move.clamp_guess g = g.
Proof.
  unfold PyFloat.between. intros [H0 H100]%andb_true_iff.
  unfold Move.clamp_guess.
  by rewrite (leb_not_ltb _ _ H0), (leb_not_gtb _ _ H100).
Qed.

Lemma clamp_guess_below (g : float) :
  PyFloat.ltb g PyFloat.zero = true -> Move.clamp_guess g = PyFloat.zero.
Proof. unfold Move.clamp_guess. by intros ->. Qed.

Lemma clamp_guess_above (g : float) :
  PyFloat.gtb g PyFloat.hundred = true -> Move.clamp_guess g = PyFloat.hundred.
Proof.
  unfold Move.clamp_guess. intros Hgt. rewrite Hgt.
  destruct (PyFloat.ltb g PyFloat.zero) eqn:Hlt; [|reflexivity].
  by destruct g as [[]|[]| |[] ? ?].
Qed.

(** What the validator guarantees: the result is within [[0, 100]] unless
    the value is a NaN, which compares false with both bounds and is
    returned as it is. *)
Lemma clamp_guess_range (g : float) :
  PyFloat.between PyFloat.zero PyFloat.hundred (Move.clamp_guess g) = true \/
  (PyFloat.is_nan g = true /\ Move.clamp_guess g = g).
Proof.
  destruct (PyFloat.is_nan g) eqn:Hnan.
  { right. split; [done|]. by destruct g. }
  left. unfold Move.clamp_guess.
  destruct (PyFloat.ltb g PyFloat.zero) eqn:Hlt; [reflexivity|].
  destruct (PyFloat.gtb g PyFloat.hundred) eqn:Hgt; [reflexivity|].
  unfold PyFloat.between, PyFloat.leb, SFleb. apply andb_true_iff. split.
  - rewrite (SFcompare_antisym g PyFloat.zero).
    unfold PyFloat.ltb, SFltb in Hlt.
    pose proof (compare_defined g PyFloat.zero Hnan eq_refl).
    destruct (SFcompare g PyFloat.zero) as [[]|]; done.
  - unfold PyFloat.gtb in Hgt.
    pose proof (compare_defined g PyFloat.hundred Hnan eq_refl).
    destruct (SFcompare g PyFloat.hundred) as [[]|]; done.
Qed.

Lemma create_guess_range `{Externals} (response_dict : pyobj) (move : Move.t) :
  Move.create response_dict = Ok move ->
  PyFloat.between PyFloat.zero PyFloat.hundred (Move.guess move) = true \/
  PyFloat.is_nan (Move.guess move) = true.
Proof.
  unfold Move.create. destruct response_dict; try discriminate.
  destruct (forallb _ items); [|discriminate].
  destruct (_ ≫= validate_str); [|discriminate].
  destruct (_ ≫= validate_float) as [value|]; [|discriminate].
  destruct (Move.optional validate_mapping _ _); [|discriminate].
  destruct (Move.optional validate_str _ _); [|discriminate].
  intros [= <-]. simpl.
  destruct (clamp_guess_range value) as [Hin|[Hnan Heq]]; [by left|].
  right. by rewrite Heq.
Qed.

(** C5, on the code. The validator is the identity on [[0, 100]], gives 0
    below and 100 above, yet a NaN passes through it: the reply whose
    guess is the JSON constant [NaN] is parsed into a move whose guess is
    not within [[0, 100]]. *)
Theorem clamp_guess_lets_nan_through :
  let E := Fragment.externals [] in
  Move.clamp_guess PyFloat.nan = PyFloat.nan /\
  PyFloat.between PyFloat.zero PyFloat.hundred PyFloat.nan = false /\
  @json_loads E Examples.nan_reply =
    Ok (PyDict [(PyStrV (str "secret strategy"), PyStrV (str "x"));
                (PyStrV (str "guess"), PyFloatV PyFloat.nan)]) /\
  exists move,
    @parse_response E Examples.nan_reply = Ok move /\
    Move.guess move = PyFloat.nan /\
    PyFloat.between PyFloat.zero PyFloat.hundred (Move.guess move) = false.
Proof.
  intros E. split; [reflexivity|]. split; [reflexivity|].
  split; [vm_compute; reflexivity|].
  destruct (@parse_response E Examples.nan_reply) as [move|e] eqn:Hparse;
    vm_compute in Hparse; [|discriminate].
  injection Hparse as <-. eexists. split; [reflexivity|]. split; reflexivity.
Qed.

End ParseClaims.

(* ===================================================================== *)
(** * A whole turn and a whole game *)
(* ===================================================================== *)

Section TurnFacts.

Context `{Externals}.
Import Referee.

(** Every name [build_player_map] holds designates a player of that
    name, and every player's name is held. *)
Lemma build_player_map_sound (full : list Player.t) (ps : list Player.t) :
  forall i m,
  (forall j q, ps !! j = Some q -> full !! (i + j)%nat = Some q) ->
  (forall n j, m !! n = Some j ->
     exists q, full !! j = Some q /\ Player.name q = n) ->
  forall n j, build_player_map i ps m !! n = Some j ->
    exists q, full !! j = Some q /\ Player.name q = n.
Proof.
  induction ps as [|p ps IH]; intros i m Hps Hm n j; simpl; [by apply Hm|].
  apply IH.
  - intros j' q Hq. replace (S i + j')%nat with (i + S j')%nat by lia. by apply Hps.
  - intros n' j' Hn'. destruct (decide (Player.name p = n')) as [<-|Hne].
    + rewrite lookup_insert_eq in Hn'. injection Hn' as <-.
      exists p. split; [|done]. specialize (Hps 0%nat p eq_refl).
      by rewrite Nat.add_0_r in Hps.
    + rewrite lookup_insert_ne in Hn' by done. by apply Hm.
Qed.

Lemma build_player_map_complete (ps : list Player.t) :
  forall i m n,
  (is_Some (m !! n) \/ exists p, p ∈ ps /\ Player.name p = n) ->
  is_Some (build_player_map i ps m !! n).
Proof.
  induction ps as [|p ps IH]; intros i m n Hn; simpl.
  - destruct Hn as [Hn|(p & Hp & _)]; [done|]. by apply not_elem_of_nil in Hp.
  - apply IH. destruct Hn as [Hn|(q & Hq & Hname)].
    + left. destruct (decide (Player.name p = n)) as [<-|Hne].
      * by rewrite lookup_insert_eq.
      * by rewrite lookup_insert_ne.
    + apply elem_of_cons in Hq as [->|Hq].
      * left. rewrite Hname. by rewrite lookup_insert_eq.
      * right. by exists q.
Qed.

Lemma init_resolves (ps : list Player.t) (n : Z) (p : Player.t) :
  p ∈ ps -> resolves (init ps n) (Player.name p) = true.
Proof.
  intros Hp. unfold resolves, player_of, init. simpl.
  destruct (build_player_map_complete ps 0 ∅ (Player.name p)) as [j Hj].
  { right. by exists p. }
  rewrite Hj.
  destruct (build_player_map_sound ps ps 0 ∅) with (n := Player.name p) (j := j)
    as (q & Hq & Hname); try done.
  rewrite Hq. by apply pystr_eqb_eq.
Qed.

Lemma dict_set_keys {A} (k : pystr) (v : A) (d : list (pystr * A)) :
  forall kv, kv ∈ dict_set k v d -> kv.1 = k \/ exists kv', kv' ∈ d /\ kv'.1 = kv.1.
Proof.
  induction d as [|[k' v'] d IH]; intros kv Hin; simpl in Hin.
  - apply list_elem_of_singleton in Hin as ->. by left.
  - destruct (PyStr.eqb k' k) eqn:Hk.
    + apply elem_of_cons in Hin as [->|Hin].
      * left. by apply pystr_eqb_eq.
      * right. exists kv. split; [by right|done].
    + apply elem_of_cons in Hin as [->|Hin].
      * right. exists (k', v'). split; [by left|done].
      * destruct (IH kv Hin) as [Heq|(kv' & Hin' & Heq)]; [by left|].
        right. exists kv'. split; [by right|done].
Qed.

Lemma dict_set_unique {A} (k : pystr) (v : A) (d : list (pystr * A)) :
  unique_keys d = true -> unique_keys (dict_set k v d) = true.
Proof.
  induction d as [|[k' v'] d IH]; intros Hu; simpl; [done|].
  simpl in Hu. apply andb_true_iff in Hu as [Hfresh Hu].
  destruct (PyStr.eqb k' k) eqn:Hk; simpl.
  - by rewrite Hfresh, Hu.
  - rewrite (IH Hu), andb_true_r.
    apply forallb_forall. intros kv Hin%list_elem_of_In.
    destruct (dict_set_keys k v d kv Hin) as [Heq|(kv' & Hin' & Heq)].
    + rewrite Heq. apply negb_true_iff.
      destruct (PyStr.eqb k k') eqn:Hkk; [|done].
      apply pystr_eqb_eq in Hkk as ->.
      by rewrite (proj2 (pystr_eqb_eq k' k') eq_refl) in Hk.
    + rewrite forallb_forall in Hfresh. rewrite <- Heq.
      by apply Hfresh, list_elem_of_In.
Qed.

Lemma resolves_records (self : t) recs name :
  resolves (mk (players self) (turn self) recs (player_map self)) name =
  resolves self name.
Proof. reflexivity. Qed.

(** Storing records of known players never raises and leaves a referee
    [handle_turn] can work on. *)
Lemma store_records_spec (recs : list TurnRecord.t) :
  forall self,
  wf self = true ->
  (forall rec, rec ∈ recs -> resolves self (TurnRecord.name rec) = true) ->
  exists self',
    store_records self recs = Ok self' /\ wf self' = true /\
    players self' = players self /\ turn self' = turn self.
Proof.
  induction recs as [|rec recs IH]; intros self Hwf Hknown; simpl.
  - by exists self.
  - assert (Hrec : resolves self (TurnRecord.name rec) = true) by (apply Hknown; left).
    unfold player_with_name.
    destruct (player_of self (TurnRecord.name rec)) as [ip|] eqn:Hip;
      [|by unfold resolves in Hrec; rewrite Hip in Hrec].
    simpl.
    destruct (IH (mk (players self) (turn self)
                     (dict_set (TurnRecord.name rec) rec (records self))
                     (player_map self)))
      as (self' & Hrun & Hwf' & Hp & Ht).
    + unfold wf in *. simpl. apply andb_true_iff in Hwf as [Hu Hall].
      apply andb_true_iff. split; [by apply dict_set_unique|].
      apply forallb_forall. intros kv Hin%list_elem_of_In.
      rewrite resolves_records.
      destruct (dict_set_keys _ _ _ kv Hin) as [->|(kv' & Hin' & <-)]; [done|].
      rewrite forallb_forall in Hall. by apply Hall, list_elem_of_In.
    + intros r Hr. rewrite resolves_records. apply Hknown. by right.
    + exists self'. by rewrite Hrun.
Qed.

(** A turn of the referee on a line-up that is not empty: it returns, and
    the players are as many as before. *)
Lemma referee_do_turn_total (ps : list Player.t) (n : Z) (log : list event) :
  ps <> [] ->
  exists self' log',
    do_turn (init ps n) log = (Ok self', log') /\
    length (players self') = length ps.
Proof.
  intros Hne. unfold do_turn. change (players (init ps n)) with ps.
  destruct ps as [|p0 ps0] eqn:Hps; [done|]. rewrite <- Hps in *. clear Hne.
  destruct (map_players_total (init ps n) ps log) as (recs & log1 & Hrecs & Hnames).
  unfold bind at 1. rewrite Hrecs. unfold bind at 1, lift at 1.
  destruct (store_records_spec recs (init ps n)) as (self1 & Hstore & Hwf & Hp & _).
  - reflexivity.
  - intros rec Hrec.
    apply list_elem_of_lookup in Hrec as [k Hk].
    assert (Hk' : (TurnRecord.name <$> recs) !! k = Some (TurnRecord.name rec))
      by by rewrite list_lookup_fmap, Hk.
    rewrite Hnames, list_lookup_fmap in Hk'.
    destruct (ps !! k) as [p|] eqn:Hpk; [|done]. injection Hk' as <-.
    apply init_resolves, list_elem_of_lookup. by exists k.
  - rewrite Hstore.
    destruct (handle_turn_spec self1 Hwf) as (self' & Hrun & _ & _ & Hlen & _).
    exists self', log1. unfold lift. rewrite Hrun. split; [done|].
    by rewrite Hlen, Hp.
Qed.

End TurnFacts.

Section ArenaFacts.

Context `{Externals}.
Import Arena.

Lemma nonempty_length {A} (l : list A) : l <> [] <-> (0 < length l)%nat.
Proof. destruct l; simpl; split; try done; try lia. Qed.

Lemma apply_starter_policy_spec (self : t) (log : list event) :
  exists self',
    apply_starter_policy self log = (Ok self', log) /\
    turn self' = turn self /\ is_game_over self' = is_game_over self /\
    length (players self') = length (players self).
Proof.
  unfold apply_starter_policy.
  destruct (players self !! starter log (players self)) as [s|] eqn:Hs.
  - eexists. repeat split. simpl.
    rewrite length_delete; [|by eexists].
    apply lookup_lt_Some in Hs. lia.
  - by exists self.
Qed.

Lemma prepare_for_turn_spec (self : t) (log : list event) :
  exists self',
    prepare_for_turn self log = (Ok self', log) /\
    turn self' = turn self /\ is_game_over self' = is_game_over self /\
    length (players self') = length (players self).
Proof.
  unfold prepare_for_turn, bind.
  destruct (apply_starter_policy_spec self log) as (self1 & -> & Ht & Ho & Hl).
  eexists. split; [reflexivity|]. simpl. by rewrite length_fmap.
Qed.

(** While the counter is below ten the outcome of a turn is one more on
    the counter; the game goes on. *)
Lemma process_turn_outcome_running (self : t) :
  turn self <> 10 -> is_game_over self = false ->
  exists self',
    process_turn_outcome self = Ok self' /\
    turn self' = turn self + 1 /\ is_game_over self' = false /\
    length (players self') = length (players self).
Proof.
  intros Hturn Hover. unfold process_turn_outcome.
  rewrite (proj2 (Z.eqb_neq _ _) Hturn), Hover. simpl.
  eexists. split; [reflexivity|]. simpl. by rewrite length_fmap.
Qed.

Lemma max_of_nonempty (xs : list float) :
  xs <> [] -> exists m, max_of xs = Ok m.
Proof. destruct xs; [done|]. by eexists. Qed.

(** [max] started on NaN stays there: nothing compares greater. *)
Lemma foldl_max_nan (xs : list float) (acc : float) :
  PyFloat.is_nan acc = true -> foldl PyFloat.max acc xs = acc.
Proof.
  intros Hnan. induction xs as [|y ys IH]; simpl; [done|].
  assert (PyFloat.max acc y = acc) as ->; [|exact IH].
  unfold PyFloat.max. by rewrite (gtb_nan_r y acc Hnan).
Qed.

Lemma foldl_max_spec (xs : list float) :
  forall acc,
  (foldl PyFloat.max acc xs = acc \/ foldl PyFloat.max acc xs ∈ xs) /\
  PyFloat.gtb acc (foldl PyFloat.max acc xs) = false /\
  forall x, x ∈ xs -> PyFloat.gtb x (foldl PyFloat.max acc xs) = false.
Proof.
  induction xs as [|y ys IH]; intros acc; simpl.
  - split; [by left|]. split; [apply gtb_irrefl|]. intros x Hx. by apply elem_of_nil in Hx.
  - destruct (IH (PyFloat.max acc y)) as (Hin & Hacc & Hall).
    assert (Hmax : PyFloat.max acc y = if PyFloat.gtb y acc then y else acc) by reflexivity.
    rewrite Hmax in *. clear Hmax. destruct (PyFloat.gtb y acc) eqn:Hy.
    + split; [right; destruct Hin as [-> |Hin]; [left | by right]|].
      split; [exact (gtb_chain_below _ _ _ Hy Hacc)|].
      intros x [-> |Hx]%elem_of_cons; [exact Hacc | by apply Hall].
    + split; [destruct Hin as [Hin|Hin]; [by left | by right; right]|].
      split; [exact Hacc|].
      intros x [-> |Hx]%elem_of_cons; [|by apply Hall].
      destruct (PyFloat.is_nan acc) eqn:Hnan.
      * rewrite (foldl_max_nan ys acc Hnan). by apply gtb_nan_r.
      * exact (gtb_chain_through _ _ _ Hnan Hy Hacc).
Qed.

(** What [max] returns is one of the items, and no item is greater. *)
Lemma max_of_spec (xs : list float) (m : float) :
  max_of xs = Ok m ->
  m ∈ xs /\ forall x, x ∈ xs -> PyFloat.gtb x m = false.
Proof.
  destruct xs as [|x0 xs]; [done|]. simpl. intros [= <-].
  destruct (foldl_max_spec xs x0) as (Hin & Hacc & Hall).
  split.
  - destruct Hin as [-> |Hin]; [left | by right].
  - intros x [-> |Hx]%elem_of_cons; [exact Hacc | by apply Hall].
Qed.

(** At ten the game is over and the players at the top are the winners. *)
Lemma process_turn_outcome_last (self : t) :
  turn self = 10 -> players self <> [] ->
  exists self' winning_score,
    process_turn_outcome self = Ok self' /\
    turn self' = 10 /\ is_game_over self' = true /\
    max_of (Player.score <$> players self') = Ok winning_score /\
    forall p, p ∈ players self' ->
      PyFloat.eqb (Player.score p) winning_score = true -> Player.is_winner p = true.
Proof.
  intros Hturn Hne. unfold process_turn_outcome. rewrite Hturn. simpl.
  unfold handle_game_over. simpl.
  set (ps := (fun player => Player.set_series _ player) <$> players self).
  destruct (max_of_nonempty (Player.score <$> ps)) as [w Hw].
  { subst ps. destruct (players self); done. }
  rewrite Hw. simpl. eexists _, w. split; [reflexivity|]. simpl.
  repeat split; try done.
  - rewrite <- Hw. f_equal. rewrite <- list_fmap_compose.
    apply list_fmap_ext. intros _ p _. simpl.
    by destruct (PyFloat.eqb (Player.score p) w).
  - intros p Hp Hscore. apply list_elem_of_fmap in Hp as (q & -> & Hq).
    destruct (PyFloat.eqb (Player.score q) w) eqn:Hq'; [reflexivity|].
    by rewrite Hq' in Hscore.
Qed.

Lemma do_turn_running (self : t) (log : list event) :
  players self <> [] -> turn self <> 10 -> is_game_over self = false ->
  exists self' log',
    do_turn self log = (Ok self', log') /\
    turn self' = turn self + 1 /\ is_game_over self' = false /\
    players self' <> [].
Proof.
  intros Hne Hturn Hover. unfold do_turn.
  destruct (prepare_for_turn_spec self log) as (self1 & Hprep & Ht & Ho & Hl).
  unfold bind at 1. rewrite Hprep.
  apply nonempty_length in Hne.
  destruct (referee_do_turn_total (players self1) (turn self1) log)
    as (ref & log' & Href & Hlen).
  { apply nonempty_length. lia. }
  unfold bind at 1. rewrite Href. unfold lift.
  destruct (process_turn_outcome_running
              (mk (Referee.players ref) (turn self1) (is_game_over self1)))
    as (self' & Hout & Ht' & Ho' & Hl'); simpl; [congruence|congruence|].
  exists self', log'. rewrite Hout. simpl in *. repeat split; try done.
  - congruence.
  - apply nonempty_length. lia.
Qed.

Lemma do_turn_last (self : t) (log : list event) :
  players self <> [] -> turn self = 10 ->
  exists self' log' winning_score,
    do_turn self log = (Ok self', log') /\
    turn self' = 10 /\ is_game_over self' = true /\
    max_of (Player.score <$> players self') = Ok winning_score /\
    forall p, p ∈ players self' ->
      PyFloat.eqb (Player.score p) winning_score = true -> Player.is_winner p = true.
Proof.
  intros Hne Hturn. unfold do_turn.
  destruct (prepare_for_turn_spec self log) as (self1 & Hprep & Ht & Ho & Hl).
  unfold bind at 1. rewrite Hprep.
  apply nonempty_length in Hne.
  destruct (referee_do_turn_total (players self1) (turn self1) log)
    as (ref & log' & Href & Hlen).
  { apply nonempty_length. lia. }
  unfold bind at 1. rewrite Href. unfold lift.
  destruct (process_turn_outcome_last
              (mk (Referee.players ref) (turn self1) (is_game_over self1)))
    as (self' & w & Hout & Ht' & Ho' & Hw & Hwin); simpl; [congruence| |].
  { apply nonempty_length. lia. }
  exists self', log', w. by rewrite Hout.
Qed.

Lemma play_running (n : nat) :
  forall self log,
  players self <> [] -> is_game_over self = false ->
  0 < turn self -> turn self + Z.of_nat n <= 10 ->
  exists self' log',
    play n self log = (Ok self', log') /\
    turn self' = turn self + Z.of_nat n /\ is_game_over self' = false /\
    players self' <> [].
Proof.
  induction n as [|n IH]; intros self log Hne Hover Hpos Hle.
  - exists self, log. simpl. repeat split; try done. lia.
  - destruct (do_turn_running self log) as (self1 & log1 & Hrun & Ht & Ho & Hne1);
      [done|lia|done|].
    destruct (IH self1 log1) as (self' & log' & Hplay & Ht' & Ho' & Hne'); [done|done|lia|lia|].
    exists self', log'. cbn [play]. unfold bind at 1. rewrite Hrun.
    split; [exact Hplay|]. repeat split; try done. lia.
Qed.

Lemma play_snoc (n : nat) :
  forall self log,
  play (S n) self log =
  match play n self log with
  | (Ok self', log') => do_turn self' log'
  | (Raise e, log') => (Raise e, log')
  end.
Proof.
  induction n as [|n IH]; intros self log.
  - cbn [play]. unfold bind, ret. by destruct (do_turn self log) as [[]].
  - change (play (S (S n)) self log) with (bind (do_turn self) (play (S n)) log).
    change (play (S n) self log) with (bind (do_turn self) (play n) log).
    unfold bind. destruct (do_turn self log) as [[self1|e] log1]; [|done].
    apply IH.
Qed.

End ArenaFacts.

Section ArenaClaims.

Import Arena.

(** C9. A game on a line-up that is not empty, whatever the models
    answer: each of the first nine turns completes with the game still
    running and the counter one higher, so that it reads [1 + n] after
    [n] turns; the tenth turn completes with the counter at ten,
    [is_game_over] set, and every player whose score equals the maximum
    of the scores marked as a winner, however many they are. The
    maximum is what [max] returns on the scores: the score of one of the
    players, with no player's score greater. *)
Theorem game_over_after_ten_turns `{Externals}
    (line_up : list Player.t) (log : list event) (Hplayers : line_up <> []) :
  (forall n, (n < 10)%nat ->
     exists arena log',
       (let* a := init line_up in play n a) log = (Ok arena, log') /\
       turn arena = 1 + Z.of_nat n /\ is_game_over arena = false) /\
  (exists arena log' winning_score,
     (let* a := init line_up in play 10 a) log = (Ok arena, log') /\
     turn arena = 10 /\ is_game_over arena = true /\
     max_of (Player.score <$> players arena) = Ok winning_score /\
     (exists p, p ∈ players arena /\ Player.score p = winning_score) /\
     (forall p, p ∈ players arena ->
        PyFloat.gtb (Player.score p) winning_score = false) /\
     forall p, p ∈ players arena ->
       PyFloat.eqb (Player.score p) winning_score = true ->
       Player.is_winner p = true).
Proof.
  unfold init.
  destruct (apply_starter_policy_spec (mk line_up 1 false) log)
    as (a0 & Hinit & Ht0 & Ho0 & Hl0).
  simpl in Ht0, Ho0, Hl0.
  assert (Hne0 : players a0 <> []).
  { apply nonempty_length. apply nonempty_length in Hplayers. lia. }
  split.
  - intros n Hn.
    destruct (play_running n a0 log) as (arena & log' & Hplay & Ht & Ho & _);
      [done|done|lia|lia|].
    exists arena, log'. unfold bind. rewrite Hinit.
    split; [exact Hplay|]. split; [lia|done].
  - destruct (play_running 9 a0 log) as (a9 & log9 & Hplay & Ht & Ho & Hne9);
      [done|done|lia|lia|].
    destruct (do_turn_last a9 log9) as (arena & log' & w & Hrun & Ht' & Ho' & Hw & Hwin);
      [done|lia|].
    destruct (max_of_spec _ _ Hw) as [Hin Hub].
    exists arena, log', w. unfold bind. rewrite Hinit.
    rewrite play_snoc, Hplay. split; [exact Hrun|].
    split; [exact Ht'|]. split; [exact Ho'|]. split; [exact Hw|].
    split; [|split; [|exact Hwin]].
    + apply list_elem_of_fmap in Hin as (p & -> & Hp). by exists p.
    + intros p Hp. apply Hub. apply list_elem_of_fmap. by exists p.
Qed.

Lemma game_over_after_ten_turns_witness :
  let E := Fragment.externals Examples.ten_turns in
  Examples.trio <> [] /\
  exists arena log',
    (let* a := init Examples.trio in play 10 a) [] = (Ok arena, log') /\
    turn arena = 10 /\ is_game_over arena = true /\
    Player.name <$> players arena = [str "Vanilla"; str "Strategic"; str "Agressor"] /\
    Player.is_winner <$> players arena = [true; true; false].
Proof.
  intros E. split; [discriminate|].
  destruct (game_over_after_ten_turns (H:=E) Examples.trio [])
    as [_ (arena & log' & w & Hrun & Ht & Ho & _)]; [discriminate|].
  exists arena, log'. split; [exact Hrun|]. split; [exact Ht|]. split; [exact Ho|].
  vm_compute in Hrun. injection Hrun as <- _.
  split; vm_compute; reflexivity.
Defined.

End ArenaClaims.

(* ===================================================================== *)
(** * Scores never go down *)
(* ===================================================================== *)

Section Monotone.

Import Referee.

Lemma delta_of_distance_nonneg (distance : float) :
  PyFloat.leb PyFloat.zero (delta_of_distance distance) = true.
Proof. apply max_zero_nonneg. Qed.

(** Whatever the distance is, the score delta is a value of the format. *)
Lemma delta_of_distance_valid (distance : float) :
  PyFloat.valid (delta_of_distance distance) = true.
Proof.
  unfold delta_of_distance, PyFloat.max.
  destruct (PyFloat.gtb _ _); [|reflexivity].
  destruct distance as [[]|[]| |sd md ed]; try reflexivity.
  apply binary_normalize_valid.
Qed.

Lemma score_record_delta (target : option float) (p : Player.t) (rec : TurnRecord.t) :
  exists d,
    TurnRecord.score_delta (score_record target p rec).2 = Some d /\
    PyFloat.leb PyFloat.zero d = true /\
    (d = PyFloat.zero \/
     exists distance,
       TurnRecord.distance_from_target (score_record target p rec).2 = Some distance /\
       d = PyFloat.max PyFloat.zero (PyFloat.hundred - distance)%F).
Proof.
  unfold score_record.
  destruct rec as [? ? inv ? ? ? ? ? ? ? ? ? ? ? ? [ag|] ? ? ? ? ?]; simpl;
    destruct inv, target as [tgt|]; simpl;
    try (exists PyFloat.zero; split; [reflexivity|]; split; [reflexivity|by left]).
  eexists. split; [reflexivity|]. split; [apply delta_of_distance_nonneg|].
  right. eexists. split; reflexivity.
Qed.

Lemma score_record_score (target : option float) (p : Player.t) (rec : TurnRecord.t) :
  Player.score (score_record target p rec).1 = Player.score p \/
  exists distance,
    Player.score (score_record target p rec).1 =
      (Player.score p + delta_of_distance distance)%F.
Proof.
  unfold score_record.
  destruct (TurnRecord.is_invalid_move rec), (TurnRecord.applied_guess rec), target;
    simpl; try (by left).
  right. by eexists.
Qed.

(** C10. On every turn [handle_turn] returns; every record ends with a
    score delta that is not below zero, either 0.0 or
    [max(0, 100 - distance)] for the distance on the record; and no
    player's score is lower afterwards than it was before: [after <
    before] is false for every player. Scores that are binary64 values
    on entry are binary64 values on exit. *)
Theorem handle_turn_never_lowers_scores (self : t)
    (Hwf : wf self = true)
    (Hscores : forall p, p ∈ players self -> PyFloat.valid (Player.score p) = true) :
  exists self', handle_turn self = Ok self' /\
    (forall k name rec',
       records self' !! k = Some (name, rec') ->
       exists d,
         TurnRecord.score_delta rec' = Some d /\
         PyFloat.leb PyFloat.zero d = true /\
         (d = PyFloat.zero \/
          exists distance,
            TurnRecord.distance_from_target rec' = Some distance /\
            d = PyFloat.max PyFloat.zero (PyFloat.hundred - distance)%F)) /\
    length (players self') = length (players self) /\
    (forall j p p',
       players self !! j = Some p -> players self' !! j = Some p' ->
       PyFloat.ltb (Player.score p') (Player.score p) = false /\
       PyFloat.valid (Player.score p') = true).
Proof.
  destruct (handle_turn_spec self Hwf)
    as (self' & Hrun & _ & _ & Hlen & Hlr & Hrec & Hkeep).
  exists self'. split; [done|]. split; [|split; [done|]].
  - intros k name rec' Hk.
    destruct (records self !! k) as [[name0 rec]|] eqn:Hk0.
    + destruct (Hrec k name0 rec Hk0) as (i & p & _ & _ & Hk').
      rewrite Hk in Hk'. injection Hk' as -> ->.
      apply score_record_delta.
    + apply lookup_ge_None in Hk0. apply lookup_lt_Some in Hk. lia.
  - intros j p p' Hp Hp'.
    assert (Hvalid : PyFloat.valid (Player.score p) = true).
    { apply Hscores, list_elem_of_lookup. by exists j. }
    destruct (decide (Exists (fun kv => player_map self !! kv.1 = Some j) (records self)))
      as [(kv & Hin & Hj)%Exists_exists|Hno].
    + apply list_elem_of_lookup in Hin as [k Hk]. destruct kv as [name rec].
      destruct (Hrec k name rec Hk) as (i & p0 & Hp0 & Hps & _).
      unfold player_of in Hp0. simpl in Hj. rewrite Hj, Hp in Hp0.
      injection Hp0 as <- <-. rewrite Hp' in Hps. injection Hps as ->.
      destruct (score_record_score (compute_target self) p rec) as [->|[distance ->]].
      * split; [apply ltb_irrefl|done].
      * split.
        -- apply add_nonneg_not_below; [done|apply delta_of_distance_nonneg].
        -- apply add_valid; [done|apply delta_of_distance_valid].
    + rewrite Hkeep in Hp'.
      * rewrite Hp in Hp'. injection Hp' as <-. split; [apply ltb_irrefl|done].
      * intros kv Hin Hj. apply Hno, Exists_exists. by exists kv.
Qed.

Lemma handle_turn_never_lowers_scores_witness :
  wf Examples.turn_30_50_40 = true /\
  (forall p, p ∈ players Examples.turn_30_50_40 ->
     PyFloat.valid (Player.score p) = true) /\
  exists self', handle_turn Examples.turn_30_50_40 = Ok self' /\
    Player.score <$> players self' = PyFloat.of_Z <$> [98; 78; 88] /\
    forall j p p',
      players Examples.turn_30_50_40 !! j = Some p -> players self' !! j = Some p' ->
      PyFloat.ltb (Player.score p') (Player.score p) = false.
Proof.
  assert (Hscores : forall p, p ∈ players Examples.turn_30_50_40 ->
                      PyFloat.valid (Player.score p) = true).
  { intros p Hp. repeat (apply elem_of_cons in Hp as [->|Hp]; [reflexivity|]).
    by apply not_elem_of_nil in Hp. }
  split; [reflexivity|]. split; [exact Hscores|].
  destruct (handle_turn_never_lowers_scores Examples.turn_30_50_40 eq_refl Hscores)
    as (self' & Hrun & _ & _ & Hmono).
  exists self'. split; [exact Hrun|]. split.
  - vm_compute in Hrun. injection Hrun as <-. vm_compute. reflexivity.
  - intros j p p' Hp Hp'. exact (proj1 (Hmono j p p' Hp Hp')).
Defined.

End Monotone.
(* ===================================================================== *)
(** * The span [parse_response] reads *)
(* ===================================================================== *)

(** A decidable fact about concrete data, settled by evaluation. *)
Ltac decided := refine (bool_decide_unpack _ _); vm_compute; exact I.

Section ExtractFacts.

Import Referee.

Local Abbreviation lbrace := 123%N.
Local Abbreviation rbrace := 125%N.

Lemma find_from_notin (c : N) (s : list N) :
  forall i, c ∉ s -> PyStr.find_from c s i = -1.
Proof.
  induction s as [|x s IH]; intros i Hc; simpl; [done|].
  apply not_elem_of_cons in Hc as [Hx Hs].
  destruct (N.eqb_spec x c) as [->|_]; [done|]. by apply IH.
Qed.

Lemma find_from_app (c : N) (pre post : list N) :
  forall i, c ∉ pre -> PyStr.find_from c (pre ++ c :: post) i = i + Z.of_nat (length pre).
Proof.
  induction pre as [|x pre IH]; intros i Hc; simpl.
  - rewrite N.eqb_refl. lia.
  - apply not_elem_of_cons in Hc as [Hx Hs].
    destruct (N.eqb_spec x c) as [->|_]; [done|]. rewrite IH by done. lia.
Qed.

Lemma rfind_from_notin (c : N) (s : list N) :
  forall i last, c ∉ s -> PyStr.rfind_from c s i last = last.
Proof.
  induction s as [|x s IH]; intros i last Hc; simpl; [done|].
  apply not_elem_of_cons in Hc as [Hx Hs].
  destruct (N.eqb_spec x c) as [->|_]; [done|]. by apply IH.
Qed.

Lemma rfind_from_app (c : N) (pre post : list N) :
  forall i last, c ∉ post -> PyStr.rfind_from c (pre ++ c :: post) i last = i + Z.of_nat (length pre).
Proof.
  induction pre as [|x pre IH]; intros i last Hc; simpl.
  - rewrite N.eqb_refl, rfind_from_notin by done. lia.
  - rewrite IH by done. lia.
Qed.

(** A text with a closing brace somewhere after an opening one reads as
    [pre ++ {body} ++ post] with no opening brace in [pre] and no closing
    one in [post]; any other text has no such pair. *)
Lemma span_or_none (r : list N) :
  (exists pre body post,
     r = pre ++ (lbrace :: body ++ [rbrace]) ++ post /\
     (lbrace ∉ pre) /\ (rbrace ∉ post)) \/
  (forall i j, r !! i = Some lbrace -> r !! j = Some rbrace -> (j <= i)%nat).
Proof.
  destruct (decide (lbrace ∈ r)) as [Hl|Hl]; cycle 1.
  { right. intros i j Hi _. destruct Hl. apply list_elem_of_lookup. by exists i. }
  destruct (decide (rbrace ∈ r)) as [Hr|Hr]; cycle 1.
  { right. intros i j _ Hj. destruct Hr. apply list_elem_of_lookup. by exists j. }
  apply list_elem_of_split_l in Hl as (p1 & q1 & Hr1 & Hp1).
  apply list_elem_of_split_r in Hr as (p2 & q2 & Hr2 & Hq2).
  assert (Hfirst : forall i, r !! i = Some lbrace -> (length p1 <= i)%nat).
  { intros i Hi. destruct (decide (i < length p1)%nat) as [Hlt|]; [|lia].
    destruct Hp1. rewrite Hr1 in Hi. rewrite lookup_app_l in Hi by done.
    apply list_elem_of_lookup. by exists i. }
  assert (Hlast : forall j, r !! j = Some rbrace -> (j <= length p2)%nat).
  { intros j Hj. destruct (decide (j <= length p2)%nat) as [|Hgt]; [done|].
    destruct Hq2. rewrite Hr2 in Hj.
    rewrite lookup_app_r in Hj by lia.
    destruct (j - length p2)%nat as [|k] eqn:Hk; [lia|]. simpl in Hj.
    apply list_elem_of_lookup. by exists k. }
  destruct (decide (length p1 < length p2)%nat) as [Hlt|Hge]; cycle 1.
  { right. intros i j Hi Hj. specialize (Hfirst i Hi). specialize (Hlast j Hj). lia. }
  left. exists p1.
  assert (Hp2 : p2 = p1 ++ lbrace :: drop (S (length p1)) p2).
  { rewrite <- (take_drop (S (length p1)) p2) at 1.
    rewrite (cons_middle lbrace), app_assoc. f_equal.
    assert (take (S (length p1)) p2 = take (S (length p1)) r) as ->.
    { rewrite Hr2. by rewrite take_app_le by lia. }
    rewrite Hr1, (cons_middle lbrace), app_assoc.
    rewrite take_app_length'; [done|]. rewrite length_app. simpl. lia. }
  exists (drop (S (length p1)) p2), q2. split; [|done].
  rewrite Hr2 at 1. rewrite Hp2 at 1. rewrite <- !app_assoc. simpl.
  by rewrite <- !app_assoc.
Qed.

Lemma extract_intro (pre body post : list N) :
  lbrace ∉ pre -> rbrace ∉ post ->
  extract (pre ++ (lbrace :: body ++ [rbrace]) ++ post) = Ok (lbrace :: body ++ [rbrace]).
Proof.
  intros Hpre Hpost.
  set (r := pre ++ (lbrace :: body ++ [rbrace]) ++ post).
  assert (E1 : r = pre ++ lbrace :: (body ++ rbrace :: post)).
  { subst r. simpl. by rewrite <- app_assoc. }
  assert (E2 : r = (pre ++ lbrace :: body) ++ rbrace :: post).
  { rewrite E1. by rewrite <- app_assoc. }
  assert (Hf : PyStr.find lbrace r = Z.of_nat (length pre)).
  { unfold PyStr.find. rewrite E1, find_from_app by done. lia. }
  assert (Hl : PyStr.rfind rbrace r = Z.of_nat (length pre + S (length body))).
  { unfold PyStr.rfind. rewrite E2, rfind_from_app by done.
    rewrite length_app. simpl. lia. }
  unfold extract. rewrite Hf, Hl. cbv zeta.
  set (a := Z.of_nat (length pre)).
  set (b := Z.of_nat (length pre + S (length body))).
  assert (Hab : 0 <= a < b /\ b = a + Z.of_nat (S (length body))) by lia.
  replace (a =? -1) with false by (symmetry; apply Z.eqb_neq; lia).
  replace (b =? -1) with false by (symmetry; apply Z.eqb_neq; lia).
  replace (b <=? a) with false by (symmetry; apply Z.leb_gt; lia).
  simpl. f_equal. unfold PyStr.slice.
  replace (Z.to_nat a) with (length pre) by lia.
  replace (Z.to_nat (b + 1 - a)) with (length (lbrace :: body ++ [rbrace]))
    by (simpl; rewrite length_app; simpl; lia).
  subst r. rewrite drop_app_length. by rewrite take_app_length.
Qed.

Lemma extract_none (r : list N) :
  (forall i j, r !! i = Some lbrace -> r !! j = Some rbrace -> (j <= i)%nat) ->
  extract r = Raise (ValueError "No JSON object found in response").
Proof.
  intros Hnone.
  unfold extract.
  destruct (decide (lbrace ∈ r)) as [Hl|Hl]; cycle 1.
  { unfold PyStr.find. by rewrite find_from_notin. }
  destruct (decide (rbrace ∈ r)) as [Hr|Hr]; cycle 1.
  { unfold PyStr.rfind. rewrite rfind_from_notin by done. simpl. by rewrite orb_true_r. }
  apply list_elem_of_split_l in Hl as (p1 & q1 & Hr1 & Hp1).
  apply list_elem_of_split_r in Hr as (p2 & q2 & Hr2 & Hq2).
  assert (Hle : (length p2 <= length p1)%nat).
  { apply (Hnone (length p1) (length p2)).
    - rewrite Hr1. by rewrite list_lookup_middle.
    - rewrite Hr2. by rewrite list_lookup_middle. }
  assert (Hf : PyStr.find lbrace r = Z.of_nat (length p1)).
  { unfold PyStr.find. rewrite Hr1, find_from_app by done. lia. }
  assert (Hl : PyStr.rfind rbrace r = Z.of_nat (length p2)).
  { unfold PyStr.rfind. rewrite Hr2, rfind_from_app by done. lia. }
  rewrite Hf, Hl. cbv zeta.
  replace (Z.of_nat (length p2) <=? Z.of_nat (length p1)) with true
    by (symmetry; apply Z.leb_le; lia).
  by rewrite !orb_true_r.
Qed.

(** X1. [parse_response] works on the text from the first opening brace
    to the last closing brace: when the extraction returns, the response
    is [pre ++ snippet ++ post], the snippet starts with the brace that
    opens and ends with the brace that closes, no opening brace is in
    [pre] and no closing one in [post]. It raises the [ValueError] when,
    and only when, no closing brace comes after an opening one. *)
Theorem extract_takes_outermost_span (response : pystr) :
  match extract response with
  | Ok snippet =>
      exists pre body post,
        response = pre ++ snippet ++ post /\
        snippet = lbrace :: body ++ [rbrace] /\
        (lbrace ∉ pre) /\ (rbrace ∉ post)
  | Raise e =>
      e = ValueError "No JSON object found in response" /\
      forall i j, response !! i = Some lbrace -> response !! j = Some rbrace ->
        (j <= i)%nat
  end.
Proof.
  destruct (span_or_none response) as [(pre & body & post & -> & Hpre & Hpost)|Hnone].
  - rewrite extract_intro by done. by exists pre, body, post.
  - by rewrite extract_none.
Qed.

(** X2. Prose around the object does not matter: text put in front that
    has no opening brace, and text put behind that has no closing brace,
    change neither the span that is extracted nor the result of
    [parse_response], be it a move or an error. *)
Theorem parse_response_ignores_surroundings `{Externals}
    (pre response post : pystr)
    (Hpre : lbrace ∉ pre) (Hpost : rbrace ∉ post) :
  extract (pre ++ response ++ post) = extract response /\
  parse_response (pre ++ response ++ post) = parse_response response.
Proof.
  assert (Hextract : extract (pre ++ response ++ post) = extract response).
  { destruct (span_or_none response) as [(p & body & q & -> & Hp & Hq)|Hnone].
    - rewrite (extract_intro p body q) by done.
      replace (pre ++ (p ++ (lbrace :: body ++ [rbrace]) ++ q) ++ post)
        with ((pre ++ p) ++ (lbrace :: body ++ [rbrace]) ++ (q ++ post))
        by (by rewrite <- !app_assoc).
      apply extract_intro.
      + intros [?|?]%elem_of_app; done.
      + intros [?|?]%elem_of_app; done.
    - rewrite (extract_none response) by done.
      apply extract_none. intros i j Hi Hj.
      assert (Hi' : (length pre <= i)%nat).
      { destruct (decide (length pre <= i)%nat) as [|Hlt]; [done|].
        destruct Hpre. rewrite lookup_app_l in Hi by lia.
        apply list_elem_of_lookup. by exists i. }
      assert (Hj' : (j < length pre + length response)%nat).
      { destruct (decide (j < length pre + length response)%nat) as [|Hge]; [done|].
        destruct Hpost. rewrite app_assoc in Hj.
        rewrite lookup_app_r in Hj by (rewrite length_app; lia).
        apply list_elem_of_lookup. by eexists. }
      destruct (decide (j < length pre)%nat) as [|Hjge]; [lia|].
      destruct (decide (i < length pre + length response)%nat) as [Hilt|]; [|lia].
      rewrite lookup_app_r in Hi, Hj by lia.
      rewrite lookup_app_l in Hi, Hj by lia.
      specialize (Hnone _ _ Hi Hj). lia. }
  split; [exact Hextract|]. unfold parse_response. by rewrite Hextract.
Qed.

Lemma parse_response_ignores_surroundings_witness :
  let E := Fragment.externals [] in
  (lbrace ∉ Cases.preamble) /\ (rbrace ∉ Cases.postscript) /\
  @parse_response E (Cases.preamble ++ Examples.json_reply ++ Cases.postscript) =
    @parse_response E Examples.json_reply /\
  @parse_response E Examples.json_reply = Ok Examples.move_x_50.
Proof.
  intros E.
  assert (H1 : lbrace ∉ Cases.preamble) by decided.
  assert (H2 : rbrace ∉ Cases.postscript) by decided.
  split; [exact H1|]. split; [exact H2|].
  split.
  - exact (proj2 (parse_response_ignores_surroundings (H:=E) _ Examples.json_reply _ H1 H2)).
  - vm_compute. reflexivity.
Defined.

(** ** The cosmetic repair *)

Lemma blanks_before_closer_cons (c : N) (s : list N) (n : nat) :
  blanks_before_closer (c :: s) = Some (S n) ->
  is_space c = true /\ is_comma c = false /\ blanks_before_closer s = Some n.
Proof.
  simpl. destruct (is_closer c) eqn:Hc; [discriminate|].
  destruct (is_space c) eqn:Hs; [|discriminate].
  destruct (blanks_before_closer s) as [m|]; [|discriminate].
  intros [= ->]. repeat split.
  unfold is_space in Hs. unfold is_comma.
  destruct (N.eqb_spec c 44) as [->|]; [discriminate Hs|done].
Qed.

Lemma strip_trailing_commas_plain (s : list N) :
  forall skip,
  skip = 0%nat \/ blanks_before_closer s = Some skip ->
  List.filter is_plain (strip_trailing_commas skip s) = List.filter is_plain s.
Proof.
  induction s as [|c s IH]; intros skip Hskip; [by destruct skip|].
  cbn [strip_trailing_commas]. destruct skip as [|n].
  - destruct (is_comma c) eqn:Hc.
    + assert (Hplain : is_plain c = false) by (unfold is_plain; by rewrite Hc).
      cbn [List.filter]. rewrite Hplain.
      destruct (blanks_before_closer s) as [n|] eqn:Hb.
      * apply IH. by right.
      * cbn [List.filter]. rewrite Hplain. apply IH. by left.
    + cbn [List.filter]. rewrite (IH 0%nat) by (by left). done.
  - destruct Hskip as [Hskip|Hskip]; [discriminate|].
    apply blanks_before_closer_cons in Hskip as (Hs & Hc & Hb).
    assert (Hplain : is_plain c = false).
    { unfold is_plain. rewrite Hs. by rewrite orb_true_r. }
    cbn [List.filter]. rewrite Hplain. apply IH. by right.
Qed.

Lemma strip_trailing_commas_length (s : list N) :
  forall skip, (length (strip_trailing_commas skip s) <= length s)%nat.
Proof.
  induction s as [|c s IH]; intros skip; [by destruct skip|].
  cbn [strip_trailing_commas]. destruct skip as [|n].
  - destruct (is_comma c).
    + destruct (blanks_before_closer s) as [n|].
      * specialize (IH n). simpl. lia.
      * specialize (IH 0%nat). simpl. lia.
    + specialize (IH 0%nat). simpl. lia.
  - specialize (IH n). simpl. lia.
Qed.

Lemma replace_plain (old new : N) (s : list N) :
  is_plain old = false -> is_plain new = false ->
  List.filter is_plain (PyStr.replace old new s) = List.filter is_plain s.
Proof.
  intros Hold Hnew. unfold PyStr.replace.
  induction s as [|c s IH]; [done|].
  rewrite fmap_cons. cbn [List.filter].
  destruct (N.eqb_spec c old) as [->|_].
  - by rewrite Hold, Hnew.
  - by rewrite IH.
Qed.

(** X3. The cosmetic repair touches nothing but quotation marks, commas
    and blanks: every other character of the span is still there, in the
    same order, and nothing is added; the text never gets longer. *)
Theorem cleanup_keeps_plain_text (snippet : pystr) :
  List.filter is_plain (cleanup snippet) = List.filter is_plain snippet /\
  (length (cleanup snippet) <= length snippet)%nat.
Proof.
  unfold cleanup. split.
  - rewrite strip_trailing_commas_plain by (by left).
    by rewrite !replace_plain.
  - etransitivity; [apply strip_trailing_commas_length|].
    unfold PyStr.replace. by rewrite !length_fmap.
Qed.

End ExtractFacts.
(* ===================================================================== *)
(** * More on binary64 arithmetic *)
(* ===================================================================== *)

Section MoreFloat.

Local Open Scope Z_scope.
Local Abbreviation prec := PyFloat.prec.
Local Abbreviation emax := PyFloat.emax.

(** Rounding treats the two signs alike. *)
Lemma binary_round_signs (n : positive) (e : Z) :
  match binary_round prec emax false n e, binary_round prec emax true n e with
  | S754_zero false, S754_zero true => True
  | S754_infinity false, S754_infinity true => True
  | S754_finite false m1 e1, S754_finite true m2 e2 => m1 = m2 /\ e1 = e2
  | _, _ => False
  end.
Proof.
  pose proof (round_false_sign n e) as Hs. revert Hs.
  unfold binary_round. destruct (shl_align n e _) as [mz ez].
  unfold binary_round_aux.
  destruct (shr_fexp prec emax (Z.pos mz) ez loc_Exact) as [mrs' e'].
  destruct (shr_fexp prec emax _ e' loc_Exact) as [mrs'' e''].
  destruct (shr_m mrs''); [done| |done].
  by destruct (_ <=? _).
Qed.

(** Taking a positive value away from a positive value of the format
    never gives more than there was. *)
Lemma sub_finite_not_above (mx my : positive) (ex ey : Z) :
  bounded prec emax mx ex = true ->
  PyFloat.gtb (PyFloat.sub (S754_finite false mx ex) (S754_finite false my ey))
              (S754_finite false mx ex) = false.
Proof.
  intros Hb.
  unfold PyFloat.sub, SFsub.
  set (ez := Z.min ex ey).
  destruct (shl_align_spec mx ex ez) as [HX _].
  destruct (shl_align_spec my ey ez) as [HY _].
  set (X := fst (shl_align mx ex ez)) in *.
  set (Y := fst (shl_align my ey ez)) in *.
  replace (Z.max 0 (ex - ez)) with (ex - ez) in HX by lia.
  assert (Hez : ez <= ex) by lia.
  unfold binary_normalize, PyFloat.gtb. simpl cond_Zopp.
  destruct (Z.pos X - Z.pos Y) as [|p|p] eqn:Hdiff.
  - reflexivity.
  - assert (Hlt : Z.pos p < Z.pos mx * 2 ^ (ex - ez)) by lia.
    pose proof (round_le p mx ez ex Hb Hez Hlt) as Hr.
    pose proof (binary_round_signs p ez) as Hsg.
    destruct (binary_round prec emax false p ez) as [[]|[]| |[] m3 e3];
      destruct (binary_round prec emax true p ez) as [[]|[]| |[] m4 e4];
      try done.
    destruct Hsg as [-> ->]. clear Hlt. destruct Hr as [Hlt|[-> Hm]]; simpl.
    + by rewrite (proj2 (Z.compare_lt_iff e4 ex) Hlt).
    + rewrite Z.compare_refl.
      change (Pos.compare_cont Eq m4 mx) with (m4 ?= mx)%positive.
      destruct (m4 ?= mx)%positive eqn:Hc; try reflexivity.
      assert (mx < m4)%positive by (by apply Pos.compare_gt_iff). lia.
  - pose proof (binary_round_signs p ez) as Hsg.
    destruct (binary_round prec emax false p ez) as [[]|[]| |[] m3 e3];
      destruct (binary_round prec emax true p ez) as [[]|[]| |[] m4 e4];
      done.
Qed.

(** The sum of two values that are not below zero is not below zero; in
    particular it is not a NaN. *)
Lemma add_nonneg (x y : float) :
  PyFloat.leb PyFloat.zero x = true -> PyFloat.leb PyFloat.zero y = true ->
  PyFloat.leb PyFloat.zero (PyFloat.add x y) = true.
Proof.
  intros Hx Hy.
  destruct x as [sx|[]| |[] mx ex]; try discriminate Hx;
    destruct y as [sy|[]| |[] my ey]; try discriminate Hy; try reflexivity.
  - by destruct sx, sy.
  - unfold PyFloat.add, SFadd, binary_normalize. simpl cond_Zopp.
    set (X := fst (shl_align mx ex _)). set (Y := fst (shl_align my ey _)).
    change (Z.pos X + Z.pos Y) with (Z.pos (X + Y)).
    pose proof (round_false_sign (X + Y) (Z.min ex ey)) as Hs.
    by destruct (binary_round prec emax false (X + Y) (Z.min ex ey)) as [[]|[]| |[] m3 e3].
Qed.

Lemma leb_zero_not_nan (x : float) :
  PyFloat.leb PyFloat.zero x = true -> PyFloat.is_nan x = false.
Proof. by destruct x. Qed.

(** Adding [0.0] changes nothing, except that it turns [-0.0] into
    [0.0]. *)
Lemma add_zero_r (x : float) :
  x <> S754_zero true -> PyFloat.add x PyFloat.zero = x.
Proof. by destruct x as [[]|[]| |[] mx ex]. Qed.

Lemma abs_sign (x : float) :
  PyFloat.is_nan (PyFloat.abs x) = true \/ PyFloat.leb PyFloat.zero (PyFloat.abs x) = true.
Proof. destruct x as [[]|[]| |[] mx ex]; auto. Qed.

End MoreFloat.
(* ===================================================================== *)
(** * More on the scoring step *)
(* ===================================================================== *)

Section MoreScoring.

Import Referee.

Lemma bound_guess_range (g : float) :
  PyFloat.between PyFloat.zero PyFloat.hundred (bound_guess g) = true.
Proof.
  unfold bound_guess, PyFloat.min.
  destruct (PyFloat.ltb g PyFloat.hundred) eqn:Hlt; [|reflexivity].
  unfold PyFloat.max. destruct (PyFloat.gtb g PyFloat.zero) eqn:Hgt; [|reflexivity].
  unfold PyFloat.between. apply andb_true_iff. split.
  - unfold PyFloat.leb, SFleb. rewrite (SFcompare_antisym g PyFloat.zero).
    unfold PyFloat.gtb in Hgt. by destruct (SFcompare g PyFloat.zero) as [[]|].
  - unfold PyFloat.leb, SFleb. unfold PyFloat.ltb, SFltb in Hlt.
    by destruct (SFcompare g PyFloat.hundred) as [[]|].
Qed.

Lemma delta_of_distance_le (distance : float) :
  PyFloat.is_nan distance = true \/ PyFloat.leb PyFloat.zero distance = true ->
  PyFloat.leb (delta_of_distance distance) PyFloat.hundred = true.
Proof.
  intros Hd. unfold delta_of_distance, PyFloat.max.
  destruct (PyFloat.gtb (PyFloat.hundred - distance)%F PyFloat.zero) eqn:Hpos;
    [|reflexivity].
  assert (Hle : PyFloat.gtb (PyFloat.hundred - distance)%F PyFloat.hundred = false).
  { destruct distance as [sd|[]| |[] md ed]; try reflexivity.
    - by destruct Hd.
    - by destruct Hd.
    - change PyFloat.hundred with (S754_finite false 7036874417766400 (-46)).
      by apply sub_finite_not_above. }
  unfold PyFloat.leb, SFleb. unfold PyFloat.gtb in Hpos, Hle.
  destruct (SFcompare (PyFloat.hundred - distance)%F PyFloat.hundred) as [[]|] eqn:Hc;
    try done.
  by destruct (PyFloat.hundred - distance)%F as [[]|[]| |[] ? ?].
Qed.

(** What [handle_turn] leaves on a record, whatever the record and the
    target are. *)
Lemma score_record_ranges (target : option float) (p : Player.t) (rec : TurnRecord.t) :
  (exists d, TurnRecord.score_delta (score_record target p rec).2 = Some d /\
     PyFloat.between PyFloat.zero PyFloat.hundred d = true) /\
  (is_valid rec = true -> target <> None ->
   exists g, TurnRecord.applied_guess (score_record target p rec).2 = Some g /\
     PyFloat.between PyFloat.zero PyFloat.hundred g = true).
Proof.
  unfold score_record, is_valid.
  destruct rec as [? ? inv ? ? ? ? ? ? ? ? ? ? ? ? [ag|] ? ? ? ? ?]; simpl;
    destruct inv, target as [tgt|]; simpl;
    try (split; [by exists PyFloat.zero|done]).
  split.
  - eexists. split; [reflexivity|].
    unfold PyFloat.between. rewrite delta_of_distance_nonneg. simpl.
    apply delta_of_distance_le. apply abs_sign.
  - intros _ _. eexists. split; [reflexivity|]. apply bound_guess_range.
Qed.

(** The records after [handle_turn], read backwards. *)
Lemma handle_turn_records (self self' : t) :
  wf self = true -> handle_turn self = Ok self' ->
  forall k name rec', records self' !! k = Some (name, rec') ->
  exists rec i p,
    records self !! k = Some (name, rec) /\ player_of self name = Some (i, p) /\
    rec' = (score_record (compute_target self) p rec).2.
Proof.
  intros Hwf Hrun k name rec' Hk.
  destruct (handle_turn_spec self Hwf) as (self2 & Hrun2 & _ & _ & _ & Hlen & Hrec & _).
  assert (self2 = self') as -> by congruence.
  destruct (records self !! k) as [[name0 rec0]|] eqn:Hk0.
  - destruct (Hrec k name0 rec0 Hk0) as (i & p & Hp & _ & Hk').
    rewrite Hk in Hk'. injection Hk' as -> ->. by exists rec0, i, p.
  - apply lookup_ge_None in Hk0. apply lookup_lt_Some in Hk. lia.
Qed.

(** X4. Whatever the guesses are, NaN and infinities included, every
    record leaves [handle_turn] with a score delta between 0.0 and 100.0:
    no player gains more than 100 points in a turn, and none loses any. *)
Theorem handle_turn_delta_within_bounds (self : t) (Hwf : wf self = true) :
  exists self', handle_turn self = Ok self' /\
    forall k name rec', records self' !! k = Some (name, rec') ->
      exists d, TurnRecord.score_delta rec' = Some d /\
        PyFloat.between PyFloat.zero PyFloat.hundred d = true.
Proof.
  destruct (handle_turn_spec self Hwf) as (self' & Hrun & _).
  exists self'. split; [exact Hrun|].
  intros k name rec' Hk.
  destruct (handle_turn_records self self' Hwf Hrun k name rec' Hk)
    as (rec & i & p & _ & _ & ->).
  apply score_record_ranges.
Qed.

Lemma handle_turn_delta_within_bounds_witness :
  wf Examples.turn_30_50_40 = true /\
  exists self', handle_turn Examples.turn_30_50_40 = Ok self' /\
    (TurnRecord.score_delta ∘ snd <$> records self') =
      Some <$> [PyFloat.of_Z 98; PyFloat.of_Z 78; PyFloat.of_Z 88].
Proof.
  split; [reflexivity|].
  destruct (handle_turn_delta_within_bounds Examples.turn_30_50_40 eq_refl)
    as (self' & Hrun & _).
  exists self'. split; [exact Hrun|].
  vm_compute in Hrun. injection Hrun as <-. vm_compute. reflexivity.
Defined.

(** X5. Every record that counts (not invalid, with an applied guess)
    leaves [handle_turn] with an applied guess within [[0, 100]], also
    when the guess that came in was out of range or a NaN: the bounding
    [max(0.0, min(100.0, guess))] sends a NaN to 100.0. *)
Theorem handle_turn_applied_guess_in_range (self : t)
    (Hwf : wf self = true) (Hne : valid_guesses self <> []) :
  (exists self', handle_turn self = Ok self' /\
     forall k name rec, records self !! k = Some (name, rec) -> is_valid rec = true ->
       exists rec' g, records self' !! k = Some (name, rec') /\
         TurnRecord.applied_guess rec' = Some g /\
         PyFloat.between PyFloat.zero PyFloat.hundred g = true) /\
  bound_guess PyFloat.nan = PyFloat.hundred.
Proof.
  split; [|reflexivity].
  destruct (handle_turn_spec self Hwf) as (self' & Hrun & _ & _ & _ & _ & Hrec & _).
  exists self'. split; [exact Hrun|].
  intros k name rec Hk Hvalid.
  destruct (Hrec k name rec Hk) as (i & p & _ & _ & Hk').
  destruct (score_record_ranges (compute_target self) p rec) as [_ Hg].
  destruct Hg as (g & Hg & Hrange); [done|by rewrite compute_target_nonempty|].
  by eexists _, g.
Qed.

Lemma handle_turn_applied_guess_in_range_witness :
  wf Cases.turn_with_nan = true /\ valid_guesses Cases.turn_with_nan <> [] /\
  exists self', handle_turn Cases.turn_with_nan = Ok self' /\
    (TurnRecord.applied_guess ∘ snd <$> records self') =
      Some <$> [PyFloat.of_Z 50; PyFloat.of_Z 100; PyFloat.of_Z 50].
Proof.
  assert (Hne : valid_guesses Cases.turn_with_nan <> []) by (vm_compute; discriminate).
  split; [reflexivity|]. split; [exact Hne|].
  destruct (handle_turn_applied_guess_in_range Cases.turn_with_nan eq_refl Hne)
    as [(self' & Hrun & _) _].
  exists self'. split; [exact Hrun|].
  vm_compute in Hrun. injection Hrun as <-. vm_compute. reflexivity.
Defined.

(** ** A NaN among the guesses *)

Lemma add_nan_l (x : float) : PyFloat.add PyFloat.nan x = PyFloat.nan.
Proof. reflexivity. Qed.

Lemma add_nan_r (x : float) : PyFloat.add x PyFloat.nan = PyFloat.nan.
Proof. by destruct x as [[]|[]| |[] ? ?]. Qed.

Lemma foldl_add_nan (xs : list float) :
  foldl PyFloat.add PyFloat.nan xs = PyFloat.nan.
Proof. induction xs as [|x xs IH]; [done|]. cbn [foldl]. by rewrite add_nan_l. Qed.

Lemma sum_nan (xs : list float) :
  PyFloat.nan ∈ xs -> PyFloat.sum xs = PyFloat.nan.
Proof.
  unfold PyFloat.sum. generalize PyFloat.zero.
  induction xs as [|x xs IH]; intros acc Hin; [by apply elem_of_nil in Hin|].
  cbn [foldl]. apply elem_of_cons in Hin as [<-|Hin].
  - by rewrite add_nan_r, foldl_add_nan.
  - by apply IH.
Qed.

Lemma target_of_guesses_nan (xs : list float) :
  PyFloat.nan ∈ xs -> target_of_guesses xs = PyFloat.nan.
Proof.
  intros Hin. unfold target_of_guesses. rewrite (sum_nan xs Hin).
  unfold PyFloat.div, PyFloat.mul, TARGET_MULTIPLIER. reflexivity.
Qed.

Lemma score_record_nan (p : Player.t) (rec : TurnRecord.t) :
  let sr := score_record (Some PyFloat.nan) p rec in
  TurnRecord.target_value sr.2 = Some PyFloat.nan /\
  TurnRecord.distance_from_target sr.2 = Some PyFloat.nan /\
  TurnRecord.score_delta sr.2 = Some PyFloat.zero /\
  (Player.score sr.1 = Player.score p \/
   Player.score sr.1 = (Player.score p + PyFloat.zero)%F).
Proof.
  unfold score_record.
  assert (Hsub : forall x, PyFloat.abs (x - PyFloat.nan)%F = PyFloat.nan).
  { intros x. by destruct x as [[]|[]| |[] ? ?]. }
  destruct rec as [? ? inv ? ? ? ? ? ? ? ? ? ? ? ? [ag|] ? ? ? ? ?]; simpl;
    destruct inv; simpl; rewrite ?Hsub; repeat split; auto.
Qed.

(** X6. One NaN spoils the turn for everybody. When a record that counts
    carries a NaN as its applied guess, the target is a NaN, and so is
    every distance; every record, valid or not, ends with a score delta
    of 0.0, and no player gains anything: every score stays as it is
    (a score of [-0.0] that has 0.0 added to it becomes [0.0]). *)
Theorem handle_turn_nan_guess_voids_turn (self : t)
    (Hwf : wf self = true) (Hnan : PyFloat.nan ∈ valid_guesses self) :
  exists self', handle_turn self = Ok self' /\
    (forall k name rec', records self' !! k = Some (name, rec') ->
       TurnRecord.target_value rec' = Some PyFloat.nan /\
       TurnRecord.distance_from_target rec' = Some PyFloat.nan /\
       TurnRecord.score_delta rec' = Some PyFloat.zero) /\
    (forall i p p', players self !! i = Some p -> players self' !! i = Some p' ->
       Player.score p' = Player.score p \/
       (Player.score p = S754_zero true /\ Player.score p' = PyFloat.zero)).
Proof.
  assert (Htarget : compute_target self = Some PyFloat.nan).
  { rewrite compute_target_nonempty.
    - by rewrite target_of_guesses_nan.
    - intros Hnil. rewrite Hnil in Hnan. by apply elem_of_nil in Hnan. }
  destruct (handle_turn_spec self Hwf)
    as (self' & Hrun & _ & _ & _ & _ & Hrec & Hkeep).
  exists self'. split; [exact Hrun|]. split.
  - intros k name rec' Hk.
    destruct (handle_turn_records self self' Hwf Hrun k name rec' Hk)
      as (rec & i & p & _ & _ & ->).
    rewrite Htarget. destruct (score_record_nan p rec) as (? & ? & ? & _). done.
  - intros i p p' Hp Hp'.
    destruct (decide (Exists (fun kv => player_map self !! kv.1 = Some i) (records self)))
      as [Hex|Hno].
    + apply Exists_exists in Hex as ([name rec] & Hin & Hi). simpl in Hi.
      apply list_elem_of_lookup in Hin as [k Hk].
      destruct (Hrec k name rec Hk) as (i2 & p2 & Hp2 & Hps & _).
      unfold player_of in Hp2. rewrite Hi, Hp in Hp2. injection Hp2 as <- <-.
      rewrite Hp' in Hps. injection Hps as ->. rewrite Htarget.
      destruct (score_record_nan p rec) as (_ & _ & _ & [Hscore|Hscore]); [by left|].
      rewrite Hscore.
      destruct (Player.score p) as [[]|b| |b m e]; [by right|by left..].
    + left. rewrite Hkeep in Hp'; [congruence|].
      intros kv Hin Hi. apply Hno. apply Exists_exists. by exists kv.
Qed.

Lemma handle_turn_nan_guess_voids_turn_witness :
  wf Cases.turn_with_nan = true /\ PyFloat.nan ∈ valid_guesses Cases.turn_with_nan /\
  exists self', handle_turn Cases.turn_with_nan = Ok self' /\
    (TurnRecord.score_delta ∘ snd <$> records self') =
      Some <$> [PyFloat.zero; PyFloat.zero; PyFloat.zero] /\
    Player.score <$> players self' = [PyFloat.zero; PyFloat.zero; PyFloat.zero].
Proof.
  assert (Hnan : PyFloat.nan ∈ valid_guesses Cases.turn_with_nan).
  { vm_compute. right. left. }
  split; [reflexivity|]. split; [exact Hnan|].
  destruct (handle_turn_nan_guess_voids_turn Cases.turn_with_nan eq_refl Hnan)
    as (self' & Hrun & _).
  exists self'. split; [exact Hrun|].
  vm_compute in Hrun. injection Hrun as <-. split; vm_compute; reflexivity.
Defined.

End MoreScoring.

(* ===================================================================== *)
(** * What the scoring step leaves alone *)
(* ===================================================================== *)

Section ScoringFrame.

Import Referee.

Lemma Forall2_chain {A} (R : A -> A -> Prop) :
  (forall p q r, R p q -> R q r -> R p r) ->
  forall l k m, Forall2 R l k -> Forall2 R k m -> Forall2 R l m.
Proof.
  intros Htrans l k m Hlk. revert m.
  induction Hlk as [|x y l k Hxy Hlk IH]; intros m Hkm; [done|].
  inversion Hkm as [|? z ? m' Hyz Hkm']; subst.
  constructor; [by eapply Htrans|by apply IH].
Qed.

Lemma Forall2_same {A} (R : A -> A -> Prop) (l : list A) :
  (forall p, R p p) -> Forall2 R l l.
Proof. intros Hrefl. induction l; by constructor. Qed.

Lemma Forall2_update {A} (R : A -> A -> Prop) (l : list A) :
  (forall p, R p p) ->
  forall i x y, l !! i = Some x -> R x y -> Forall2 R l (<[i:=y]> l).
Proof.
  intros Hrefl. induction l as [|a l IH]; intros i x y Hi Hxy; [done|].
  destruct i as [|i]; simpl in *.
  - injection Hi as ->. constructor; [done|by apply Forall2_same].
  - constructor; [done|by eapply IH].
Qed.

(** A relation between the players before and after that every pass of
    the loop respects holds between the lists when the loop is done; the
    same for the records. *)
Lemma handle_turn_loop_rel (R : Player.t -> Player.t -> Prop)
    (Q : TurnRecord.t -> TurnRecord.t -> Prop) :
  (forall p, R p p) ->
  (forall p q r, R p q -> R q r -> R p r) ->
  (forall target p rec, R p (score_record target p rec).1) ->
  (forall target p rec, Q rec (score_record target p rec).2) ->
  forall pm target items players ps recs,
  handle_turn_loop pm target items players = Ok (ps, recs) ->
  Forall2 R players ps /\
  Forall2 (fun kv kv' => kv'.1 = kv.1 /\ Q kv.2 kv'.2) items recs.
Proof.
  intros Hrefl Htrans HR HQ pm target.
  induction items as [|[name record] rest IH]; intros players ps recs Hrun.
  - simpl in Hrun. injection Hrun as <- <-. split; [|constructor].
    by apply Forall2_same.
  - simpl in Hrun.
    destruct (pm !! name) as [i|]; [|discriminate].
    destruct (players !! i) as [player|] eqn:Hplayer; [|discriminate].
    pose proof (HR target player record) as HRp.
    pose proof (HQ target player record) as HQp.
    destruct (score_record target player record) as [player' record'].
    simpl in HRp, HQp.
    destruct (handle_turn_loop pm target rest (<[i:=player']> players))
      as [[ps0 recs0]|] eqn:Hrest; [|discriminate].
    simpl in Hrun. injection Hrun as <- <-.
    destruct (IH _ _ _ Hrest) as [Hps Hrecs].
    split; [|by constructor].
    eapply Forall2_chain; [exact Htrans| |exact Hps].
    by eapply Forall2_update.
Qed.

Lemma only_score_differs_refl (p : Player.t) : only_score_differs p p.
Proof. by destruct p. Qed.

Lemma only_score_differs_trans (p q r : Player.t) :
  only_score_differs p q -> only_score_differs q r -> only_score_differs p r.
Proof. unfold only_score_differs. intros -> ->. by destruct p. Qed.

Lemma score_record_only_score (target : option float) (p : Player.t) (rec : TurnRecord.t) :
  only_score_differs p (score_record target p rec).1.
Proof.
  unfold score_record, only_score_differs.
  destruct (TurnRecord.is_invalid_move rec), (TurnRecord.applied_guess rec), target;
    by destruct p.
Qed.

Lemma score_record_only_scoring (target : option float) (p : Player.t) (rec : TurnRecord.t) :
  only_scoring_differs rec (score_record target p rec).2.
Proof.
  unfold score_record, only_scoring_differs.
  destruct rec as [? ? inv ? ? ? ? ? ? ? ? ? ? ? ? ag ? ? ? ? ?]; simpl.
  destruct inv, ag, target; reflexivity.
Qed.

(** X7. [handle_turn] writes the score of a player and nothing else of
    it (name, model, prior score, series and flags stay); on a record it
    writes the applied guess, the target, the distance, the score delta
    and the score after the turn and nothing else (the move, the guess as
    given, the texts and the validity flag stay). Keys and order of the
    records, the turn number and the name index are as before. *)
Theorem handle_turn_frame (self : t) (Hwf : wf self = true) :
  exists self', handle_turn self = Ok self' /\
    turn self' = turn self /\ player_map self' = player_map self /\
    Forall2 only_score_differs (players self) (players self') /\
    Forall2 (fun kv kv' => kv'.1 = kv.1 /\ only_scoring_differs kv.2 kv'.2)
      (records self) (records self').
Proof.
  destruct (handle_turn_spec self Hwf) as (self' & Hrun & Ht & Hpm & _).
  exists self'. split; [exact Hrun|]. split; [exact Ht|]. split; [exact Hpm|].
  unfold handle_turn in Hrun.
  destruct (handle_turn_loop _ _ _ _) as [[ps recs]|] eqn:Hloop; [|discriminate].
  simpl in Hrun. injection Hrun as <-. simpl.
  eapply handle_turn_loop_rel; [| | | |exact Hloop].
  - exact only_score_differs_refl.
  - exact only_score_differs_trans.
  - exact score_record_only_score.
  - exact score_record_only_scoring.
Qed.

Lemma handle_turn_frame_witness :
  wf Examples.turn_one_unreadable = true /\
  exists self', handle_turn Examples.turn_one_unreadable = Ok self' /\
    Player.name <$> players self' = Player.name <$> Examples.trio /\
    (TurnRecord.is_invalid_move ∘ snd <$> records self') = [false; true; false].
Proof.
  split; [reflexivity|].
  destruct (handle_turn_frame Examples.turn_one_unreadable eq_refl) as (self' & Hrun & _).
  exists self'. split; [exact Hrun|].
  vm_compute in Hrun. injection Hrun as <-. split; vm_compute; reflexivity.
Defined.

End ScoringFrame.
(* ===================================================================== *)
(** * More on the per-player pipeline *)
(* ===================================================================== *)

Section MorePipeline.

Context `{Externals}.
Import Referee.

Lemma parse_response_guess_range (text : pystr) (move : Move.t) :
  parse_response text = Ok move ->
  PyFloat.between PyFloat.zero PyFloat.hundred (Move.guess move) = true \/
  PyFloat.is_nan (Move.guess move) = true.
Proof.
  unfold parse_response, rbind.
  destruct (extract text) as [snippet|]; [|discriminate].
  destruct (decode snippet) as [response_dict|]; [|discriminate].
  apply create_guess_range.
Qed.

(** X8. The record [do_turn_for_player] hands back is of one of two
    shapes. An invalid one has no move, no guess, no applied guess and
    no prior score, and does not say that a repair was attempted, even
    when one was. A valid one has a move, carries the guess of that move
    both as guess and as applied guess, within [[0, 100]] or a NaN, and
    the prior score of its player. No record has a target, a distance, a
    score delta or a score after the turn yet. *)
Theorem do_turn_for_player_record_shape (self : t) (player : Player.t)
    (log : list event) :
  exists rec log',
    do_turn_for_player self player log = (Ok rec, log') /\
    TurnRecord.name rec = Player.name player /\
    TurnRecord.turn rec = turn self /\
    TurnRecord.target_value rec = None /\
    TurnRecord.distance_from_target rec = None /\
    TurnRecord.score_delta rec = None /\
    TurnRecord.post_score rec = None /\
    ((TurnRecord.is_invalid_move rec = true /\
      TurnRecord.move rec = None /\
      TurnRecord.guess rec = None /\
      TurnRecord.applied_guess rec = None /\
      TurnRecord.prior_score rec = None /\
      TurnRecord.repair_attempted rec = false)
     \/
     (TurnRecord.is_invalid_move rec = false /\
      exists move,
        TurnRecord.move rec = Some move /\
        TurnRecord.guess rec = Some (Move.guess move) /\
        TurnRecord.applied_guess rec = Some (Move.guess move) /\
        TurnRecord.prior_score rec = Some (Player.prior_score player) /\
        (PyFloat.between PyFloat.zero PyFloat.hundred (Move.guess move) = true \/
         PyFloat.is_nan (Move.guess move) = true))).
Proof.
  rewrite do_turn_for_player_cases.
  destruct (make_move player (turn self) log) as [[reply|e] log1].
  - cbv zeta.
    destruct (parse_response (Reply.response reply)) as [move|e] eqn:Hparse.
    + eexists _, _. split; [reflexivity|]. repeat (split; [reflexivity|]).
      right. split; [reflexivity|]. exists move. repeat (split; [reflexivity|]).
      by eapply parse_response_guess_range.
    + destruct (repair_response self player (Reply.response reply) _)
        as [[repaired|e'] log3].
      * destruct (parse_response repaired) as [move|e'] eqn:Hparse'.
        -- eexists _, _. split; [reflexivity|]. repeat (split; [reflexivity|]).
           right. split; [reflexivity|]. exists move. repeat (split; [reflexivity|]).
           by eapply parse_response_guess_range.
        -- eexists _, _. split; [reflexivity|]. repeat (split; [reflexivity|]).
           left. by repeat split.
      * eexists _, _. split; [reflexivity|]. repeat (split; [reflexivity|]).
        left. by repeat split.
  - eexists _, _. split; [reflexivity|]. repeat (split; [reflexivity|]).
    left. by repeat split.
Qed.

(** ** What a turn costs *)

Lemma calls_in_app (l1 l2 : list event) : calls_in (l1 ++ l2) = calls_in l1 ++ calls_in l2.
Proof. apply omap_app. Qed.

Lemma parses_in_app (l1 l2 : list event) :
  parses_in (l1 ++ l2) = parses_in l1 ++ parses_in l2.
Proof. apply omap_app. Qed.

Lemma calls_in_sent (cs : list Call.t) : calls_in (Sent <$> cs) = cs.
Proof. induction cs as [|c cs IH]; [done|]. rewrite fmap_cons. simpl. by rewrite IH. Qed.

Lemma parses_in_sent (cs : list Call.t) : parses_in (Sent <$> cs) = [].
Proof. induction cs as [|c cs IH]; [done|]. by rewrite fmap_cons. Qed.

(** The repair protocol makes one call at least, and one call to the
    player's own model and one to each other player at most, all of them
    on the budget of a repair. *)
Lemma repair_response_calls (self : t) (player : Player.t) (text : pystr)
    (log : list event) :
  exists r cs,
    repair_response self player text log = (r, log ++ (Sent <$> cs)) /\
    (1 <= length cs <= 1 + length (others self player))%nat /\
    Forall (fun c => Call.max_tokens c = repair_budget) cs.
Proof.
  unfold repair_response, try_except, llm_send. fold (own_call player text).
  destruct (send log (own_call player text)) as [repaired|e].
  - exists (Ok repaired), [own_call player text]. split; [done|]. split; [simpl; lia|].
    by repeat constructor.
  - set (log1 := log ++ [Sent (own_call player text)]).
    assert (Hbudget : forall j, Forall (fun c => Call.max_tokens c = repair_budget)
              (own_call player text :: (helper_call text <$> take j (others self player)))).
    { intros j. constructor; [done|]. apply Forall_forall.
      intros c Hc. by apply list_elem_of_fmap in Hc as (h & -> & _). }
    pose proof (ask_helpers_spec player text e (players self) log1) as Hspec.
    cbv zeta in Hspec.
    change (List.filter _ (players self)) with (others self player) in Hspec.
    destruct Hspec as [[Hrun _]|(k & h & repaired & Hk & _ & Hrun & _)].
    + eexists _, (own_call player text :: (helper_call text <$>
                    take (length (others self player)) (others self player))).
      split; [|split; [|apply Hbudget]].
      * rewrite Hrun. subst log1. by rewrite fmap_cons, <- app_assoc.
      * simpl. rewrite length_fmap, length_take. lia.
    + eexists _, (own_call player text :: (helper_call text <$>
                    take (S k) (others self player))).
      split; [|split; [|apply Hbudget]].
      * rewrite Hrun. subst log1. by rewrite fmap_cons, <- app_assoc.
      * simpl. rewrite length_fmap, length_take. lia.
Qed.

Lemma make_move_log (player : Player.t) (n : Z) (log : list event) :
  exists r, make_move player n log = (r, log ++ [Sent (move_call player n)]) /\
    forall reply, r = Ok reply ->
      send log (move_call player n) = Ok (Reply.response reply).
Proof.
  rewrite make_move_cases. cbv zeta. fold (move_call player n).
  destruct (send log (move_call player n)) as [text|e]; eexists; split; try reflexivity.
  - by intros reply [= <-].
  - discriminate.
Qed.

(** The events one pipeline adds to the log: the call for the move; then,
    if the call returned, the parse of the reply; then, if the parse
    failed, the calls of the repair; then, if the repair returned, the
    parse of the repaired text. *)
Lemma do_turn_for_player_events (self : t) (player : Player.t) (log : list event) :
  exists rec rest,
    do_turn_for_player self player log =
      (Ok rec, log ++ Sent (move_call player (turn self)) :: rest) /\
    (rest = [] \/
     (rest = [Parsed (received self player log)] /\
      is_ok (parse_response (received self player log)) = true) \/
     (exists cs last,
        rest = Parsed (received self player log) :: (Sent <$> cs) ++ last /\
        is_ok (parse_response (received self player log)) = false /\
        (1 <= length cs <= 1 + length (others self player))%nat /\
        Forall (fun c => Call.max_tokens c = repair_budget) cs /\
        (last = [] \/ exists repaired, last = [Parsed repaired]))).
Proof.
  rewrite do_turn_for_player_cases. unfold received.
  destruct (make_move_log player (turn self) log) as (r & Hmove & _).
  rewrite Hmove. destruct r as [reply|e]; cycle 1.
  { exists (failed self player (RawText [])), []. split; [done|]. by left. }
  cbv zeta.
  set (mc := Sent (move_call player (turn self))).
  set (text := Reply.response reply).
  destruct (parse_response text) as [move|e] eqn:Hparse.
  { eexists _, [Parsed text]. split; [by rewrite <- app_assoc|]. right. by left. }
  destruct (repair_response_calls self player text ((log ++ [mc]) ++ [Parsed text]))
    as (r & cs & Hrepair & Hlen & Hbudget).
  rewrite Hrepair. destruct r as [repaired|e'].
  - destruct (parse_response repaired) as [move|e'].
    + eexists _, (Parsed text :: (Sent <$> cs) ++ [Parsed repaired]).
      split; [by rewrite <- !app_assoc|]. right. right.
      exists cs, [Parsed repaired]. repeat split; try done; try lia. right. by eexists.
    + eexists _, (Parsed text :: (Sent <$> cs) ++ [Parsed repaired]).
      split; [by rewrite <- !app_assoc|]. right. right.
      exists cs, [Parsed repaired]. repeat split; try done; try lia. right. by eexists.
  - eexists _, (Parsed text :: (Sent <$> cs) ++ []).
    split; [by rewrite app_nil_r, <- !app_assoc|]. right. right.
    exists cs, []. repeat split; try done; try lia. by left.
Qed.

(** X9. What one player costs in a turn. The pipeline first calls the
    player's model for the move, on the full budget of [MAX_TOKENS]. It
    makes no further call when the reply parses. Otherwise it makes the
    calls of one repair round, each on the quarter budget: in all at
    most two calls to the player's own model and one to each other
    player. [parse_response] runs twice at most. *)
Theorem do_turn_for_player_cost (self : t) (player : Player.t) (log : list event) :
  exists rec ext,
    do_turn_for_player self player log = (Ok rec, log ++ ext) /\
    (exists later,
       calls_in ext = move_call player (turn self) :: later /\
       Call.max_tokens (move_call player (turn self)) = Player.MAX_TOKENS /\
       Forall (fun c => Call.max_tokens c = repair_budget) later /\
       (length later <= 1 + length (others self player))%nat /\
       (is_ok (parse_response (received self player log)) = true -> later = [])) /\
    (length (parses_in ext) <= 2)%nat.
Proof.
  destruct (do_turn_for_player_events self player log) as (rec & rest & Hrun & Hrest).
  exists rec, (Sent (move_call player (turn self)) :: rest). split; [exact Hrun|].
  destruct Hrest as [->|[[-> Hok]|(cs & last & -> & Hfail & Hlen & Hbudget & Hlast)]].
  - split; [|simpl; lia]. exists []. repeat split; try done. simpl. lia.
  - split; [|simpl; lia]. exists []. repeat split; try done. simpl. lia.
  - split.
    + exists cs. split.
      * change (Sent ?c :: Parsed ?t :: ?l) with ([Sent c; Parsed t] ++ l).
        rewrite !calls_in_app, calls_in_sent.
        destruct Hlast as [->|[repaired ->]]; simpl; by rewrite app_nil_r.
      * repeat split; try done; try lia. intros Hok. congruence.
    + change (Sent ?c :: Parsed ?t :: ?l) with ([Sent c; Parsed t] ++ l).
      rewrite !parses_in_app, parses_in_sent.
      destruct Hlast as [->|[repaired ->]]; simpl; lia.
Qed.

End MorePipeline.

(* ===================================================================== *)
(** * More on a turn of the referee *)
(* ===================================================================== *)

Section MoreTurn.

Context `{Externals}.
Import Referee.

Lemma do_turn_for_player_counts (self : t) (player : Player.t) (log : list event) :
  exists rec ext,
    do_turn_for_player self player log = (Ok rec, log ++ ext) /\
    TurnRecord.name rec = Player.name player /\
    TurnRecord.turn rec = turn self /\
    (1 <= length (calls_in ext) <= 2 + length (others self player))%nat /\
    (length (parses_in ext) <= 2)%nat.
Proof.
  destruct (do_turn_for_player_events self player log) as (rec & rest & Hrun & Hrest).
  destruct (do_turn_for_player_total self player log) as (rec0 & log0 & Hrun0 & Hname & Hturn).
  assert (rec0 = rec) as -> by congruence.
  exists rec, (Sent (move_call player (turn self)) :: rest).
  split; [exact Hrun|]. split; [exact Hname|]. split; [exact Hturn|].
  destruct Hrest as [->|[[-> Hok]|(cs & last & -> & Hfail & Hlen & Hbudget & Hlast)]];
    [simpl; lia..|].
  change (Sent ?c :: Parsed ?t :: ?l) with ([Sent c; Parsed t] ++ l).
  rewrite !calls_in_app, !parses_in_app, calls_in_sent, parses_in_sent, !length_app.
  destruct Hlast as [->|[repaired ->]]; simpl; lia.
Qed.

Lemma others_length (self : t) (player : Player.t) :
  player ∈ players self -> (length (others self player) < length (players self))%nat.
Proof.
  unfold others. induction (players self) as [|p ps IH]; intros Hin.
  - by apply elem_of_nil in Hin.
  - cbn [List.filter]. apply elem_of_cons in Hin as [<-|Hin].
    + rewrite (proj2 (pystr_eqb_eq _ _) eq_refl). cbn [negb].
      pose proof (List.filter_length_le
                    (fun h => negb (PyStr.eqb (Player.name h) (Player.name player))) ps).
      simpl. lia.
    + specialize (IH Hin). destruct (negb _); simpl; lia.
Qed.

Lemma map_players_counts (self : t) (ps : list Player.t) :
  (forall p, p ∈ ps -> p ∈ players self) ->
  forall log, exists recs ext,
    map_players self ps log = (Ok recs, log ++ ext) /\
    TurnRecord.name <$> recs = Player.name <$> ps /\
    Forall (fun rec => TurnRecord.turn rec = turn self) recs /\
    (length ps <= length (calls_in ext) <= length ps * (length (players self) + 1))%nat /\
    (length (parses_in ext) <= 2 * length ps)%nat.
Proof.
  induction ps as [|p ps IH]; intros Hsub log.
  - exists [], []. rewrite app_nil_r. repeat split; try done; simpl; lia.
  - destruct (do_turn_for_player_counts self p log)
      as (rec & ext1 & Hrec & Hname & Hturn & Hcalls & Hparses).
    destruct (IH (fun q Hq => Hsub q (list_elem_of_further _ _ _ Hq)) (log ++ ext1))
      as (recs & ext2 & Hrecs & Hnames & Hturns & Hcalls2 & Hparses2).
    pose proof (others_length self p (Hsub p (list_elem_of_here _ _))) as Hothers.
    exists (rec :: recs), (ext1 ++ ext2). split.
    { cbn [map_players]. unfold bind at 1. rewrite Hrec. unfold bind at 1.
      rewrite Hrecs. by rewrite app_assoc. }
    split; [by rewrite !fmap_cons, Hname, Hnames|].
    split; [by constructor|].
    rewrite calls_in_app, parses_in_app, !length_app. simpl length. lia.
Qed.

(** The log of a turn is the log of the pipelines: storing and scoring
    the records talks to nobody. *)
Lemma referee_do_turn_log (self : t) (log log' : list event) (r : result t) :
  players self <> [] -> do_turn self log = (r, log') ->
  exists r0, map_players self (players self) log = (r0, log') /\
    forall recs, r0 = Ok recs -> r = rbind (store_records self recs) handle_turn.
Proof.
  intros Hne. unfold do_turn. destruct (players self) as [|p0 ps0] eqn:Hps; [done|].
  rewrite <- Hps. unfold bind, lift.
  destruct (map_players self (players self) log) as [[recs|e] log1].
  - destruct (store_records self recs) as [self1|e] eqn:Hstore; intros [= <- <-];
      eexists; (split; [reflexivity|]); intros ? [= <-]; by rewrite Hstore.
  - intros [= <- <-]. eexists. split; [reflexivity|]. discriminate.
Qed.

(** X10. What a turn costs. With [n] players, a turn of the referee
    calls a model at least [n] times, once for each move, and at most
    [n * (n + 1)] times, when every reply has to be repaired and every
    repair goes round all the other players; it runs [parse_response] at
    most [2 * n] times. *)
Theorem referee_do_turn_cost (line_up : list Player.t) (n : Z) (log : list event)
    (Hplayers : line_up <> []) :
  exists self' ext,
    do_turn (init line_up n) log = (Ok self', log ++ ext) /\
    (length line_up <= length (calls_in ext)
       <= length line_up * (length line_up + 1))%nat /\
    (length (parses_in ext) <= 2 * length line_up)%nat.
Proof.
  destruct (referee_do_turn_total line_up n log Hplayers) as (self' & log' & Hrun & _).
  destruct (referee_do_turn_log (init line_up n) _ _ _ Hplayers Hrun) as (r0 & Hmap & _).
  destruct (map_players_counts (init line_up n) line_up (fun p Hp => Hp) log)
    as (recs & ext & Hmap' & _ & _ & Hcalls & Hparses).
  change (players (init line_up n)) with line_up in Hmap, Hcalls.
  assert (log' = log ++ ext) as -> by congruence.
  by exists self', ext.
Qed.

End MoreTurn.

Lemma referee_do_turn_cost_witness :
  let E := Fragment.externals [Ok Examples.chatter; Raise (RemoteError 500);
                               Ok Examples.json_reply] in
  Examples.trio <> [] /\
  exists self' ext,
    Referee.do_turn (Referee.init Examples.trio 1) [] = (Ok self', ext) /\
    length (calls_in ext) = 5%nat /\ length (parses_in ext) = 2%nat.
Proof.
  intros E. split; [discriminate|].
  destruct (@referee_do_turn_cost E Examples.trio 1 []) as (self' & ext & Hrun & _);
    [discriminate|].
  exists self', ext. split; [exact Hrun|].
  vm_compute in Hrun. injection Hrun as _ <-. split; vm_compute; reflexivity.
Defined.
(* ===================================================================== *)
(** * The records of a turn *)
(* ===================================================================== *)

Section TurnRecords.

Context `{Externals}.
Import Referee.

Lemma dict_set_fresh {A} (k : pystr) (v : A) (d : list (pystr * A)) :
  (forall kv, kv ∈ d -> kv.1 <> k) -> dict_set k v d = d ++ [(k, v)].
Proof.
  induction d as [|[k' v'] d IH]; intros Hfresh; [done|].
  simpl. destruct (PyStr.eqb k' k) eqn:Hk.
  - apply pystr_eqb_eq in Hk. destruct (Hfresh (k', v')); [left|done].
  - rewrite IH; [done|]. intros kv Hin. apply Hfresh. by right.
Qed.

(** Records of players with different names are stored one after the
    other. *)
Lemma store_records_fresh (recs : list TurnRecord.t) :
  forall self,
  (forall rec, rec ∈ recs -> resolves self (TurnRecord.name rec) = true) ->
  NoDup (TurnRecord.name <$> recs) ->
  (forall kv, kv ∈ records self -> kv.1 ∉ TurnRecord.name <$> recs) ->
  store_records self recs =
    Ok (mk (players self) (turn self)
          (records self ++ ((fun rec => (TurnRecord.name rec, rec)) <$> recs))
          (player_map self)).
Proof.
  induction recs as [|rec recs IH]; intros self Hknown Hnodup Hfresh.
  - simpl. rewrite app_nil_r. by destruct self.
  - rewrite fmap_cons in Hnodup. apply NoDup_cons in Hnodup as [Hrec Hnodup].
    cbn [store_records]. unfold player_with_name.
    assert (Hres : resolves self (TurnRecord.name rec) = true) by (apply Hknown; left).
    unfold resolves in Hres.
    destruct (player_of self (TurnRecord.name rec)) as [ip|]; [|discriminate].
    cbn [rbind].
    rewrite dict_set_fresh; cycle 1.
    { intros kv Hin Heq. apply (Hfresh kv Hin). rewrite fmap_cons, Heq. left. }
    rewrite IH; cbn [players turn records player_map].
    + by rewrite <- app_assoc.
    + intros r Hr. rewrite resolves_records. apply Hknown. by right.
    + exact Hnodup.
    + intros kv [Hin|Hin]%elem_of_app.
      * intros Hkv. apply (Hfresh kv Hin). rewrite fmap_cons. by right.
      * apply list_elem_of_singleton in Hin as ->. exact Hrec.
Qed.

(** With names that differ, a name designates the player at its own
    position. *)
Lemma init_player_of (ps : list Player.t) (n : Z) (k : nat) (p : Player.t) :
  NoDup (Player.name <$> ps) -> ps !! k = Some p ->
  player_of (init ps n) (Player.name p) = Some (k, p).
Proof.
  intros Hnodup Hk.
  assert (Hin : p ∈ ps) by (apply list_elem_of_lookup; by exists k).
  pose proof (init_resolves ps n p Hin) as Hres.
  unfold resolves in Hres. unfold player_of in *. simpl in *.
  destruct (build_player_map 0 ps ∅ !! Player.name p) as [j|] eqn:Hj; [|discriminate].
  destruct (build_player_map_sound ps ps 0 ∅) with (n := Player.name p) (j := j)
    as (q & Hq & Hname); try done.
  assert (j = k) as ->.
  { eapply NoDup_lookup; [exact Hnodup| |].
    - by rewrite list_lookup_fmap, Hq; simpl; rewrite Hname.
    - by rewrite list_lookup_fmap, Hk. }
  by rewrite Hk.
Qed.

Lemma score_record_post (target : option float) (p : Player.t) (rec : TurnRecord.t) :
  TurnRecord.post_score (score_record target p rec).2 =
    Some (Player.score (score_record target p rec).1) /\
  Player.name (score_record target p rec).1 = Player.name p.
Proof.
  unfold score_record.
  destruct rec as [? ? inv ? ? ? ? ? ? ? ? ? ? ? ? ag ? ? ? ? ?]; simpl.
  destruct inv, ag, target; by destruct p.
Qed.

Lemma only_scoring_differs_name (r r' : TurnRecord.t) :
  only_scoring_differs r r' ->
  TurnRecord.name r' = TurnRecord.name r /\ TurnRecord.turn r' = TurnRecord.turn r.
Proof. unfold only_scoring_differs. intros ->. by destruct r. Qed.

(** X11. A turn of the referee on players whose names all differ
    returns with one record for each player, in the order of the
    players: the record at a position is filed under the name of the
    player at that position, carries that name and the number of the
    turn, and its score after the turn is the score that player now has.
    Of a player's name, model, scores, series and flags only the score
    has changed. *)
Theorem referee_do_turn_one_record_each (line_up : list Player.t) (n : Z)
    (log : list event)
    (Hplayers : line_up <> []) (Hnames : NoDup (Player.name <$> line_up)) :
  exists self' log',
    do_turn (init line_up n) log = (Ok self', log') /\
    turn self' = n /\
    Forall2 only_score_differs line_up (players self') /\
    Forall2 (fun p' kv =>
               kv.1 = Player.name p' /\
               TurnRecord.name kv.2 = Player.name p' /\
               TurnRecord.turn kv.2 = n /\
               TurnRecord.post_score kv.2 = Some (Player.score p'))
      (players self') (records self').
Proof.
  set (self := init line_up n).
  destruct (referee_do_turn_total line_up n log Hplayers) as (self' & log' & Hrun & Hlen).
  destruct (referee_do_turn_log self _ _ _ Hplayers Hrun) as (r0 & Hmap & Hr0).
  destruct (map_players_counts self line_up (fun p Hp => Hp) log)
    as (recs & ext & Hmap' & Hrecnames & Hturns & _).
  change (players self) with line_up in Hmap.
  rewrite Hmap' in Hmap. injection Hmap as <- _.
  specialize (Hr0 recs eq_refl).
  assert (Hknown : forall rec, rec ∈ recs -> resolves self (TurnRecord.name rec) = true).
  { intros rec Hrec. apply list_elem_of_lookup in Hrec as [k Hk].
    assert (Hk' : (TurnRecord.name <$> recs) !! k = Some (TurnRecord.name rec))
      by by rewrite list_lookup_fmap, Hk.
    rewrite Hrecnames, list_lookup_fmap in Hk'.
    destruct (line_up !! k) as [p|] eqn:Hpk; [|done]. injection Hk' as <-.
    apply init_resolves, list_elem_of_lookup. by exists k. }
  rewrite (store_records_fresh recs self) in Hr0; cycle 1.
  { exact Hknown. }
  { by rewrite Hrecnames. }
  { intros kv Hin. by apply elem_of_nil in Hin. }
  cbn [rbind] in Hr0.
  change (players self) with line_up in Hr0.
  change (records self) with (@nil (pystr * TurnRecord.t)) in Hr0.
  rewrite app_nil_l in Hr0.
  set (self1 := mk line_up (turn self) _ (player_map self)) in Hr0.
  symmetry in Hr0.
  assert (Hwf1 : wf self1 = true).
  { destruct (store_records_spec recs self eq_refl Hknown) as (s1 & Hs1 & Hwf & _).
    rewrite (store_records_fresh recs self) in Hs1; cycle 1.
    { exact Hknown. }
    { by rewrite Hrecnames. }
    { intros kv Hin. by apply elem_of_nil in Hin. }
    injection Hs1 as <-. exact Hwf. }
  destruct (handle_turn_spec self1 Hwf1)
    as (self2 & Hrun2 & Ht & _ & _ & Hlenr & Hrec & _).
  assert (self2 = self') as -> by congruence.
  exists self', log'. split; [exact Hrun|]. split; [exact Ht|].
  split.
  { unfold handle_turn in Hr0.
    destruct (handle_turn_loop _ _ _ _) as [[ps rs]|] eqn:Hloop; [|discriminate].
    simpl in Hr0. injection Hr0 as <-. simpl.
    eapply (handle_turn_loop_rel only_score_differs (fun _ _ => True));
      [| | | |exact Hloop].
    - exact only_score_differs_refl.
    - exact only_score_differs_trans.
    - exact score_record_only_score.
    - done. }
  apply Forall2_same_length_lookup_2.
  { rewrite Hlen, Hlenr. subst self1. simpl.
    rewrite length_fmap. rewrite <- (length_fmap TurnRecord.name), Hrecnames.
    by rewrite length_fmap. }
  intros k p' [name rec'] Hp' Hk'.
  assert (Hlt : (k < length recs)%nat).
  { apply lookup_lt_Some in Hk'. rewrite Hlenr in Hk'. subst self1. simpl in Hk'.
    by rewrite length_fmap in Hk'. }
  destruct (lookup_lt_is_Some_2 recs k Hlt) as [rec Hrk].
  assert (H1 : records self1 !! k = Some (TurnRecord.name rec, rec)).
  { subst self1. simpl. by rewrite list_lookup_fmap, Hrk. }
  destruct (Hrec k _ _ H1) as (i & p & Hp & Hps & Hrecs).
  rewrite Hk' in Hrecs. injection Hrecs as -> ->.
  assert (Hpk : exists q, line_up !! k = Some q /\ Player.name q = TurnRecord.name rec).
  { assert (Hk2 : (TurnRecord.name <$> recs) !! k = Some (TurnRecord.name rec))
      by by rewrite list_lookup_fmap, Hrk.
    rewrite Hrecnames, list_lookup_fmap in Hk2.
    destruct (line_up !! k) as [q|]; [|done]. injection Hk2 as Hq. by exists q. }
  destruct Hpk as (q & Hq & Hqname).
  pose proof (init_player_of line_up n k q Hnames Hq) as Hpo.
  rewrite Hqname in Hpo.
  change (player_of self1 (TurnRecord.name rec)) with
    (player_of self (TurnRecord.name rec)) in Hp.
  assert (Some (i, p) = Some (k, q)) as [= -> ->] by (rewrite <- Hp; exact Hpo).
  rewrite Hp' in Hps. injection Hps as ->.
  destruct (score_record_post (compute_target self1) q rec) as [Hpost Hname].
  destruct (only_scoring_differs_name _ _
              (score_record_only_scoring (compute_target self1) q rec)) as [Hn Ht'].
  simpl. rewrite Hname, Hn, Ht', Hpost, Hqname.
  repeat split; try done.
  rewrite Forall_forall in Hturns. apply Hturns.
  apply list_elem_of_lookup. by exists k.
Qed.

End TurnRecords.

Lemma referee_do_turn_one_record_each_witness :
  let E := Fragment.externals [Ok Examples.json_reply; Ok Examples.chatter] in
  Examples.trio <> [] /\ NoDup (Player.name <$> Examples.trio) /\
  exists self' log',
    Referee.do_turn (Referee.init Examples.trio 1) [] = (Ok self', log') /\
    fst <$> Referee.records self' = Player.name <$> Examples.trio /\
    (TurnRecord.is_invalid_move ∘ snd <$> Referee.records self') = [false; true; true].
Proof.
  intros E.
  assert (Hnames : NoDup (Player.name <$> Examples.trio)) by decided.
  split; [discriminate|]. split; [exact Hnames|].
  destruct (@referee_do_turn_one_record_each E Examples.trio 1 [])
    as (self' & log' & Hrun & _); [discriminate|exact Hnames|].
  exists self', log'. split; [exact Hrun|].
  vm_compute in Hrun. injection Hrun as <- _. split; vm_compute; reflexivity.
Defined.

(* ===================================================================== *)
(** * Players of the same name *)
(* ===================================================================== *)

Section Namesakes.

Context `{Externals}.
Import Referee.

(** The index built from the players holds, for a name, the last player
    of that name. *)
Lemma build_player_map_last (ps : list Player.t) :
  forall i m nm j,
  build_player_map i ps m !! nm = Some j ->
  (m !! nm = Some j /\ forall q, q ∈ ps -> Player.name q <> nm) \/
  ((i <= j)%nat /\
   forall k q, (j - i < k)%nat -> ps !! k = Some q -> Player.name q <> nm).
Proof.
  induction ps as [|p ps IH]; intros i m nm j Hj; simpl in Hj.
  - left. split; [done|]. intros q Hq. by apply elem_of_nil in Hq.
  - destruct (IH _ _ _ _ Hj) as [[Hm Hnone]|[Hle Hlater]].
    + destruct (decide (Player.name p = nm)) as [Heq|Hne].
      * rewrite Heq, lookup_insert_eq in Hm. injection Hm as <-.
        right. split; [lia|]. intros k q Hk Hq.
        destruct k as [|k]; [lia|]. simpl in Hq.
        apply Hnone. apply list_elem_of_lookup. by exists k.
      * rewrite lookup_insert_ne in Hm by done. left. split; [done|].
        intros q [->|Hq]%elem_of_cons; [done|by apply Hnone].
    + right. split; [lia|]. intros k q Hk Hq.
      destruct k as [|k]; [lia|]. simpl in Hq.
      apply (Hlater k q); [lia|done].
Qed.

Lemma store_records_index (recs : list TurnRecord.t) :
  forall self self', store_records self recs = Ok self' ->
  player_map self' = player_map self /\ players self' = players self.
Proof.
  induction recs as [|rec recs IH]; intros self self' Hrun; simpl in Hrun.
  - by injection Hrun as <-.
  - destruct (player_with_name self (TurnRecord.name rec)); [|discriminate].
    simpl in Hrun. by destruct (IH _ _ Hrun).
Qed.

(** X12. Of two players that go by the same name only the later one
    takes part in the scoring: the name index holds the later one, so
    whatever the earlier one's model answers, the earlier player leaves
    the turn with its score, and its name, model, prior score, series
    and flags, exactly as it entered it: it gains no points. *)
Theorem referee_do_turn_shadows_namesake (line_up : list Player.t) (n : Z)
    (log : list event) (i j : nat) (p q : Player.t)
    (Hp : line_up !! i = Some p) (Hq : line_up !! j = Some q)
    (Hlater : (i < j)%nat) (Hname : Player.name p = Player.name q) :
  exists self' log',
    do_turn (init line_up n) log = (Ok self', log') /\
    players self' !! i = Some p.
Proof.
  assert (Hne : line_up <> []) by (intros ->; discriminate).
  set (self := init line_up n).
  destruct (referee_do_turn_total line_up n log Hne) as (self' & log' & Hrun & _).
  exists self', log'. split; [exact Hrun|].
  destruct (referee_do_turn_log self _ _ _ Hne Hrun) as (r0 & Hmap & Hr0).
  destruct (map_players_total self line_up log) as (recs & log1 & Hmap' & Hnames).
  change (players self) with line_up in Hmap.
  rewrite Hmap' in Hmap. injection Hmap as <- _.
  specialize (Hr0 recs eq_refl).
  destruct (store_records_spec recs self eq_refl) as (self1 & Hstore & Hwf & _).
  { intros rec Hrec. apply list_elem_of_lookup in Hrec as [k Hk].
    assert (Hk' : (TurnRecord.name <$> recs) !! k = Some (TurnRecord.name rec))
      by by rewrite list_lookup_fmap, Hk.
    rewrite Hnames, list_lookup_fmap in Hk'.
    destruct (line_up !! k) as [p0|] eqn:Hpk; [|done]. injection Hk' as <-.
    apply init_resolves, list_elem_of_lookup. by exists k. }
  destruct (store_records_index recs self self1 Hstore) as [Hpm Hps].
  rewrite Hstore in Hr0. cbn [rbind] in Hr0.
  destruct (handle_turn_spec self1 Hwf) as (self2 & Hrun2 & _ & _ & _ & _ & _ & Hkeep).
  assert (self2 = self') as -> by congruence.
  rewrite Hkeep; [by rewrite Hps|].
  intros kv Hin Hi. rewrite Hpm in Hi. simpl in Hi.
  destruct (build_player_map_last line_up 0 ∅ kv.1 i Hi) as [[Hempty _]|[_ Hnone]].
  - by rewrite lookup_empty in Hempty.
  - apply (Hnone j q); [lia|done|].
    destruct (build_player_map_sound line_up line_up 0 ∅) with (n := kv.1) (j := i)
      as (p0 & Hp0 & Hname0); try done.
    simpl in Hp0. rewrite Hp in Hp0. injection Hp0 as <-. congruence.
Qed.

End Namesakes.

Lemma referee_do_turn_shadows_namesake_witness :
  let E := Fragment.externals [Ok Examples.json_reply; Ok Examples.json_reply;
                               Ok Examples.json_reply] in
  Cases.namesakes !! 0%nat = Some Examples.vanilla /\
  Cases.namesakes !! 2%nat = Some Examples.vanilla /\
  exists self' log',
    Referee.do_turn (Referee.init Cases.namesakes 1) [] = (Ok self', log') /\
    Referee.players self' !! 0%nat = Some Examples.vanilla /\
    Player.score <$> Referee.players self' =
      [PyFloat.zero; PyFloat.of_Z 85; PyFloat.of_Z 85].
Proof.
  intros E. split; [reflexivity|]. split; [reflexivity|].
  destruct (@referee_do_turn_shadows_namesake E Cases.namesakes 1 [] 0%nat 2%nat
              Examples.vanilla Examples.vanilla eq_refl eq_refl)
    as (self' & log' & Hrun & Hkept); [lia|reflexivity|].
  exists self', log'. split; [exact Hrun|]. split; [exact Hkept|].
  vm_compute in Hrun. injection Hrun as <- _. vm_compute. reflexivity.
Defined.
(* ===================================================================== *)
(** * More on the arena: one turn *)
(* ===================================================================== *)

Section ArenaStep.

Context `{Externals}.
Import Arena.

(** What a turn of the referee does to the players: it changes scores
    only, and leaves no score below zero that was not below zero. *)
Lemma referee_do_turn_players (ps : list Player.t) (n : Z) (log : list event) :
  ps <> [] ->
  exists ref log',
    Referee.do_turn (Referee.init ps n) log = (Ok ref, log') /\
    Forall2 (fun p p' =>
               only_score_differs p p' /\
               (PyFloat.leb PyFloat.zero (Player.score p) = true ->
                PyFloat.leb PyFloat.zero (Player.score p') = true))
      ps (Referee.players ref).
Proof.
  intros Hne. set (self := Referee.init ps n).
  destruct (referee_do_turn_total ps n log Hne) as (ref & log' & Hrun & _).
  exists ref, log'. split; [exact Hrun|].
  destruct (referee_do_turn_log self _ _ _ Hne Hrun) as (r0 & Hmap & Hr0).
  destruct (map_players_total self ps log) as (recs & log1 & Hmap' & _).
  change (Referee.players self) with ps in Hmap.
  rewrite Hmap' in Hmap. injection Hmap as <- _.
  specialize (Hr0 recs eq_refl).
  destruct (Referee.store_records self recs) as [self1|] eqn:Hstore; [|discriminate].
  destruct (store_records_index recs self self1 Hstore) as [_ Hps].
  cbn [rbind] in Hr0. symmetry in Hr0. unfold Referee.handle_turn in Hr0.
  destruct (Referee.handle_turn_loop _ _ _ _) as [[ps' rs]|] eqn:Hloop; [|discriminate].
  simpl in Hr0. injection Hr0 as <-. simpl. rewrite Hps in Hloop.
  eapply (handle_turn_loop_rel _ (fun _ _ => True)); [| | | |exact Hloop].
  - intros p. split; [apply only_score_differs_refl|done].
  - intros p q r [Hpq Hs] [Hqr Hs']. split; [by eapply only_score_differs_trans|auto].
  - intros target p rec. split; [apply score_record_only_score|].
    intros Hpos.
    destruct (score_record_score target p rec) as [->|[distance ->]]; [done|].
    apply add_nonneg; [done|apply delta_of_distance_nonneg].
  - done.
Qed.

Lemma apply_starter_policy_perm (self : t) (log : list event) :
  exists l,
    apply_starter_policy self log = (Ok (mk l (turn self) (is_game_over self)), log) /\
    l ≡ₚ players self.
Proof.
  unfold apply_starter_policy.
  destruct (players self !! starter log (players self)) as [s|] eqn:Hs.
  - eexists. split; [reflexivity|]. symmetry. by apply delete_Permutation.
  - exists (players self). by destruct self.
Qed.

(** One [Arena.do_turn] on an arena that has players. *)
Lemma arena_do_turn_step (self : t) (log : list event) :
  players self <> [] ->
  exists self' log' l,
    do_turn self log = (Ok self', log') /\
    l ≡ₚ players self /\
    turn self' = (if turn self =? 10 then 10
                  else if is_game_over self then turn self else turn self + 1) /\
    is_game_over self' = (turn self =? 10) || is_game_over self /\
    Forall2 (fun p p' =>
               after_turn p p' /\
               (PyFloat.leb PyFloat.zero (Player.score p) = true ->
                PyFloat.leb PyFloat.zero (Player.score p') = true) /\
               (turn self <> 10 -> Player.is_winner p' = Player.is_winner p))
      l (players self') /\
    (turn self = 10 ->
     exists w, max_of (Player.score <$> players self') = Ok w /\
       Forall2 (fun p p' =>
                  Player.is_winner p' =
                    Player.is_winner p || PyFloat.eqb (Player.score p') w)
         l (players self')).
Proof.
  intros Hne.
  destruct (apply_starter_policy_perm self log) as (l & Hpolicy & Hperm).
  assert (Hl : l <> []).
  { intros ->. apply Permutation_nil_l in Hperm. by symmetry in Hperm. }
  set (prepared := (fun player => Player.set_prior_score (Player.score player) player) <$> l).
  assert (Hprepared : prepared <> []) by (subst prepared; by destruct l).
  destruct (referee_do_turn_players prepared (turn self) log Hprepared)
    as (ref & log' & Href & Hrel).
  set (appended :=
         (fun player =>
            Player.set_series (Player.series player ++ [Player.score player]) player)
           <$> Referee.players ref).
  assert (Hbase : forall (g : Player.t -> Player.t),
            (forall p, g p = p \/ g p = Player.set_is_winner true p) ->
            Forall2 (fun p p' =>
               after_turn p p' /\
               (PyFloat.leb PyFloat.zero (Player.score p) = true ->
                PyFloat.leb PyFloat.zero (Player.score p') = true) /\
               exists q, p' = g q /\ Player.is_winner q = Player.is_winner p /\
                         Player.score q = Player.score p')
              l (g <$> appended)).
  { intros g Hg. apply Forall2_same_length_lookup_2.
    { subst appended prepared. rewrite !length_fmap.
      apply Forall2_length in Hrel. by rewrite length_fmap in Hrel. }
    intros i p p' Hp Hp'. subst appended prepared.
    rewrite !list_lookup_fmap in Hp'.
    destruct (Referee.players ref !! i) as [r|] eqn:Hr; [|done].
    simpl in Hp'. injection Hp' as <-.
    rewrite Forall2_lookup in Hrel. specialize (Hrel i).
    rewrite list_lookup_fmap, Hp, Hr in Hrel. simpl in Hrel.
    inversion Hrel as [? ? [Hdiff Hsign]|]; subst.
    unfold only_score_differs in Hdiff.
    assert (Hr' : Player.name r = Player.name p /\ Player.llm r = Player.llm p /\
                 Player.is_dead r = Player.is_dead p /\
                 Player.prior_score r = Player.score p /\
                 Player.series r = Player.series p /\
                 Player.is_winner r = Player.is_winner p).
    { rewrite Hdiff. by destruct p. }
    destruct Hr' as (Hn & Hm & Hd & Hps & Hss & Hw).
    set (q := Player.set_series (Player.series r ++ [Player.score r]) r).
    assert (Hq : Player.name (g q) = Player.name r /\ Player.llm (g q) = Player.llm r /\
                 Player.is_dead (g q) = Player.is_dead r /\
                 Player.prior_score (g q) = Player.prior_score r /\
                 Player.series (g q) = Player.series r ++ [Player.score r] /\
                 Player.score (g q) = Player.score r /\
                 (Player.is_winner r = true -> Player.is_winner (g q) = true)).
    { destruct (Hg q) as [->| ->]; subst q; by destruct r. }
    destruct Hq as (Hn' & Hm' & Hd' & Hps' & Hss' & Hsc' & Hw').
    split; [|split].
    - unfold after_turn. rewrite Hn', Hm', Hd', Hps', Hss', Hsc', Hn, Hm, Hd, Hps, Hss.
      repeat split. intros Hwin. apply Hw'. by rewrite Hw.
    - rewrite Hsc'. exact Hsign.
    - exists q. split; [reflexivity|]. split; [|by rewrite Hsc'].
      subst q. rewrite <- Hw. by destruct r. }
  unfold do_turn, prepare_for_turn.
  unfold bind at 1. unfold bind at 1. rewrite Hpolicy. unfold ret.
  cbn [players turn is_game_over]. fold prepared.
  unfold bind at 1. rewrite Href. unfold lift, process_turn_outcome.
  cbn [players turn is_game_over]. fold appended.
  destruct (turn self =? 10) eqn:Hturn.
  - apply Z.eqb_eq in Hturn.
    unfold handle_game_over. cbn [players turn is_game_over].
    destruct (max_of_nonempty (Player.score <$> appended)) as [w Hw].
    { subst appended. destruct (Referee.players ref) eqn:Hps; [|done].
      apply Forall2_length in Hrel. subst prepared.
      rewrite length_fmap in Hrel. destruct l; done. }
    rewrite Hw. cbn [rbind].
    set (flag := fun player =>
                   if PyFloat.eqb (Player.score player) w
                   then Player.set_is_winner true player else player).
    specialize (Hbase flag).
    assert (Hflag : forall p, flag p = p \/ flag p = Player.set_is_winner true p).
    { intros p. unfold flag. destruct (PyFloat.eqb _ _); auto. }
    specialize (Hbase Hflag).
    eexists _, log', l. split; [reflexivity|]. split; [exact Hperm|].
    cbn [players turn is_game_over].
    split; [done|]. split; [done|]. split.
    + eapply Forall2_impl; [exact Hbase|]. intros p p' (Hafter & Hsign & _).
      split; [done|]. split; [done|]. intros Hno. by destruct Hno.
    + intros _. exists w. split.
      * rewrite <- Hw. f_equal. rewrite <- list_fmap_compose.
        apply list_fmap_ext. intros _ p _. simpl. unfold flag.
        by destruct (PyFloat.eqb (Player.score p) w).
      * eapply Forall2_impl; [exact Hbase|].
        intros p p' (_ & _ & q & -> & Hq & Hscore). unfold flag.
        destruct (PyFloat.eqb (Player.score q) w) eqn:Heq.
        -- simpl. rewrite Heq. by rewrite orb_true_r.
        -- rewrite Heq. by rewrite orb_false_r.
  - specialize (Hbase (fun p => p) (fun p => or_introl eq_refl)).
    rewrite list_fmap_id in Hbase.
    assert (Hturn' : turn self <> 10) by (by apply Z.eqb_neq).
    destruct (is_game_over self) eqn:Hover; cbn [negb];
      (eexists _, log', l; split; [reflexivity|]; split; [exact Hperm|];
       cbn [players turn is_game_over];
       split; [done|]; split; [done|]; split; [|done];
       eapply Forall2_impl; [exact Hbase|];
       intros p p' (Hafter & Hsign & q & -> & Hq & _);
       split; [exact Hafter|]; split; [exact Hsign|]; intros _; exact Hq).
Qed.

End ArenaStep.

(* ===================================================================== *)
(** * More on the arena: a whole game *)
(* ===================================================================== *)

Section ArenaGame.

Context `{Externals}.
Import Arena.

Lemma Forall2_Forall_step {A} (P Q : A -> Prop) (R : A -> A -> Prop) (l k : list A) :
  Forall2 R l k -> Forall P l -> (forall x y, R x y -> P x -> Q y) -> Forall Q k.
Proof.
  intros HR HP Hstep. induction HR as [|x y l k Hxy HR IH]; [constructor|].
  apply Forall_cons in HP as [Hx HP]. constructor; [by eapply Hstep|by apply IH].
Qed.

Lemma game_succ (line_up : list Player.t) (n : nat) (log : list event) :
  game line_up (S n) log =
  match game line_up n log with
  | (Ok arena, log') => do_turn arena log'
  | (Raise e, log') => (Raise e, log')
  end.
Proof.
  unfold game, bind. destruct (init line_up log) as [[a0|e] log0]; [|done].
  apply play_snoc.
Qed.

(** The state of a game after [n] turns, [n] being any number: the game
    has not raised; the counter stands at [1 + n], or at ten from the
    tenth turn on; the game is over from the tenth turn on; the players
    are the line-up in some order; and, when the line-up was fresh, every
    player has a series of [1 + n] scores that starts with 0.0 and ends
    with the player's score, a score that is not below zero, and no
    winner's flag before the tenth turn. *)
Lemma game_state (line_up : list Player.t) (log : list event) :
  line_up <> [] ->
  forall n, exists arena log',
    game line_up n log = (Ok arena, log') /\
    turn arena = Z.min (1 + Z.of_nat n) 10 /\
    is_game_over arena = (10 <=? n)%nat /\
    players arena <> [] /\
    Player.name <$> players arena ≡ₚ Player.name <$> line_up /\
    (Forall fresh line_up ->
     Forall (fun p =>
               length (Player.series p) = S n /\
               head (Player.series p) = Some PyFloat.zero /\
               last (Player.series p) = Some (Player.score p) /\
               PyFloat.leb PyFloat.zero (Player.score p) = true /\
               ((n < 10)%nat -> Player.is_winner p = false))
       (players arena)).
Proof.
  intros Hne. induction n as [|n IH].
  - unfold game, bind, init.
    destruct (apply_starter_policy_perm (mk line_up 1 false) log) as (l & -> & Hperm).
    simpl in Hperm. exists (mk l 1 false), log. cbn [play ret players turn is_game_over].
    split; [done|]. split; [done|]. split; [done|].
    split. { intros ->. apply Permutation_nil_l in Hperm. by symmetry in Hperm. }
    split; [by rewrite Hperm|].
    intros Hfresh. rewrite <- Hperm in Hfresh.
    eapply Forall_impl; [exact Hfresh|].
    intros p ->. by repeat split.
  - destruct IH as (arena & log1 & Hgame & Hturn & Hover & Hplayers & Hnames & Hfresh).
    destruct (arena_do_turn_step arena log1 Hplayers)
      as (arena' & log' & l & Hrun & Hperm & Hturn' & Hover' & Hstep & _).
    exists arena', log'. rewrite game_succ, Hgame.
    split; [exact Hrun|].
    split.
    { rewrite Hturn', Hturn, Hover.
      destruct (Z.min (1 + Z.of_nat n) 10 =? 10) eqn:H10.
      - apply Z.eqb_eq in H10. lia.
      - apply Z.eqb_neq in H10.
        destruct (10 <=? n)%nat eqn:Hn; [apply Nat.leb_le in Hn; lia|].
        apply Nat.leb_gt in Hn. lia. }
    split.
    { rewrite Hover', Hturn, Hover.
      destruct (Z.min (1 + Z.of_nat n) 10 =? 10) eqn:H10.
      - apply Z.eqb_eq in H10. symmetry. apply Nat.leb_le. lia.
      - apply Z.eqb_neq in H10. rewrite orb_false_l.
        destruct (10 <=? n)%nat eqn:Hn.
        + apply Nat.leb_le in Hn. lia.
        + apply Nat.leb_gt in Hn. symmetry. apply Nat.leb_gt. lia. }
    split.
    { intros Hnil. rewrite Hnil in Hstep. apply Forall2_length in Hstep.
      apply Permutation_length in Hperm. destruct (players arena); [done|].
      simpl in *. destruct l; simpl in *; lia. }
    split.
    { assert (Heq : Player.name <$> players arena' = Player.name <$> l).
      { clear -Hstep. induction Hstep as [|p p' l k [[Hname _] _] _ IH]; [done|].
        rewrite !fmap_cons. by rewrite Hname, IH. }
      rewrite Heq, Hperm. exact Hnames. }
    intros Hline. specialize (Hfresh Hline). rewrite <- Hperm in Hfresh.
    eapply Forall2_Forall_step; [exact Hstep|exact Hfresh|].
    intros p p' (Hafter & Hsign & Hwin) (Hlen & Hhead & Hlast & Hpos & Hflag).
    destruct Hafter as (_ & _ & _ & _ & Hseries & _).
    rewrite Hseries. split; [rewrite length_app; simpl; lia|].
    split.
    { destruct (Player.series p); [discriminate Hlen|done]. }
    split; [by rewrite last_snoc|].
    split; [by apply Hsign|].
    intros Hlt. rewrite Hwin; [apply Hflag; lia|]. rewrite Hturn. lia.
Qed.

(** X13. One turn of an arena that has players never raises. It may
    reorder the players, but none is lost, added or renamed: each one
    keeps name, model and [is_dead], gets the score it had as its prior
    score and the score it has now appended to its series, and a player
    that was flagged as a winner remains flagged. *)
Theorem arena_do_turn_keeps_players (self : t) (log : list event)
    (Hplayers : players self <> []) :
  exists self' log' l,
    do_turn self log = (Ok self', log') /\
    l ≡ₚ players self /\
    Forall2 after_turn l (players self').
Proof.
  destruct (arena_do_turn_step self log Hplayers)
    as (self' & log' & l & Hrun & Hperm & _ & _ & Hstep & _).
  exists self', log', l. split; [exact Hrun|]. split; [exact Hperm|].
  eapply Forall2_impl; [exact Hstep|]. by intros p p' [Hafter _].
Qed.

(** X14. In a game that starts with fresh players, after any number [n]
    of turns every player's series has [1 + n] entries, the first one
    0.0 and the last one the player's present score; and no score is
    ever below zero or a NaN. *)
Theorem game_series (line_up : list Player.t) (log : list event) (n : nat)
    (Hplayers : line_up <> []) (Hfresh : Forall fresh line_up) :
  exists arena log',
    game line_up n log = (Ok arena, log') /\
    Forall (fun p =>
              length (Player.series p) = S n /\
              head (Player.series p) = Some PyFloat.zero /\
              last (Player.series p) = Some (Player.score p) /\
              PyFloat.leb PyFloat.zero (Player.score p) = true /\
              PyFloat.is_nan (Player.score p) = false)
      (players arena).
Proof.
  destruct (game_state line_up log Hplayers n)
    as (arena & log' & Hgame & _ & _ & _ & _ & Hall).
  exists arena, log'. split; [exact Hgame|].
  eapply Forall_impl; [exact (Hall Hfresh)|].
  intros p (Hlen & Hhead & Hlast & Hpos & _).
  repeat split; try done. by apply leb_zero_not_nan.
Qed.

(** X15. The game never restarts and never fails once it is over: from
    the tenth turn on, every further [do_turn] still returns, the
    counter stays at ten and [is_game_over] stays set; and after each
    such turn every player whose score equals the maximum of the scores
    of that moment is flagged as a winner. *)
Theorem game_after_the_end (line_up : list Player.t) (log : list event) (n : nat)
    (Hplayers : line_up <> []) (Hn : (10 <= n)%nat) :
  exists arena log' winning_score,
    game line_up n log = (Ok arena, log') /\
    turn arena = 10 /\ is_game_over arena = true /\
    max_of (Player.score <$> players arena) = Ok winning_score /\
    forall p, p ∈ players arena ->
      PyFloat.eqb (Player.score p) winning_score = true ->
      Player.is_winner p = true.
Proof.
  destruct n as [|m]; [lia|].
  destruct (game_state line_up log Hplayers m)
    as (arena & log1 & Hgame & Hturn & _ & Hne & _).
  assert (Hten : turn arena = 10) by lia.
  destruct (arena_do_turn_step arena log1 Hne)
    as (arena' & log' & l & Hrun & _ & Hturn' & Hover' & _ & Hwin).
  destruct (Hwin Hten) as (w & Hmax & Hflags).
  exists arena', log', w. rewrite game_succ, Hgame.
  split; [exact Hrun|].
  rewrite Hten in Hturn', Hover'.
  split; [exact Hturn'|]. split; [exact Hover'|]. split; [exact Hmax|].
  intros p Hp Heq.
  apply list_elem_of_lookup in Hp as [i Hi].
  rewrite Forall2_lookup in Hflags. specialize (Hflags i). rewrite Hi in Hflags.
  inversion Hflags as [q ? Hq|]; subst. rewrite Hq, Heq. apply orb_true_r.
Qed.

(** X16. Whatever happens in a game, the players at the table are the
    line-up it started with: after any number of turns the names of the
    players are the names of the line-up, in some order. *)
Theorem game_keeps_line_up (line_up : list Player.t) (log : list event) (n : nat)
    (Hplayers : line_up <> []) :
  exists arena log',
    game line_up n log = (Ok arena, log') /\
    Player.name <$> players arena ≡ₚ Player.name <$> line_up /\
    length (players arena) = length line_up.
Proof.
  destruct (game_state line_up log Hplayers n)
    as (arena & log' & Hgame & _ & _ & _ & Hnames & _).
  exists arena, log'. split; [exact Hgame|]. split; [exact Hnames|].
  apply Permutation_length in Hnames. by rewrite !length_fmap in Hnames.
Qed.

(** X17. When a game of fresh players ends with the tenth turn, the
    winners are exactly the players at the top: a player is flagged if
    and only if its score equals the maximum of the scores; and at least
    one player is flagged. *)
Theorem game_winners_exactly (line_up : list Player.t) (log : list event)
    (Hplayers : line_up <> []) (Hfresh : Forall fresh line_up) :
  exists arena log' winning_score,
    game line_up 10 log = (Ok arena, log') /\
    max_of (Player.score <$> players arena) = Ok winning_score /\
    (forall p, p ∈ players arena ->
       Player.is_winner p = PyFloat.eqb (Player.score p) winning_score) /\
    (exists p, p ∈ players arena /\ Player.is_winner p = true).
Proof.
  destruct (game_state line_up log Hplayers 9)
    as (arena & log1 & Hgame & Hturn & _ & Hne & _ & Hall).
  specialize (Hall Hfresh).
  assert (Hten : turn arena = 10) by lia.
  destruct (arena_do_turn_step arena log1 Hne)
    as (arena' & log' & l & Hrun & Hperm & _ & _ & Hstep & Hwin).
  destruct (Hwin Hten) as (w & Hmax & Hflags).
  rewrite <- Hperm in Hall.
  assert (Hexact : forall p, p ∈ players arena' ->
            Player.is_winner p = PyFloat.eqb (Player.score p) w /\
            PyFloat.is_nan (Player.score p) = false).
  { intros p' Hp'. apply list_elem_of_lookup in Hp' as [i Hi].
    rewrite Forall2_lookup in Hflags, Hstep.
    specialize (Hflags i). specialize (Hstep i). rewrite Hi in Hflags, Hstep.
    inversion Hflags as [p ? Hp Hl|]; subst.
    inversion Hstep as [p0 ? (_ & Hsign & _) Hl0|]; subst.
    assert (p0 = p) as -> by congruence.
    rewrite Forall_forall in Hall.
    destruct (Hall p) as (_ & _ & _ & Hpos & Hflag).
    { apply list_elem_of_lookup. exists i. by symmetry. }
    rewrite Hp, Hflag by lia. split; [done|].
    apply leb_zero_not_nan. by apply Hsign. }
  exists arena', log', w. rewrite game_succ, Hgame.
  split; [exact Hrun|]. split; [exact Hmax|].
  split; [intros p Hp; by apply Hexact|].
  destruct (max_of_spec _ _ Hmax) as [Hin _].
  apply list_elem_of_fmap in Hin as (p & Hw & Hp).
  exists p. split; [exact Hp|].
  destruct (Hexact p Hp) as [-> Hnan]. rewrite Hw. by apply eqb_refl.
Qed.

(** ** The score chart *)

Lemma dict_set_in {A} (k : pystr) (v : A) (d : list (pystr * A)) :
  forall kv, kv ∈ dict_set k v d -> kv = (k, v) \/ kv ∈ d.
Proof.
  induction d as [|[k' v'] d IH]; intros kv Hin; simpl in Hin.
  - apply list_elem_of_singleton in Hin. by left.
  - destruct (PyStr.eqb k' k) eqn:Hk.
    + apply pystr_eqb_eq in Hk as ->.
      apply elem_of_cons in Hin as [->|Hin]; [by left|]. right. by right.
    + apply elem_of_cons in Hin as [->|Hin]; [right; left|].
      destruct (IH kv Hin) as [->|Hd]; [by left|]. right. by right.
Qed.

Lemma table_columns (self : t) :
  forall kv, kv ∈ table self ->
  exists p, p ∈ players self /\
    kv = (Player.name p,
          take 11 (Player.series p ++
                   replicate (Z.to_nat (11 - turn self)) PyFloat.nan)).
Proof.
  unfold table. cbv zeta.
  set (f := fun d player => dict_set _ _ d).
  assert (Hgen : forall ps d kv, kv ∈ foldl f d ps ->
            kv ∈ d \/ exists p, p ∈ ps /\
              kv = (Player.name p,
                    take 11 (Player.series p ++
                             replicate (Z.to_nat (11 - turn self)) PyFloat.nan))).
  { induction ps as [|p ps IH]; intros d kv Hin; [by left|].
    simpl in Hin. destruct (IH _ _ Hin) as [Hd|(q & Hq & ->)].
    - subst f. simpl in Hd. apply dict_set_in in Hd as [->|Hd]; [|by left].
      right. exists p. split; [left|done].
    - right. exists q. split; [by right|done]. }
  intros kv Hin. destruct (Hgen _ _ _ Hin) as [Hnil|Hp]; [|done].
  by apply elem_of_nil in Hnil.
Qed.

(** X18. The score chart always fits its eleven rows. In a game of
    fresh players, after any number of turns, every column of
    [Arena.table] has exactly eleven entries; it is the series of a
    player of that name, followed by NaN for the turns not yet played,
    and cut after the eleventh entry. *)
Theorem game_table_has_eleven_rows (line_up : list Player.t) (log : list event)
    (n : nat) (Hplayers : line_up <> []) (Hfresh : Forall fresh line_up) :
  exists arena log',
    game line_up n log = (Ok arena, log') /\
    forall name column, (name, column) ∈ table arena ->
      length column = 11%nat /\
      exists p, p ∈ players arena /\ Player.name p = name /\
        column = take 11 (Player.series p ++
                          replicate (10 - n) PyFloat.nan).
Proof.
  destruct (game_state line_up log Hplayers n)
    as (arena & log' & Hgame & Hturn & _ & _ & _ & Hall).
  specialize (Hall Hfresh).
  exists arena, log'. split; [exact Hgame|].
  intros name column Hin.
  destruct (table_columns arena _ Hin) as (p & Hp & Heq).
  injection Heq as -> ->.
  rewrite Forall_forall in Hall. destruct (Hall p Hp) as (Hlen & _).
  split.
  - rewrite length_take, length_app, length_replicate, Hlen. lia.
  - exists p. split; [exact Hp|]. split; [reflexivity|].
    destruct (decide (n < 10)%nat) as [Hlt|Hge].
    + by replace (Z.to_nat (11 - turn arena)) with (10 - n)%nat by lia.
    + by rewrite !take_app_le by lia.
Qed.

End ArenaGame.

Lemma arena_do_turn_keeps_players_witness :
  let E := Fragment.externals [Ok Examples.json_reply; Ok Examples.json_reply;
                               Ok Examples.json_reply_90] in
  Arena.players (Arena.mk Examples.trio 1 false) <> [] /\
  exists self' log',
    Arena.do_turn (Arena.mk Examples.trio 1 false) [] = (Ok self', log') /\
    Player.name <$> Arena.players self' =
      [str "Vanilla"; str "Strategic"; str "Agressor"] /\
    (length ∘ Player.series <$> Arena.players self') = [2; 2; 2]%nat /\
    Player.prior_score <$> Arena.players self' =
      [PyFloat.zero; PyFloat.zero; PyFloat.zero].
Proof.
  intros E. split; [discriminate|].
  destruct (@arena_do_turn_keeps_players E (Arena.mk Examples.trio 1 false) [])
    as (self' & log' & l & Hrun & _); [discriminate|].
  exists self', log'. split; [exact Hrun|].
  vm_compute in Hrun. injection Hrun as <- _. repeat split; vm_compute; reflexivity.
Defined.

Lemma fresh_trio : Forall fresh Examples.trio.
Proof. by repeat constructor. Qed.

Lemma game_series_witness :
  let E := Fragment.externals Examples.ten_turns in
  Examples.trio <> [] /\ Forall fresh Examples.trio /\
  exists arena log',
    game Examples.trio 2 [] = (Ok arena, log') /\
    (length ∘ Player.series <$> Arena.players arena) = [3; 3; 3]%nat /\
    (head ∘ Player.series <$> Arena.players arena) =
      [Some PyFloat.zero; Some PyFloat.zero; Some PyFloat.zero].
Proof.
  intros E. split; [discriminate|]. split; [exact fresh_trio|].
  destruct (@game_series E Examples.trio [] 2) as (arena & log' & Hrun & _);
    [discriminate|exact fresh_trio|].
  exists arena, log'. split; [exact Hrun|].
  vm_compute in Hrun. injection Hrun as <- _. split; vm_compute; reflexivity.
Defined.

Lemma game_after_the_end_witness :
  let E := Fragment.externals [] in
  Examples.trio <> [] /\ (10 <= 12)%nat /\
  exists arena log',
    game Examples.trio 12 [] = (Ok arena, log') /\
    Arena.turn arena = 10 /\ Arena.is_game_over arena = true /\
    Player.is_winner <$> Arena.players arena = [true; true; true].
Proof.
  intros E. split; [discriminate|]. split; [lia|].
  destruct (@game_after_the_end E Examples.trio [] 12)
    as (arena & log' & w & Hrun & Hturn & Hover & _); [discriminate|lia|].
  exists arena, log'. split; [exact Hrun|]. split; [exact Hturn|]. split; [exact Hover|].
  vm_compute in Hrun. injection Hrun as <- _. vm_compute. reflexivity.
Defined.

Lemma game_keeps_line_up_witness :
  let E := Fragment.externals Examples.ten_turns in
  Examples.trio <> [] /\
  exists arena log',
    game Examples.trio 3 [] = (Ok arena, log') /\
    Player.name <$> Arena.players arena =
      [str "Vanilla"; str "Strategic"; str "Agressor"].
Proof.
  intros E. split; [discriminate|].
  destruct (@game_keeps_line_up E Examples.trio [] 3) as (arena & log' & Hrun & _);
    [discriminate|].
  exists arena, log'. split; [exact Hrun|].
  vm_compute in Hrun. injection Hrun as <- _. vm_compute. reflexivity.
Defined.

Lemma game_winners_exactly_witness :
  let E := Fragment.externals Examples.ten_turns in
  Examples.trio <> [] /\ Forall fresh Examples.trio /\
  exists arena log',
    game Examples.trio 10 [] = (Ok arena, log') /\
    Player.is_winner <$> Arena.players arena = [true; true; false].
Proof.
  intros E. split; [discriminate|]. split; [exact fresh_trio|].
  destruct (@game_winners_exactly E Examples.trio []) as (arena & log' & w & Hrun & _);
    [discriminate|exact fresh_trio|].
  exists arena, log'. split; [exact Hrun|].
  vm_compute in Hrun. injection Hrun as <- _. vm_compute. reflexivity.
Defined.

Lemma game_table_has_eleven_rows_witness :
  let E := Fragment.externals Examples.ten_turns in
  Examples.trio <> [] /\ Forall fresh Examples.trio /\
  exists arena log',
    game Examples.trio 2 [] = (Ok arena, log') /\
    (length ∘ snd <$> Arena.table arena) = [11; 11; 11]%nat /\
    fst <$> Arena.table arena = [str "Vanilla"; str "Strategic"; str "Agressor"].
Proof.
  intros E. split; [discriminate|]. split; [exact fresh_trio|].
  destruct (@game_table_has_eleven_rows E Examples.trio [] 2)
    as (arena & log' & Hrun & _); [discriminate|exact fresh_trio|].
  exists arena, log'. split; [exact Hrun|].
  vm_compute in Hrun. injection Hrun as <- _. split; vm_compute; reflexivity.
Defined.
(* ===================================================================== *)
(** * The class for a model name *)
(* ===================================================================== *)

Section ModelNames.

Import Llms.

Variable setup_client : cls -> result unit.

Lemma startswith_app (p rest : list N) : startswith (p ++ rest) p = true.
Proof. induction p as [|c p IH]; [by destruct rest|]. simpl. by rewrite N.eqb_refl. Qed.

Lemma startswith_inv (p : list N) :
  forall s, startswith s p = true -> exists rest, s = p ++ rest.
Proof.
  induction p as [|c p IH]; intros s Hs; [by exists s|].
  destruct s as [|c' s]; [discriminate|]. simpl in Hs.
  apply andb_true_iff in Hs as [Hc Hs]. apply N.eqb_eq in Hc as ->.
  destruct (IH s Hs) as [rest ->]. by exists rest.
Qed.

Lemma dict_find_registered (name : pystr) (mapping : list (pystr * cls)) (llm : cls) :
  dict_find name mapping = Some llm -> exists i, registered_at mapping i name llm.
Proof.
  induction mapping as [|[k v] d IH]; [discriminate|]. simpl.
  destruct (PyStr.eqb k name) eqn:Hk.
  - intros [= <-]. apply pystr_eqb_eq in Hk as ->. by exists 0%nat.
  - intros Hd. destruct (IH Hd) as [i Hi]. by exists (S i).
Qed.

Lemma dict_find_none (name : pystr) (mapping : list (pystr * cls)) :
  dict_find name mapping = None ->
  forall i r llm, registered_at mapping i r llm -> r <> name.
Proof.
  induction mapping as [|[k v] d IH]; intros Hd i r llm Hi; [done|].
  simpl in Hd. destruct (PyStr.eqb k name) eqn:Hk; [discriminate|].
  destruct i as [|i].
  - injection Hi as -> ->. intros ->.
    by rewrite (proj2 (pystr_eqb_eq name name) eq_refl) in Hk.
  - by apply (IH Hd i r llm).
Qed.

(** What a loop of [for_model_name] ends with: the length it reports
    bounds every registered name that passes; and either nothing was
    found that beats what the loop started with, or the class it reports
    is the one of the longest such name, the first one of that length. *)
Lemma scan_spec (test : pystr -> bool) (mapping : list (pystr * cls)) :
  forall best_match best_len,
  let result := scan test mapping (best_match, best_len) in
  (forall j r llm, registered_at mapping j r llm -> test r = true ->
     Z.of_nat (length r) <= result.2) /\
  ((result = (best_match, best_len)) \/
   (exists i r llm,
      longest_at test mapping i r llm /\
      result = (Some llm, Z.of_nat (length r)) /\ best_len < Z.of_nat (length r))).
Proof.
  unfold scan, registered_at, longest_at.
  induction mapping as [|[r0 c0] l IH] using rev_ind; intros best_match best_len.
  - cbn zeta. split; [done|]. by left.
  - cbn zeta. rewrite foldl_app. cbn [foldl].
    specialize (IH best_match best_len). cbn zeta in IH.
    destruct (foldl _ (best_match, best_len) l) as [b1 len1] eqn:Hfold.
    destruct IH as [Hbound Hcase]. cbn [snd] in Hbound.
    assert (Hold : forall j r llm, (l ++ [(r0, c0)]) !! j = Some (r, llm) ->
              (j < length l)%nat -> l !! j = Some (r, llm)).
    { intros j r llm Hj Hlt. by rewrite lookup_app_l in Hj. }
    assert (Hnew : forall j r llm, (l ++ [(r0, c0)]) !! j = Some (r, llm) ->
              ~ (j < length l)%nat -> j = length l /\ r = r0 /\ llm = c0).
    { intros j r llm Hj Hge. rewrite lookup_app_r in Hj by lia.
      destruct (j - length l)%nat as [|k] eqn:Hk; [|done].
      injection Hj as <- <-. split; [lia|done]. }
    destruct (test r0) eqn:Htest; [destruct (Z.of_nat (length r0) >? len1) eqn:Hgt|].
    + (* the last name is the longest so far *)
      apply Z.gtb_lt in Hgt. split.
      * intros j r llm Hj Hr. cbn [snd].
        destruct (decide (j < length l)%nat) as [Hlt|Hge].
        -- specialize (Hbound j r llm (Hold _ _ _ Hj Hlt) Hr). lia.
        -- destruct (Hnew _ _ _ Hj Hge) as (_ & -> & _). lia.
      * right. exists (length l), r0, c0. split; [|split; [done|]].
        -- split; [by apply list_lookup_middle|]. split; [done|].
           intros j r llm Hj Hr.
           destruct (decide (j < length l)%nat) as [Hlt|Hge].
           ++ specialize (Hbound j r llm (Hold _ _ _ Hj Hlt) Hr). lia.
           ++ destruct (Hnew _ _ _ Hj Hge) as (-> & -> & _). lia.
        -- destruct Hcase as [[= -> ->]|(i & r & llm & _ & [= -> ->] & Hlt)]; lia.
    + (* the last name passes but is not longer *)
      rewrite Z.gtb_ltb in Hgt. apply Z.ltb_ge in Hgt. split.
      * intros j r llm Hj Hr. cbn [snd].
        destruct (decide (j < length l)%nat) as [Hlt|Hge].
        -- exact (Hbound j r llm (Hold _ _ _ Hj Hlt) Hr).
        -- by destruct (Hnew _ _ _ Hj Hge) as (_ & -> & _).
      * destruct Hcase as [Hsame|(i & r & llm & (Hi & Hr & Hmax) & Hres & Hlt)];
          [by left|].
        right. exists i, r, llm. split; [|done].
        split; [by apply lookup_app_l_Some|]. split; [done|].
        intros j r' llm' Hj Hr'.
        destruct (decide (j < length l)%nat) as [Hjl|Hge].
        -- exact (Hmax j r' llm' (Hold _ _ _ Hj Hjl) Hr').
        -- destruct (Hnew _ _ _ Hj Hge) as (-> & -> & _).
           injection Hres as _ ->. apply lookup_lt_Some in Hi. lia.
    + (* the last name does not pass *)
      split.
      * intros j r llm Hj Hr. cbn [snd].
        destruct (decide (j < length l)%nat) as [Hlt|Hge].
        -- exact (Hbound j r llm (Hold _ _ _ Hj Hlt) Hr).
        -- destruct (Hnew _ _ _ Hj Hge) as (_ & -> & _). congruence.
      * destruct Hcase as [Hsame|(i & r & llm & (Hi & Hr & Hmax) & Hres & Hlt)];
          [by left|].
        right. exists i, r, llm. split; [|done].
        split; [by apply lookup_app_l_Some|]. split; [done|].
        intros j r' llm' Hj Hr'.
        destruct (decide (j < length l)%nat) as [Hjl|Hge].
        -- exact (Hmax j r' llm' (Hold _ _ _ Hj Hjl) Hr').
        -- destruct (Hnew _ _ _ Hj Hge) as (_ & -> & _). congruence.
Qed.

(** Two names that are both the longest and the first of their length
    are the same entry. *)
Lemma longest_at_unique (test : pystr -> bool) (mapping : list (pystr * cls))
    (i j : nat) (r r' : pystr) (llm llm' : cls) :
  longest_at test mapping i r llm -> longest_at test mapping j r' llm' ->
  llm = llm'.
Proof.
  intros (Hi & Hr & Hmax) (Hj & Hr' & Hmax').
  destruct (Hmax j r' llm' Hj Hr') as [Hle Hfirst].
  destruct (Hmax' i r llm Hi Hr) as [Hle' Hfirst'].
  assert (Hlen : length r' = length r) by lia.
  assert (i = j) as -> by (specialize (Hfirst Hlen); specialize (Hfirst' (eq_sym Hlen)); lia).
  unfold registered_at in *. congruence.
Qed.

(** A loop that starts with nothing finds something as soon as one
    registered name passes. *)
Lemma scan_from_nothing (test : pystr -> bool) (mapping : list (pystr * cls)) :
  (scan test mapping (None, -1) = (None, -1) /\
   forall j r llm, registered_at mapping j r llm -> test r = false) \/
  (exists i r llm, longest_at test mapping i r llm /\
     scan test mapping (None, -1) = (Some llm, Z.of_nat (length r))).
Proof.
  destruct (scan_spec test mapping None (-1)) as [Hbound [Hres|(i & r & llm & Hl & Hres & _)]];
    cbn zeta in *.
  - left. split; [exact Hres|]. intros j r llm Hj.
    destruct (test r) eqn:Hr; [|done].
    specialize (Hbound j r llm Hj Hr). rewrite Hres in Hbound. simpl in Hbound. lia.
  - right. by exists i, r, llm.
Qed.

(** X19. Which names [for_model_name] knows. A name that is registered
    gets the class it is registered for. A name is refused with the
    [ValueError] when no registered name is a prefix of it and it is the
    prefix of no registered name; every other name is accepted and gets
    the class of a registered name related to it in one of these two
    ways. The instance carries the name as it was requested. *)
Theorem for_model_name_known_names (mapping : list (pystr * cls))
    (model_name : pystr) (temperature : float) :
  (forall llm, dict_find model_name mapping = Some llm ->
     for_model_name_in setup_client mapping model_name temperature =
       instantiate setup_client llm model_name temperature) /\
  ((forall j r llm, registered_at mapping j r llm ->
      startswith model_name r = false /\ startswith r model_name = false) ->
   for_model_name_in setup_client mapping model_name temperature =
     Raise (ValueError "Unknown model name")) /\
  ((exists j r llm, registered_at mapping j r llm /\
      (startswith model_name r = true \/ startswith r model_name = true)) ->
   exists i r llm,
     registered_at mapping i r llm /\
     (startswith model_name r = true \/ startswith r model_name = true) /\
     for_model_name_in setup_client mapping model_name temperature =
       instantiate setup_client llm model_name temperature).
Proof.
  unfold for_model_name_in. split; [by intros llm ->|].
  destruct (dict_find model_name mapping) as [llm0|] eqn:Hfind.
  { split.
    - intros Hnone. destruct (dict_find_registered _ _ _ Hfind) as [i Hi].
      destruct (Hnone i _ _ Hi) as [Hself _].
      rewrite <- (app_nil_r model_name) in Hself at 1.
      by rewrite startswith_app in Hself.
    - intros _. destruct (dict_find_registered _ _ _ Hfind) as [i Hi].
      exists i, model_name, llm0. split; [exact Hi|]. split; [|done].
      left. rewrite <- (app_nil_r model_name) at 1. apply startswith_app. }
  destruct (scan_from_nothing (fun r => startswith model_name r) mapping)
    as [[Hres1 Hnone1]|(i & r & llm & Hl & Hres1)]; rewrite Hres1.
  - destruct (scan_from_nothing (fun r => startswith r model_name) mapping)
      as [[Hres2 Hnone2]|(i & r & llm & Hl & Hres2)]; rewrite Hres2.
    + split; [done|]. intros (j & r & llm & Hj & [Hr|Hr]).
      * by rewrite (Hnone1 j r llm Hj) in Hr.
      * by rewrite (Hnone2 j r llm Hj) in Hr.
    + destruct Hl as (Hi & Hr & _). split.
      * intros Hnone. destruct (Hnone i r llm Hi) as [_ Hno]. congruence.
      * intros _. exists i, r, llm. split; [exact Hi|]. split; [by right|done].
  - destruct Hl as (Hi & Hr & _). split.
    + intros Hnone. destruct (Hnone i r llm Hi) as [Hno _]. congruence.
    + intros _. exists i, r, llm. split; [exact Hi|]. split; [by left|done].
Qed.

(** X20. The longest match wins. For a name that is not registered
    itself: if registered names are prefixes of it, it gets the class of
    the longest of them; if none is, it gets the class of the longest
    registered name that it is a prefix of, the first one in the mapping
    among several of that length. *)
Theorem for_model_name_longest_match (mapping : list (pystr * cls))
    (model_name : pystr) (temperature : float)
    (i : nat) (r : pystr) (llm : cls)
    (Hnew : dict_find model_name mapping = None) :
  (longest_at (fun r => startswith model_name r) mapping i r llm ->
   for_model_name_in setup_client mapping model_name temperature =
     instantiate setup_client llm model_name temperature) /\
  ((forall j r' llm', registered_at mapping j r' llm' ->
      startswith model_name r' = false) ->
   longest_at (fun r => startswith r model_name) mapping i r llm ->
   for_model_name_in setup_client mapping model_name temperature =
     instantiate setup_client llm model_name temperature).
Proof.
  unfold for_model_name_in. rewrite Hnew. split.
  - intros Hlongest.
    destruct (scan_from_nothing (fun r => startswith model_name r) mapping)
      as [[_ Hnone]|(i0 & r0 & llm0 & Hl0 & ->)].
    + destruct Hlongest as (Hi & Hr & _). by rewrite (Hnone i r llm Hi) in Hr.
    + by rewrite (longest_at_unique _ _ _ _ _ _ _ _ Hl0 Hlongest).
  - intros Hnone Hlongest.
    destruct (scan_from_nothing (fun r => startswith model_name r) mapping)
      as [[-> _]|(i0 & r0 & llm0 & (Hi0 & Hr0 & _) & _)].
    + destruct (scan_from_nothing (fun r => startswith r model_name) mapping)
        as [[_ Hnone2]|(i0 & r0 & llm0 & Hl0 & ->)].
      * destruct Hlongest as (Hi & Hr & _). by rewrite (Hnone2 i r llm Hi) in Hr.
      * by rewrite (longest_at_unique _ _ _ _ _ _ _ _ Hl0 Hlongest).
    + by rewrite (Hnone i0 r0 llm0 Hi0) in Hr0.
Qed.

(** X21. The strategic aliases. Every model name that starts with
    [gpt-5-strategic], such as [gpt-5-strategic-k2], is served by
    [StrategicGPT], although [gpt-5] is a registered prefix of it too;
    the instance keeps the alias as its model name. *)
Theorem for_model_name_strategic_alias (suffix : pystr) (temperature : float) :
  for_model_name setup_client (str "gpt-5-strategic" ++ suffix) temperature =
    instantiate setup_client StrategicGPT (str "gpt-5-strategic" ++ suffix) temperature.
Proof.
  unfold for_model_name, for_model_name_in.
  destruct suffix as [|c suffix]; vm_compute; reflexivity.
Qed.

(** X22. A player always gets a model, as long as the client of [GPT]
    can be set up: whatever model name is asked for, known or not, and
    whatever goes wrong in setting up the client of its class, the
    choice made in [Player.__init__] falls back on [gpt-5-mini], which
    is registered for [GPT]. *)
Theorem for_player_falls_back (model_name : pystr) (temp_used : float)
    (Hclient : setup_client GPT = Ok tt) :
  exists llm, for_player setup_client model_name temp_used = Ok llm /\
    (is_ok (for_model_name setup_client model_name temp_used) = false ->
     llm = mk GPT (str "gpt-5-mini") temp_used).
Proof.
  unfold for_player, rtry.
  destruct (for_model_name setup_client model_name temp_used) as [llm|e].
  - by exists llm.
  - exists (mk GPT (str "gpt-5-mini") temp_used). split; [|done].
    unfold for_model_name, for_model_name_in.
    assert (Hfind : dict_find (str "gpt-5-mini") model_map = Some GPT)
      by (vm_compute; reflexivity).
    rewrite Hfind. unfold instantiate. by rewrite Hclient.
Qed.

End ModelNames.

Lemma for_model_name_longest_match_witness :
  dict_find Cases.alias_k2 Llms.model_map = None /\
  Llms.for_model_name Cases.any_client Cases.alias_k2 PyFloat.zero =
    Ok (Llms.mk Llms.StrategicGPT Cases.alias_k2 PyFloat.zero).
Proof.
  assert (Hnew : dict_find Cases.alias_k2 Llms.model_map = None) by (vm_compute; reflexivity).
  split; [exact Hnew|].
  unfold Llms.for_model_name.
  rewrite (proj1 (for_model_name_longest_match Cases.any_client Llms.model_map
                    Cases.alias_k2 PyFloat.zero 3 (str "gpt-5-strategic")
                    Llms.StrategicGPT Hnew)); [reflexivity|].
  split; [reflexivity|]. split; [vm_compute; reflexivity|].
  intros j name' llm' Hj Htest. unfold registered_at in Hj.
  do 11 (destruct j as [|j];
         [injection Hj as <- <-; vm_compute in Htest; try discriminate Htest;
          (split; [vm_compute; lia|
                   intros Hlen; vm_compute in Hlen; first [discriminate Hlen|lia]])|]).
  discriminate Hj.
Defined.

Lemma for_player_falls_back_witness :
  Cases.gpt_client_only Llms.GPT = Ok tt /\
  Llms.for_player Cases.gpt_client_only (str "claude-haiku-4-5") PyFloat.zero =
    Ok (Llms.mk Llms.GPT (str "gpt-5-mini") PyFloat.zero).
Proof.
  split; [reflexivity|].
  destruct (for_player_falls_back Cases.gpt_client_only (str "claude-haiku-4-5")
              PyFloat.zero eq_refl) as (llm & Hrun & Hllm).
  rewrite Hrun. f_equal. apply Hllm. vm_compute. reflexivity.
Defined.
(* ===================================================================== *)
(** * The CSV fallback of the games *)
(* ===================================================================== *)

Section GamesCsv.

Import Games.

Lemma unescape_cons (c : N) (s : list N) :
  c <> quote -> unescape (c :: s) = c :: unescape s.
Proof.
  intros Hc. cbn [unescape]. destruct s as [|c' s']; [done|].
  destruct (N.eqb_spec c quote) as [->|_]; [done|]. done.
Qed.

Lemma unescape_escape (s : list N) : unescape (escape s) = s.
Proof.
  induction s as [|c s IH]; [done|]. cbn [escape].
  destruct (N.eqb_spec c quote) as [->|Hc].
  - cbn [unescape]. rewrite !N.eqb_refl. cbn [andb]. by rewrite IH.
  - rewrite unescape_cons by done. by rewrite IH.
Qed.

Lemma split_once_absent (sep : N) (first rest : list N) :
  sep ∉ first -> split_once sep (first ++ sep :: rest) = [first; rest].
Proof.
  induction first as [|c first IH]; intros Hsep; simpl.
  - by rewrite N.eqb_refl.
  - apply not_elem_of_cons in Hsep as [Hc Hfirst].
    destruct (N.eqb_spec c sep) as [->|_]; [done|]. by rewrite IH.
Qed.

Lemma lstrip_head (c : N) (s : list N) :
  Referee.is_space c = false -> lstrip (c :: s) = c :: s.
Proof. intros Hc. simpl. by rewrite Hc. Qed.

Lemma strip_csv_line (run_date results : list N) :
  (forall c, head run_date = Some c -> Referee.is_space c = false) ->
  strip (csv_line run_date results) =
    run_date ++ comma :: (quote :: escape results ++ [quote]).
Proof.
  intros Hblank. unfold csv_line. cbv zeta. unfold strip, rstrip.
  assert (Hl : forall rest, lstrip (run_date ++ [comma] ++ rest) =
                            run_date ++ [comma] ++ rest).
  { intros rest. destruct run_date as [|c d]; [done|].
    simpl. by rewrite (Hblank c eq_refl). }
  rewrite Hl.
  set (front := run_date ++ [comma] ++ [quote] ++ escape results).
  assert (Hrev : reverse (run_date ++ [comma] ++ [quote] ++ escape results ++
                            [quote] ++ [newline]) =
                 newline :: quote :: reverse front).
  { replace (run_date ++ [comma] ++ [quote] ++ escape results ++ [quote] ++ [newline])
      with (front ++ [quote; newline])
      by (subst front; by rewrite <- !app_assoc).
    by rewrite reverse_app. }
  rewrite Hrev. cbn [lstrip].
  replace (Referee.is_space newline) with true by reflexivity.
  replace (Referee.is_space quote) with false by reflexivity.
  rewrite reverse_cons, reverse_involutive. subst front.
  by rewrite <- !app_assoc.
Qed.

Lemma parse_line_stripped (line run_date results : list N) :
  comma ∉ run_date ->
  strip line = run_date ++ comma :: (quote :: escape results ++ [quote]) ->
  parse_line line = Some (run_date, results).
Proof.
  intros Hcomma Hstrip. unfold parse_line. rewrite Hstrip.
  destruct (run_date ++ comma :: (quote :: escape results ++ [quote]))
    as [|b0 body'] eqn:Hb.
  { by destruct run_date. }
  rewrite <- Hb. clear Hb. rewrite split_once_absent by done.
  assert (Hhead : head (quote :: escape results ++ [quote]) = Some quote) by done.
  assert (Hlast : last (quote :: escape results ++ [quote]) = Some quote).
  { change (quote :: escape results ++ [quote]) with ((quote :: escape results) ++ [quote]).
    apply last_snoc. }
  rewrite Hhead, Hlast.
  rewrite !bool_decide_eq_true_2 by done. cbn [andb].
  assert (Hinner : inner (quote :: escape results ++ [quote]) = escape results).
  { unfold inner. simpl. rewrite length_app. simpl.
    replace (length (escape results) + 1 - 1)%nat with (length (escape results)) by lia.
    rewrite drop_0. by rewrite take_app_length. }
  by rewrite Hinner, unescape_escape.
Qed.

(** X23. What [Game.save] writes for a game, the loop of [Game.latest]
    takes apart again: the line gives back the date and, whatever quotes
    and commas it holds, the very text of the results, provided the date
    has no comma in it and does not begin with a blank. *)
Theorem csv_line_round_trip (run_date results : pystr)
    (Hcomma : comma ∉ run_date)
    (Hblank : forall c, head run_date = Some c -> Referee.is_space c = false) :
  parse_line (csv_line run_date results) = Some (run_date, results) /\
  unescape (escape results) = results.
Proof.
  split; [|apply unescape_escape].
  apply parse_line_stripped; [exact Hcomma|]. by apply strip_csv_line.
Qed.

Lemma csv_line_round_trip_witness :
  (comma ∉ Cases.run_date) /\
  (forall c, head Cases.run_date = Some c -> Referee.is_space c = false) /\
  parse_line (csv_line Cases.run_date Cases.results_json) =
    Some (Cases.run_date, Cases.results_json).
Proof.
  assert (H1 : comma ∉ Cases.run_date) by decided.
  assert (H2 : forall c, head Cases.run_date = Some c -> Referee.is_space c = false).
  { intros c Hc. vm_compute in Hc. by injection Hc as <-. }
  split; [exact H1|]. split; [exact H2|].
  exact (proj1 (csv_line_round_trip Cases.run_date Cases.results_json H1 H2)).
Defined.

End GamesCsv.

(* ===================================================================== *)
(** * The rows of the move log *)
(* ===================================================================== *)

Section MoveLogRows.

Import MoveLogger.

Lemma join_cons (f : pystr) (rest : list pystr) :
  rest <> [] -> join (f :: rest) = f ++ [Games.comma] ++ join rest.
Proof. intros Hne. by destruct rest. Qed.

Lemma join_app (a b : list pystr) :
  a <> [] -> b <> [] -> join (a ++ b) = join a ++ [Games.comma] ++ join b.
Proof.
  induction a as [|f a IH]; intros Ha Hb; [done|].
  destruct a as [|f' a].
  - simpl app. by rewrite join_cons.
  - rewrite <- app_comm_cons, join_cons by done.
    rewrite IH by done. rewrite (join_cons f (f' :: a)) by done.
    by rewrite <- !app_assoc.
Qed.

(** The dictionary of pairs whose keys all differ is the list of the
    pairs. *)
Lemma foldl_dict_set_fresh (pairs : list (pystr * pystr)) :
  forall d,
  NoDup (pairs.*1) -> (forall kv, kv ∈ d -> kv.1 ∉ pairs.*1) ->
  foldl (fun d '(k, v) => dict_set k v d) d pairs = d ++ pairs.
Proof.
  induction pairs as [|[k v] pairs IH]; intros d Hnodup Hfresh.
  - by rewrite app_nil_r.
  - rewrite fmap_cons in Hnodup. apply NoDup_cons in Hnodup as [Hk Hnodup].
    cbn [foldl]. rewrite dict_set_fresh; cycle 1.
    { intros kv Hin Heq. apply (Hfresh kv Hin). rewrite fmap_cons, Heq. left. }
    rewrite IH.
    + by rewrite <- app_assoc.
    + exact Hnodup.
    + intros kv [Hin|Hin]%elem_of_app.
      * intros Hkv. apply (Hfresh kv Hin). rewrite fmap_cons. by right.
      * apply list_elem_of_singleton in Hin as ->. exact Hk.
Qed.

Lemma fit_length (header r : list pystr) :
  header <> [] -> length (fit header r) = length header.
Proof.
  intros Hne. unfold fit. cbv zeta.
  assert (Hn : (0 < length header)%nat) by (destruct header; [done|simpl; lia]).
  destruct (Z.of_nat (length r) >? Z.of_nat (length header)) eqn:Hlong.
  - apply Z.gtb_lt in Hlong.
    assert (Hlen : length (upto (Z.of_nat (length header) - 1) r ++
                           [join (from (Z.of_nat (length header) - 1) r)]) =
                   length header).
    { unfold upto. replace (Z.of_nat (length header) - 1 <? 0) with false
        by (symmetry; apply Z.ltb_ge; lia).
      rewrite length_app, length_take. simpl. lia. }
    rewrite Hlen. by rewrite Z.ltb_irrefl.
  - rewrite Z.gtb_ltb in Hlong. apply Z.ltb_ge in Hlong.
    destruct (Z.of_nat (length r) <? Z.of_nat (length header)) eqn:Hshort; [|].
    + apply Z.ltb_lt in Hshort. rewrite length_app, length_replicate. lia.
    + apply Z.ltb_ge in Hshort. lia.
Qed.

(** X24. Every row of the move log is made to fit the header it is read
    under, as long as the header has a column at all. The row ends with
    as many fields as the header has columns. A row of the right length
    is left as it is, a short one gets empty fields at its end, and a
    long one loses no text: its surplus fields are joined by commas in
    the last column, so that joining the fields of the fitted row gives
    what joining the fields of the row gave. Under a header whose names
    all differ, the dictionary of the row has the names of the header as
    its keys, in that order. *)
Theorem fit_makes_rows_fit (header r : list pystr) (Hcolumns : header <> []) :
  length (fit header r) = length header /\
  (length r = length header -> fit header r = r) /\
  ((length r < length header)%nat ->
   fit header r = r ++ replicate (length header - length r) []) /\
  ((length header < length r)%nat -> join (fit header r) = join r) /\
  (NoDup header -> (zip_dict header (fit header r)).*1 = header).
Proof.
  split; [by apply fit_length|].
  assert (Hn : (0 < length header)%nat) by (destruct header; [done|simpl; lia]).
  split; [|split; [|split]].
  - intros Heq. unfold fit. cbv zeta.
    replace (Z.of_nat (length r) >? Z.of_nat (length header)) with false
      by (symmetry; rewrite Z.gtb_ltb; apply Z.ltb_ge; lia).
    by replace (Z.of_nat (length r) <? Z.of_nat (length header)) with false
      by (symmetry; apply Z.ltb_ge; lia).
  - intros Hshort. unfold fit. cbv zeta.
    replace (Z.of_nat (length r) >? Z.of_nat (length header)) with false
      by (symmetry; rewrite Z.gtb_ltb; apply Z.ltb_ge; lia).
    replace (Z.of_nat (length r) <? Z.of_nat (length header)) with true
      by (symmetry; apply Z.ltb_lt; lia).
    f_equal. f_equal. lia.
  - intros Hlong. unfold fit. cbv zeta.
    replace (Z.of_nat (length r) >? Z.of_nat (length header)) with true
      by (symmetry; apply Z.gtb_lt; lia).
    unfold upto, from.
    replace (Z.of_nat (length header) - 1 <? 0) with false
      by (symmetry; apply Z.ltb_ge; lia).
    replace (Z.to_nat (Z.of_nat (length header) - 1)) with (length header - 1)%nat by lia.
    set (k := (length header - 1)%nat).
    assert (Hlen : length (take k r ++ [join (drop k r)]) = length header).
    { rewrite length_app, length_take. simpl. lia. }
    rewrite Hlen, Z.ltb_irrefl.
    assert (Hdrop : drop k r <> []).
    { intros Hnil. apply (f_equal length) in Hnil. rewrite length_drop in Hnil.
      simpl in Hnil. lia. }
    destruct (decide (k = 0%nat)) as [->|Hk].
    + by rewrite take_0, drop_0.
    + assert (Htake : take k r <> []).
      { intros Hnil. apply (f_equal length) in Hnil. rewrite length_take in Hnil.
        simpl in Hnil. lia. }
      rewrite join_app by done. cbn [join].
      rewrite <- join_app by done. by rewrite take_drop.
  - intros Hnodup. unfold zip_dict.
    rewrite foldl_dict_set_fresh; cycle 1.
    + rewrite fst_zip; [done|]. rewrite fit_length by done. lia.
    + intros kv Hin. by apply elem_of_nil in Hin.
    + rewrite app_nil_l. apply fst_zip. rewrite fit_length by done. lia.
Qed.

Lemma fit_makes_rows_fit_witness :
  Cases.header3 <> [] /\
  fit Cases.header3 Cases.long_row = [str "1"; str "Vanilla"; str "I guess, 50"] /\
  fit Cases.header3 Cases.short_row = [str "1"; []; []] /\
  length (fit Cases.header3 Cases.long_row) = length Cases.header3.
Proof.
  split; [discriminate|]. split; [vm_compute; reflexivity|].
  split; [vm_compute; reflexivity|].
  exact (proj1 (fit_makes_rows_fit Cases.header3 Cases.long_row ltac:(discriminate))).
Defined.

End MoveLogRows.
(* ===================================================================== *)
(** * The file of the games *)
(* ===================================================================== *)

Section GamesFile.

Import Games.

Lemma universal_plain (s : list N) : (carriage ∉ s) -> universal s = s.
Proof.
  induction s as [|c s IH]; intros Hs; [done|].
  apply not_elem_of_cons in Hs as [Hc Hs]. cbn [universal].
  destruct (N.eqb_spec c carriage) as [->|_]; [done|]. by rewrite IH.
Qed.

Lemma lines_from_line (body rest current : list N) :
  (newline ∉ body) ->
  lines_from current (body ++ newline :: rest) =
    (current ++ body ++ [newline]) :: lines_from [] rest.
Proof.
  revert current. induction body as [|c body IH]; intros current Hbody.
  - reflexivity.
  - apply not_elem_of_cons in Hbody as [Hc Hbody].
    rewrite <- app_comm_cons. cbn [lines_from].
    destruct (N.eqb_spec c newline) as [->|_]; [done|].
    rewrite IH by done. by rewrite <- app_assoc.
Qed.

Lemma lines_from_concat (lines : list (list N)) :
  Forall is_line lines -> lines_from [] (concat lines) = lines.
Proof.
  induction 1 as [|line lines (body & -> & Hbody) _ IH]; [done|].
  simpl concat. rewrite <- app_assoc. simpl app.
  rewrite lines_from_line by done. by rewrite IH.
Qed.

Lemma escape_keeps_out (c : N) (s : list N) :
  c <> quote -> (c ∉ s) -> c ∉ escape s.
Proof.
  intros Hq. induction s as [|c' s IH]; intros Hs; [done|].
  apply not_elem_of_cons in Hs as [Hc Hs]. cbn [escape].
  destruct (N.eqb_spec c' quote) as [->|_];
    rewrite !not_elem_of_cons; auto.
Qed.

(** No line break gets into the line of a game from the comma and the
    quotes that [Game.save] puts in. *)
Lemma csv_line_body (c : N) (run_date results : list N) :
  c <> quote -> c <> comma -> (c ∉ run_date) -> (c ∉ results) ->
  c ∉ run_date ++ [comma] ++ [quote] ++ escape results ++ [quote].
Proof.
  intros Hq Hc Hdate Hresults.
  rewrite !not_elem_of_app. repeat split; try done.
  - by intros ->%list_elem_of_singleton.
  - by intros ->%list_elem_of_singleton.
  - by apply escape_keeps_out.
  - by intros ->%list_elem_of_singleton.
Qed.

Lemma csv_line_is_line (game : list N * list N) :
  writable game -> is_line (uncurry csv_line game) /\
                   (carriage ∉ uncurry csv_line game).
Proof.
  destruct game as [run_date results].
  intros (_ & _ & Hn & Hr & Hn' & Hr'). split.
  - exists (run_date ++ [comma] ++ [quote] ++ escape results ++ [quote]). split.
    + unfold uncurry, csv_line. cbn [fst snd]. cbv zeta. by rewrite <- !app_assoc.
    + by apply csv_line_body.
  - unfold uncurry, csv_line. cbn [fst snd]. cbv zeta.
    replace (run_date ++ [comma] ++ [quote] ++ escape results ++ [quote] ++ [newline])
      with ((run_date ++ [comma] ++ [quote] ++ escape results ++ [quote]) ++ [newline])
      by (by rewrite <- !app_assoc).
    apply not_elem_of_app. split; [by apply csv_line_body|].
    by intros Heq%list_elem_of_singleton.
Qed.

(** The text of the file after the games have been saved, one after the
    other, none being there before: the header and a line for each. *)
Lemma saved_more (content : list N) (games : list (list N * list N)) :
  foldl (fun file '(run_date, results) => Some (save file run_date results))
    (Some content) games =
  Some (content ++ concat (uncurry csv_line <$> games)).
Proof.
  revert content. induction games as [|[run_date results] games IH]; intros content.
  - simpl. by rewrite app_nil_r.
  - cbn [foldl]. unfold save at 2. simpl default.
    rewrite bool_decide_eq_true_2 by (by eexists). cbn [negb].
    rewrite IH. rewrite fmap_cons. cbn [concat uncurry fst snd].
    rewrite app_nil_l. by rewrite <- app_assoc.
Qed.

Lemma saved_content (games : list (list N * list N)) :
  games <> [] ->
  saved games = Some (header_line ++ concat (uncurry csv_line <$> games)).
Proof.
  destruct games as [|[run_date results] games]; [done|]. intros _.
  unfold saved. cbn [foldl]. unfold save at 2. simpl default.
  rewrite bool_decide_eq_false_2 by (by intros [? ?]). cbn [negb].
  rewrite saved_more. rewrite fmap_cons. cbn [concat uncurry fst snd].
  rewrite app_nil_l. by rewrite <- app_assoc.
Qed.

Lemma header_is_line : is_line header_line /\ (carriage ∉ header_line).
Proof.
  split.
  - exists (str "run_date,results"). split; [reflexivity|decided].
  - decided.
Qed.

Lemma concat_keeps_out (c : N) (lines : list (list N)) :
  Forall (fun l => c ∉ l) lines -> c ∉ concat lines.
Proof.
  induction 1 as [|line lines Hline _ IH]; [by intros ?%elem_of_nil|].
  cbn [concat]. by apply not_elem_of_app.
Qed.

Lemma readlines_saved (games : list (list N * list N)) :
  Forall writable games ->
  readlines (header_line ++ concat (uncurry csv_line <$> games)) =
    header_line :: (uncurry csv_line <$> games).
Proof.
  intros Hgames. unfold readlines.
  assert (Hlines : Forall (fun l => is_line l /\ (carriage ∉ l))
                     (uncurry csv_line <$> games)).
  { apply Forall_fmap. eapply Forall_impl; [exact Hgames|].
    intros game Hgame. by apply csv_line_is_line. }
  rewrite universal_plain.
  - change (header_line ++ concat (uncurry csv_line <$> games))
      with (concat (header_line :: (uncurry csv_line <$> games))).
    apply lines_from_concat. constructor; [apply header_is_line|].
    eapply Forall_impl; [exact Hlines|]. by intros l [? _].
  - apply not_elem_of_app. split; [apply header_is_line|].
    apply concat_keeps_out.
    eapply Forall_impl; [exact Hlines|]. by intros l [_ ?].
Qed.

Lemma parse_saved_line (game : list N * list N) :
  writable game -> parse_line (uncurry csv_line game) = Some game.
Proof.
  destruct game as [run_date results]. intros (Hcomma & Hblank & _).
  apply parse_line_stripped; [exact Hcomma|]. by apply strip_csv_line.
Qed.

Lemma saved_line_not_blank (game : list N * list N) :
  writable game -> strip (uncurry csv_line game) <> [].
Proof.
  destruct game as [run_date results]. intros (_ & Hblank & _).
  unfold uncurry. simpl. rewrite strip_csv_line by done. by destruct run_date.
Qed.

Section Rows.

Context {G : Type} (decode : list N -> list N -> option G).

Local Abbreviation row := (saved_row decode).

Lemma rows_after_first (f : nat -> list N -> nat * list N) (lines : list (list N)) :
  (forall i line, exists j, f i line = (S j, line)) ->
  omap (fun '(i, line) =>
          if (i =? 0)%nat && Llms.startswith line (str "run_date") then None
          else
            '(run_date_str, results_json) ← parse_line line;
            decode run_date_str results_json)
    (imap f lines) = omap row lines.
Proof.
  revert f. induction lines as [|line lines IH]; intros f Hf; [done|].
  cbn [imap]. destruct (Hf 0%nat line) as [j ->].
  transitivity (match row line with
                | Some game => game :: omap row lines
                | None => omap row lines
                end); [|reflexivity].
  rewrite <- (IH (f ∘ S)) by (intros i l; apply Hf).
  reflexivity.
Qed.

Lemma rows_saved (games : list (list N * list N)) :
  Forall writable games ->
  omap row (uncurry csv_line <$> games) = omap (uncurry decode) games.
Proof.
  induction 1 as [|game games Hgame _ IH]; [done|].
  assert (Hrow : row (uncurry csv_line game) = uncurry decode game).
  { unfold row. rewrite parse_saved_line by done. by destruct game. }
  transitivity (match row (uncurry csv_line game) with
                | Some g => g :: omap row (uncurry csv_line <$> games)
                | None => omap row (uncurry csv_line <$> games)
                end); [reflexivity|].
  rewrite Hrow, IH. reflexivity.
Qed.

(** X25. Games saved in a new file are read back. After any number of
    games have been saved by [Game.save], none being there before,
    [Game.latest] gives back the games it can decode, the one saved last
    first, cut as [rows[:k]] cuts them; the header is not taken for a
    game; and [Game.count] is the number of games that were saved. The
    dates have no comma and do not begin with a blank, and neither dates
    nor results hold a line break. Both methods are taken as they
    compute, without the cache of a second that is put around them. *)
Theorem saved_games_read_back (games : list (pystr * pystr)) (k : Z)
    (Hgames : Forall writable games) :
  latest decode (saved games) k =
    upto k (reverse (omap (uncurry decode) games)) /\
  count (saved games) = Z.of_nat (length games).
Proof.
  destruct (decide (games = [])) as [->|Hne].
  { split; [|reflexivity]. change ([] = upto k (reverse (@nil G))).
    unfold upto. rewrite reverse_nil. by destruct (k <? 0); rewrite take_nil. }
  rewrite saved_content by done. unfold latest, count.
  rewrite readlines_saved by done. split.
  - rewrite imap_cons.
    match goal with
    | |- upto k (reverse (omap ?F (?first :: ?rest))) = _ =>
        change (omap F (first :: rest)) with (omap F rest)
    end.
    rewrite rows_after_first by (intros i line; by exists i).
    by rewrite rows_saved.
  - assert (Hall : List.filter (fun l => negb (bool_decide (strip l = [])))
                     (uncurry csv_line <$> games) = uncurry csv_line <$> games).
    { clear Hne. induction Hgames as [|game games Hgame _ IH]; [done|].
      rewrite fmap_cons. cbn [List.filter].
      rewrite bool_decide_eq_false_2 by (by apply saved_line_not_blank).
      cbn [negb]. by rewrite IH. }
    cbn [List.filter].
    replace (negb (bool_decide (strip header_line = []))) with true
      by (symmetry; apply negb_true_iff, bool_decide_eq_false_2; by vm_compute).
    rewrite Hall.
    replace (Llms.startswith header_line (str "run_date")) with true by reflexivity.
    cbn [length]. rewrite length_fmap. lia.
Qed.

End Rows.

End GamesFile.

Lemma saved_games_read_back_witness :
  Forall writable [(Cases.run_date, Cases.results_json);
                   (Cases.later_date, Cases.results_json)] /\
  Games.latest (fun run_date results => Some (run_date, results))
    (Games.saved [(Cases.run_date, Cases.results_json);
                  (Cases.later_date, Cases.results_json)]) 1 =
    [(Cases.later_date, Cases.results_json)] /\
  Games.count (Games.saved [(Cases.run_date, Cases.results_json);
                            (Cases.later_date, Cases.results_json)]) = 2.
Proof.
  assert (Hgames : Forall writable [(Cases.run_date, Cases.results_json);
                                    (Cases.later_date, Cases.results_json)]).
  { repeat constructor;
      first [ by decided
            | (intros c Hc; vm_compute in Hc; by injection Hc as <-) ]. }
  split; [exact Hgames|].
  exact (saved_games_read_back (fun run_date results => Some (run_date, results))
           _ 1 Hgames).
Defined.
